(** * LemmaTag: a joint neural tagger and lemmatizer (lemmatag.py)

    A shallow embedding of the parts of [lemmatag.py] that are ordinary
    programs over integer tensors, Python lists and dictionaries:
    [find_first], the target-sequence preparation of [Network.construct],
    the label-smoothed targets and the arg-max heads of [compute_tags], the
    gating of gradient clipping, the data-flow of the constructed graph, the
    output loop of [Network.predict] and [CharTags].

    Tensors are lists (of lists) of integers together with their shape,
    Python lists are lists, dictionaries are [gmap]s, and every operation
    that can raise returns an [option].  The numbers of label smoothing and
    of gradient clipping are IEEE 754 numbers, [float64] in Python and
    [float32] in the graph; the same expressions read without rounding, over
    the rationals and the reals, carry the suffix [_exact]. *)

From Stdlib Require Import ZArith QArith Qpower Qfield Qminmax Reals Qreals Lra
  Lia List Bool SpecFloat.
From stdpp Require Import gmap strings list fin_maps sorting.

#[local] Open Scope Z_scope.

(** ** 32-bit integer tensors *)

Module Tensor.

(** The value of a signed 32-bit cell after an arithmetic operation. *)
Definition wrap32 (z : Z) : Z := (z + 2 ^ 31) mod 2 ^ 32 - 2 ^ 31.

(** A rank-2 [tf.int32] tensor: its shape and its rows. *)
Record tensor2 : Type := Tensor2 {
  dim0 : nat;
  dim1 : nat;
  cells : list (list Z)
}.

Definition shaped (t : tensor2) : Prop :=
  length (cells t) = dim0 t ∧ Forall (λ r, length r = dim1 t) (cells t).

#[global] Instance shaped_dec t : Decision (shaped t).
Proof. unfold shaped. apply _. Defined.

(** Column [j] of a list of rows. *)
Definition column (j : nat) (rows : list (list Z)) : list Z :=
  map (λ r, nth j r 0) rows.

(** [tf.transpose] on a rank-2 tensor. *)
Definition tf_transpose (t : tensor2) : tensor2 :=
  Tensor2 (dim1 t) (dim0 t) (map (λ j, column j (cells t)) (seq 0 (dim1 t))).

(** [tf.scan fn elems initializer]: the accumulators after each element. *)
Fixpoint tf_scan {A B : Type} (fn : A → B → A) (elems : list B) (a : A) : list A :=
  match elems with
  | [] => []
  | e :: es => let a' := fn a e in a' :: tf_scan fn es a'
  end.

(** Index of the first occurrence of [v] in [l], [length l] when absent. *)
Fixpoint first_occ (v : Z) (l : list Z) : nat :=
  match l with
  | [] => O
  | x :: l' => if v =? x then O else S (first_occ v l')
  end.

End Tensor.

(** ** find_first *)

Module FindFirst.
Import Tensor.

(** [tf.cast(tf.equal([val], col), dtype=tf.int32)] *)
Definition eqs (val : Z) (col : list Z) : list Z :=
  map (λ c, if val =? c then 1 else 0) col.

(** The body of the scan: [(ix + 1, minimum(poss, ix * eqs + vlen * (1 - eqs)))]. *)
Definition step (val vlen : Z) (st : Z * list Z) (col : list Z) : Z * list Z :=
  let '(ix, poss) := st in
  (wrap32 (ix + 1),
   zip_with Z.min poss
     (map (λ e, wrap32 (wrap32 (ix * e) + wrap32 (vlen * wrap32 (1 - e))))
          (eqs val col))).

(** [find_first(vec, val, transpose)]; [None] is the error raised by the
    final [[-1, :]] on a scan over no rows. *)
Definition find_first (vec : tensor2) (val : Z) (transpose : bool) : option (list Z) :=
  let vec := if transpose then tf_transpose vec else vec in
  let vheight := dim1 vec in
  let vlen := Z.of_nat (dim0 vec) in
  snd <$> last (tf_scan (step val vlen) (cells vec) (0, replicate vheight vlen)).

(** Where a scan that starts at row [ix] first sees the value in a column
    whose first occurrence is at offset [k] of [n] remaining rows. *)
Definition seen (vlen ix : Z) (k n : nat) : Z :=
  if (k <? n)%nat then ix + Z.of_nat k else vlen.

(** [k] is the smallest index at which [v] occurs in [l], or the length
    of [l] when [v] does not occur in it. *)
Definition first_or_len (v : Z) (l : list Z) (k : Z) : Prop :=
  0 ≤ k ≤ Z.of_nat (length l)
  ∧ (∀ (i : nat) x, Z.of_nat i < k → l !! i = Some x → x ≠ v)
  ∧ (k < Z.of_nat (length l) → l !! Z.to_nat k = Some v).

(** Beam-search branch of [decode_lemmas]:
    [lemma_prediction_lengths = 1 + find_first(lemma_predictions, eow)]. *)
Definition beam_prediction_lengths (lemma_predictions : tensor2) (eow : Z)
  : option (list Z) :=
  map (λ k, wrap32 (1 + k)) <$> find_first lemma_predictions eow true.

End FindFirst.

(** ** Framework primitives used by [Network.construct] *)

Module TF.
Import Tensor.

(** One row of [tf.reverse_sequence(input, seq_lengths, 1)]: the first
    [len] cells reversed; a length outside [0, width] is an error. *)
Definition reverse_row (row : list Z) (len : Z) : option (list Z) :=
  if (0 <=? len) && (len <=? Z.of_nat (length row))
  then Some (rev (take (Z.to_nat len) row) ++ drop (Z.to_nat len) row)
  else None.

Definition reverse_sequence (input : list (list Z)) (seq_lengths : list Z)
  : option (list (list Z)) :=
  if decide (length input = length seq_lengths)
  then mapM (λ '(row, len), reverse_row row len) (zip input seq_lengths)
  else None.

(** [tf.pad(x, [[0, 0], [1, 0]], constant_values=c)] *)
Definition pad_front (c : Z) (x : list (list Z)) : list (list Z) := map (cons c) x.

(** [x[:, :-1]] *)
Definition drop_last_column (x : list (list Z)) : list (list Z) :=
  map (λ row, take (length row - 1) row) x.

(** [tf.reduce_max] of an [int32] vector; the minimum of the type when empty. *)
Definition reduce_max (v : list Z) : Z := fold_right Z.max (- 2 ^ 31) v.

(** [tf.argmax] along the last axis: the first index of a largest entry. *)
Fixpoint argmax_from (best : Q) (besti i : nat) (l : list Q) : nat :=
  match l with
  | [] => besti
  | x :: l' =>
      if Qlt_le_dec best x then argmax_from x i (S i) l'
      else argmax_from best besti (S i) l'
  end.

Definition argmax (l : list Q) : nat :=
  match l with
  | [] => O
  | x :: l' => argmax_from x O 1%nat l'
  end.

(** *** [tf.contrib.seq2seq]: decoders and [dynamic_decode] *)

Section decoders.
Context {State Input Output : Type}.

(** A decoder over one batch: the initial (finished, inputs, state) and
    the step function giving (outputs, state, next inputs, finished). *)
Record decoder : Type := Decoder {
  initialize : list bool * Input * State;
  step : nat → Input → State → Output * State * Input * list bool
}.

(** The loop of [dynamic_decode]: it runs while some sequence is not
    finished and fewer than [maximum_iterations] steps were taken, and
    records the inputs fed and the outputs produced at every step. *)
Fixpoint decode_loop (dec : decoder) (iterations_left time : nat)
    (finished : list bool) (inputs : Input) (state : State)
  : list (Input * Output * list bool) :=
  match iterations_left with
  | O => []
  | S n =>
      if forallb (λ b : bool, b) finished then []
      else
        let '(out, state', inputs', fin) := step dec time inputs state in
        let finished' := zip_with orb fin finished in
        (inputs, out, finished')
          :: decode_loop dec n (S time) finished' inputs' state'
  end.

Definition dynamic_decode (dec : decoder) (maximum_iterations : Z)
  : list (Input * Output * list bool) :=
  let '(finished, inputs, state) := initialize dec in
  decode_loop dec (Z.to_nat maximum_iterations) O finished inputs state.

(** The sequence length recorded for batch entry [k]: the number of
    steps up to and including the one at which it became finished. *)
Fixpoint steps_until_finished (k : nat) (trace : list (Input * Output * list bool))
  : nat :=
  match trace with
  | [] => O
  | (_, _, fin) :: rest =>
      if nth k fin false then 1%nat else S (steps_until_finished k rest)
  end.

(** [BasicDecoder] with a [TrainingHelper(inputs, sequence_length)]:
    the input of step [t] is column [t] of [inputs], whatever was sampled. *)
Definition training_decoder (cell : Input → State → Output * State)
    (inputs : nat → Input) (sequence_length : list Z) (zero_state : State)
  : decoder :=
  {| initialize := (map (λ l, l <=? 0) sequence_length, inputs O, zero_state);
     step time i s :=
       let '(out, s') := cell i s in
       (out, s', inputs (S time),
        map (λ l, l <=? Z.of_nat (S time)) sequence_length) |}.

End decoders.

(** [BasicDecoder] with a [GreedyEmbeddingHelper(embedding, start_tokens,
    end_token)]: the input of a step is the token sampled at the previous one. *)
Definition greedy_decoder {State : Type}
    (cell : list Z → State → list (list Q) * State)
    (start_tokens : list Z) (end_token : Z) (zero_state : State)
  : @decoder State (list Z) (list (list Q)) :=
  {| initialize := (map (λ _, false) start_tokens, start_tokens, zero_state);
     step time i s :=
       let '(out, s') := cell i s in
       let sample_ids := map (λ logits, Z.of_nat (argmax logits)) out in
       (out, s', sample_ids, map (λ c, c =? end_token) sample_ids) |}.

End TF.

(** ** Target sequences and the lemma decoder of [Network.construct] *)

Module Lemmas.
Import Tensor TF.

(** A target lemma of [l] characters stored in a (padded) row. *)
Definition lemma_fits (row : list Z) (l : Z) : Prop :=
  0 ≤ l ≤ Z.of_nat (length row) ∧ l + 1 < 2 ^ 31.

(** Add [eow] at the end: the target sequences of the words (one padded row
    per word, with its length) are reversed over their length, get [eow] in
    front, and are reversed again over one cell more. *)
Definition add_eow (eow : Z) (target_lens : list Z) (target_seqs : list (list Z))
  : option (list Z * list (list Z)) :=
  target_seqs ← reverse_sequence target_seqs target_lens;
  let target_seqs := pad_front eow target_seqs in
  let target_lens := map (λ l, wrap32 (l + 1)) target_lens in
  target_seqs ← reverse_sequence target_seqs target_lens;
  Some (target_lens, target_seqs).

(** [target_seqs_bow = tf.pad(target_seqs, [[0, 0], [1, 0]], bow)[:, :-1]] *)
Definition target_seqs_bow (bow : Z) (target_seqs : list (list Z)) : list (list Z) :=
  drop_last_column (pad_front bow target_seqs).

(** The training decoder: the cell (with its attention, its extra inputs
    and the output layer) is a parameter; its inputs are the columns of
    [target_seqs_bow], looked up in the embedding by the cell. *)
Definition train_decoder {State Output : Type}
    (train_cell : list Z → State → Output * State) (train_initial_state : State)
    (bow : Z) (target_lens : list Z) (target_seqs : list (list Z))
  : @decoder State (list Z) Output :=
  training_decoder train_cell (λ t, column t (target_seqs_bow bow target_seqs))
    target_lens train_initial_state.

(** The beams of a word after [t] steps: at least one, each of [t] characters. *)
Definition beams_at (t : nat) (bs : list (list Z)) : Prop :=
  bs ≠ [] ∧ Forall (λ b, length b = t) bs.

(** Inference: [maximum_iterations = tf.reduce_max(self.charseq_lens) + 10]. *)
Definition maximum_iterations (charseq_lens : list Z) : Z :=
  wrap32 (reduce_max charseq_lens + 10).

(** Predictions without [--beams]: a greedy decode from [bow];
    [lemma_predictions] is the arg-max of the outputs, a row per word, and
    [lemma_prediction_lengths] the sequence lengths of the decode. *)
Definition greedy_predict {State : Type}
    (pred_cell : list Z → State → list (list Q) * State) (pred_initial_state : State)
    (bow eow : Z) (words_count : nat) (charseq_lens : list Z)
  : tensor2 * list Z :=
  let trace :=
    dynamic_decode
      (greedy_decoder pred_cell (replicate words_count bow) eow pred_initial_state)
      (maximum_iterations charseq_lens) in
  (Tensor2 words_count (length trace)
     (map (λ k, map (λ '(_, out, _), Z.of_nat (argmax (nth k out []))) trace)
          (seq 0 words_count)),
   map (λ k, Z.of_nat (steps_until_finished k trace)) (seq 0 words_count)).

(** [FixedBeamSearchDecoder.finalize]: the framework's [finalize], given
    the lengths recorded in the final beam-search state in place of the
    sequence lengths of [dynamic_decode].  [decode_lemmas] builds the
    framework's [BeamSearchDecoder], not this class, and takes the lengths
    from [find_first]. *)
Definition finalize {Outputs FinalState Lengths Result : Type}
    (super_finalize : Outputs → FinalState → Lengths → Result)
    (lengths : FinalState → Lengths)
    (outputs : Outputs) (final_state : FinalState) (sequence_lengths : Lengths)
  : Result :=
  super_finalize outputs final_state (lengths final_state).

Section beam_search.
Variable score : nat → list Z → Q.
Variable vocabulary : list Z.
Variable beam_width : nat.

(** Modelled from the spec: [tf.contrib.seq2seq.BeamSearchDecoder] is the
    framework's, not this repository's.  The glossary describes it as
    retaining the top-k partial sequences by score at each decoding step:
    every retained partial sequence of a word is extended by every character
    of the vocabulary, and the [beam_width] best-scoring extensions are
    retained, best first.  The score of a partial sequence (the network's
    log-probability with its length penalty) is a parameter. *)
Definition better (w : nat) (a b : list Z) : Prop := (score w b <= score w a)%Q.

#[global] Instance better_dec w a b : Decision (better w a b).
Proof.
  unfold better. destruct (Qlt_le_dec (score w a) (score w b)) as [Hlt|Hle].
  - right. by apply Qlt_not_le.
  - by left.
Defined.

Definition candidates (beams : list (list Z)) : list (list Z) :=
  b ← beams; c ← vocabulary; [b ++ [c]].

Definition retain (w : nat) (cands : list (list Z)) : list (list Z) :=
  take beam_width (merge_sort (better w) cands).

Definition beam_step (beams : list (list (list Z))) : list (list (list Z)) :=
  imap (λ w bs, retain w (candidates bs)) beams.

Definition finished_beams (eow : Z) (bs : list (list Z)) : bool :=
  forallb (λ b, bool_decide (eow ∈ b)) bs.

Definition beam_search_decoder (words_count : nat) (eow : Z)
  : @decoder (list (list (list Z))) unit (list (list (list Z))) :=
  {| initialize := (replicate words_count false, tt, replicate words_count [[]]);
     step time _ beams :=
       let beams' := beam_step beams in
       (beams', beams', tt, map (finished_beams eow) beams') |}.

(** Predictions with [--beams]: [lemma_predictions] is beam 0 of the
    predicted ids of every word, [lemma_prediction_lengths] is
    [1 + find_first(lemma_predictions, eow)]. *)
Definition beam_predict (eow : Z) (words_count : nat) (charseq_lens : list Z)
  : option (tensor2 * list Z) :=
  let trace :=
    dynamic_decode (beam_search_decoder words_count eow)
      (maximum_iterations charseq_lens) in
  let predicted_ids :=
    match last trace with
    | Some (_, beams, _) => beams
    | None => replicate words_count [[]]
    end in
  let lemma_predictions :=
    Tensor2 words_count (length trace) (map (λ bs, nth 0 bs []) predicted_ids) in
  lemma_prediction_lengths ← FindFirst.beam_prediction_lengths lemma_predictions eow;
  Some (lemma_predictions, lemma_prediction_lengths).

End beam_search.

(** The predictions of [decode_lemmas]: [if not args.beams], that is
    without [--beams] (the default) or with 0 beams, the greedy decode;
    beam search otherwise. *)
Definition predict_lemmas {State : Type} (beams : option nat)
    (pred_cell : list Z → State → list (list Q) * State) (pred_initial_state : State)
    (score : nat → list Z → Q) (vocabulary : list Z)
    (bow eow : Z) (words_count : nat) (charseq_lens : list Z)
  : option (tensor2 * list Z) :=
  match beams with
  | None | Some O =>
      Some (greedy_predict pred_cell pred_initial_state bow eow words_count
              charseq_lens)
  | Some (S k) => beam_predict score vocabulary (S k) eow words_count charseq_lens
  end.

End Lemmas.


(** ** Floating-point numbers *)

(** Python's [float] is IEEE 754 [binary64] and the tensors of the graph are
    [float32], IEEE 754 [binary32].  Their arithmetic is the Standard
    Library's specification of IEEE 754 arithmetic ([SpecFloat]: rounding to
    nearest, ties to even) at precision 53 and at precision 24. *)
Module F64.

Definition prec : Z := 53.
Definition emax : Z := 1024.

(** The value of a Python [int] as a [float]. *)
Definition of_Z (z : Z) : spec_float := binary_normalize prec emax z 0 false.

Definition sub : spec_float → spec_float → spec_float := SFsub prec emax.
Definition div : spec_float → spec_float → spec_float := SFdiv prec emax.

End F64.

Module F32.

Definition prec : Z := 24.
Definition emax : Z := 128.

Definition of_Z (z : Z) : spec_float := binary_normalize prec emax z 0 false.

(** A Python [float] entering the graph as a [float32] constant. *)
Definition of_f64 (x : spec_float) : spec_float :=
  match x with
  | S754_finite s m e => binary_round prec emax s m e
  | _ => x
  end.

Definition add : spec_float → spec_float → spec_float := SFadd prec emax.
Definition mul : spec_float → spec_float → spec_float := SFmul prec emax.
Definition div : spec_float → spec_float → spec_float := SFdiv prec emax.
Definition sqrt : spec_float → spec_float := SFsqrt prec emax.

(** [tf.minimum] of two numbers. *)
Definition minimum (x y : spec_float) : spec_float :=
  if SFltb y x then y else x.

(** The inner product of two vectors, added from left to right. *)
Definition dot (x y : list spec_float) : spec_float :=
  fold_left add (zip_with mul x y) (S754_zero false).

Definition zero : spec_float := S754_zero false.
Definition one : spec_float := S754_finite false 8388608 (-23).

(** A [float32] number: zero, or a finite number in the canonical form of
    the format; neither an infinity nor a NaN. *)
Definition finite (x : spec_float) : bool :=
  valid_binary prec emax x
  && match x with
     | S754_zero _ | S754_finite _ _ _ => true
     | _ => false
     end.

Definition sign (x : spec_float) : bool :=
  match x with
  | S754_zero s | S754_infinity s | S754_finite s _ _ => s
  | S754_nan => false
  end.

End F32.

(** The real value of a finite floating-point number. *)
Definition float_value (x : spec_float) : Q :=
  match x with
  | S754_finite s m e =>
      ((if s then - (1) else 1) * inject_Z (Z.pos m) * 2 ^ e)%Q
  | _ => 0%Q
  end.

(** ** The tag heads of [compute_tags] *)

Module Tagger.
Import TF.

(** *** Label smoothing *)

(** [tf.one_hot(indices, depth)] for one index, in [float32]: all zeros
    when the index is outside [0, depth). *)
Definition one_hot (depth : nat) (index : Z) : list spec_float :=
  map (λ j, if Z.of_nat j =? index then F32.one else F32.zero) (seq 0 depth).

(** [tf.one_hot(self.tags[:, :, i], tags) * (1 - args.label_smoothing)
     + args.label_smoothing / tags], for one word.  [args.label_smoothing]
    is a Python [float] and [tags] a Python [int]: the two scalars are
    computed by Python in [float64] and enter the graph as [float32]
    constants; the product and the sum are those of [float32] tensors. *)
Definition gold_labels (label_smoothing : spec_float) (tags : nat) (tag : Z)
  : list spec_float :=
  map (λ x, F32.add
              (F32.mul x (F32.of_f64 (F64.sub (F64.of_Z 1) label_smoothing)))
              (F32.of_f64 (F64.div label_smoothing (F64.of_Z (Z.of_nat tags)))))
      (one_hot tags tag).

(** The same expression read in exact arithmetic, every operation without
    its rounding: the distribution that blends the one-hot target with the
    uniform one. *)
Definition one_hot_exact (depth : nat) (index : Z) : list Q :=
  map (λ j, if Z.of_nat j =? index then 1%Q else 0%Q) (seq 0 depth).

Definition gold_labels_exact (label_smoothing : Q) (tags : nat) (tag : Z) : list Q :=
  map (λ x, (x * (1 - label_smoothing)
             + label_smoothing / inject_Z (Z.of_nat tags))%Q)
      (one_hot_exact tags tag).

Definition qsum (l : list Q) : Q := fold_right Qplus 0%Q l.

(** *** The heads of the tag classifier *)

Section heads.

(** The numbers of the logits are [float32] in the code.  What follows
    does not depend on their arithmetic: the sum [fadd], the inner product
    [dotp] as the matrix product of the framework computes it (the order of
    its additions is the kernel's), and the comparison [flt], strictly less,
    by which the arg-max compares are parameters. *)
Context {F W : Type}.
Variable fadd : F → F → F.
Variable dotp : list F → list F → F.
Variable flt : F → F → bool.

(** The variables of [tf.layers.dense(inputs, units)]: a kernel of shape
    [[input_dim, units]] (a row per input component) and a bias of shape
    [[units]]. *)
Record dense_layer : Type := Dense {
  kernel : list (list F);
  bias : list F
}.

Definition layer_shaped (input_dim units : nat) (layer : dense_layer) : Prop :=
  length (kernel layer) = input_dim
  ∧ Forall (λ row, length row = units) (kernel layer)
  ∧ length (bias layer) = units.

(** Column [c] of the kernel: the weights of unit [c]. *)
Definition column (c : nat) (rows : list (list F)) : list F :=
  omap (λ row, row !! c) rows.

(** [tf.layers.dense(inputs, units)] for one input vector:
    [inputs @ kernel + bias]. *)
Definition dense (units : nat) (layer : dense_layer) (x : list F) : list F :=
  zip_with fadd (map (λ c, dotp x (column c (kernel layer))) (seq 0 units))
    (bias layer).

(** [tf.argmax] along the last axis: the first index of a largest entry. *)
Fixpoint argmax_from (best : F) (besti i : nat) (l : list F) : nat :=
  match l with
  | [] => besti
  | y :: l' =>
      if flt best y then argmax_from y i (S i) l'
      else argmax_from best besti (S i) l'
  end.

Definition argmax (l : list F) : nat :=
  match l with
  | [] => O
  | y :: l' => argmax_from y O 1%nat l'
  end.

(** [r] is the first index of a largest entry of [l]: no entry is above
    the one at [r] and every entry before [r] is below it. *)
Definition first_max (l : list F) (r : nat) : Prop :=
  ∃ v, l !! r = Some v
       ∧ ∀ j y, l !! j = Some y →
           flt v y = false ∧ ((j < r)%nat → flt y v = true).

(** The comparison orders the numbers of [l]: it is a strict weak order on
    them, as the comparison of floating-point numbers is when none of them
    is a NaN. *)
Definition ordered (l : list F) : Prop :=
  (∀ a b, a ∈ l → b ∈ l → flt a b = true → flt b a = false)
  ∧ (∀ a b c, a ∈ l → b ∈ l → c ∈ l →
       flt a c = true → flt a b = true ∨ flt b c = true).

(** [self.predictions] of [compute_tags]: for every sentence and word, the
    stack over the heads [(tags, weight)] of [num_tags] of the arg-max of
    the head's own output layer [tf.layers.dense(_, tags)]; [layers] holds
    the variables of these layers, head by head. *)
Definition predictions (num_tags : list (nat * W)) (layers : list dense_layer)
    (sentence_rnn_outputs_tags : list (list (list F))) : list (list (list Z)) :=
  map (map (λ x, zip_with (λ (head : nat * W) layer,
                             Z.of_nat (argmax (dense head.1 layer x)))
                   num_tags layers))
      sentence_rnn_outputs_tags.

End heads.

Arguments dense_layer : clear implicits.

End Tagger.

(** ** Gradient clipping in [Network.construct] *)

Module Training.

(** *** In [float32], as the framework computes it *)

(** [tf.reduce_sum] of a vector.  The order in which the kernel adds is not
    fixed by the framework; here it adds from left to right. *)
Definition reduce_sum (v : list spec_float) : spec_float :=
  fold_left F32.add v F32.zero.

(** [tf.nn.l2_loss(t)]: [sum(t ** 2) / 2]. *)
Definition l2_loss (t : list spec_float) : spec_float :=
  F32.div (reduce_sum (map (λ x, F32.mul x x) t)) (F32.of_Z 2).

(** [tf.global_norm(t_list)]: the square root of twice the sum of the
    [l2_loss] of the tensors. *)
Definition global_norm (t_list : list (list spec_float)) : spec_float :=
  F32.sqrt (F32.mul (reduce_sum (map l2_loss t_list)) (F32.of_Z 2)).

(** [tf.clip_by_global_norm(t_list, clip_norm)]: every tensor becomes
    [t * scale], with
    [scale = clip_norm * minimum(1.0 / norm, 1.0 / clip_norm)]. *)
Definition clip_by_global_norm (t_list : list (list spec_float))
    (clip_norm : spec_float) : list (list spec_float) :=
  let scale :=
    F32.mul clip_norm
      (F32.minimum (F32.div F32.one (global_norm t_list))
                   (F32.div F32.one clip_norm)) in
  map (map (λ v, F32.mul v scale)) t_list.

(** The truth value of a Python [float]: false for zero only. *)
Definition truthy (x : spec_float) : bool :=
  match x with
  | S754_zero _ => false
  | _ => true
  end.

(** The gradients handed to [optimizer.apply_gradients]: clipped
    [if args.grad_clip:], that is when the option is given and is not 0;
    the Python [float] enters the graph as a [float32] constant. *)
Definition applied_gradients (grad_clip : option spec_float)
    (gradients : list (list spec_float)) : list (list spec_float) :=
  match grad_clip with
  | None => gradients
  | Some c =>
      if truthy c then clip_by_global_norm gradients (F32.of_f64 c)
      else gradients
  end.

(** *** In exact arithmetic, as the framework documents it *)

#[local] Open Scope R_scope.

(** The documentation of [tf.clip_by_global_norm]: the tensors are set to
    [t_list[i] * clip_norm / max(global_norm, clip_norm)], where
    [global_norm = sqrt(sum([l2norm(t)**2 for t in t_list]))], read over
    the reals. *)
Definition l2norm (t : list R) : R :=
  sqrt (fold_right Rplus 0 (map (λ x, x * x) t)).

Definition global_norm_exact (t_list : list (list R)) : R :=
  sqrt (fold_right Rplus 0 (map (λ t, l2norm t * l2norm t) t_list)).

Definition clip_by_global_norm_exact (t_list : list (list R)) (clip_norm : R)
  : list (list R) :=
  map (map (λ t, t * clip_norm / Rmax (global_norm_exact t_list) clip_norm)) t_list.

Definition applied_gradients_exact (grad_clip : option R) (gradients : list (list R))
  : list (list R) :=
  match grad_clip with
  | None => gradients
  | Some c =>
      if Req_dec_T c 0 then gradients else clip_by_global_norm_exact gradients c
  end.

(** The norm of a list of tensors taken as one vector: the square root of
    the sum of the squares of all their components. *)
Definition sum_squares (t_list : list (list R)) : R :=
  fold_right Rplus 0 (map (λ t, t * t) (concat t_list)).

Definition euclidean_norm (t_list : list (list R)) : R := sqrt (sum_squares t_list).

(** The values of [float32] gradients as real numbers. *)
Definition values (t_list : list (list spec_float)) : list (list R) :=
  map (map (λ v, Q2R (float_value v))) t_list.

(** The square of the norm of [float32] gradients taken as one vector,
    computed exactly: the sum of the squares of the values of all their
    components. *)
Definition squared_norm (t_list : list (list spec_float)) : Q :=
  fold_right Qplus 0%Q
    (map (λ v, (float_value v * float_value v)%Q) (concat t_list)).

End Training.

(** ** Python lists and the tag encoders *)

Module Py.

(** [l[i]] on a Python list (or a numpy axis): a negative index counts from
    the end, an index outside [-len, len) raises [IndexError]. *)
Definition py_index {A : Type} (l : list A) (i : Z) : option A :=
  if 0 <=? i then l !! Z.to_nat i
  else if - Z.of_nat (length l) <=? i then l !! Z.to_nat (Z.of_nat (length l) + i)
  else None.

(** [''.join(parts)] *)
Definition join (parts : list string) : string := String.concat EmptyString parts.

End Py.

Module Tags.
Import Py.

(** [WholeTags.decode] and [CharTags.decode] (the same code): for every
    sentence, the training tag word at component 0 of every tag. *)
Definition decode (words : list string) (tags : list (list (list Z)))
  : option (list (list string)) :=
  mapM (mapM (λ tag, tag0 ← head tag; py_index words tag0)) tags.

(** The state of a [CharTags] object. *)
Record chartags : Type := CharTags {
  train_words : list string;         (* train.factors[TAGS].words *)
  train_alphabet : list string;      (* train.factors[TAGS].alphabet *)
  taglen : nat;
  alphabet_maps : list (gmap string Z);
  alphabets : list (list string);
  cache : gmap Z (list Z)
}.

(** The characters of a tag, each as a one-character string. *)
Definition chars (tag : string) : list string :=
  map (λ c, String c EmptyString) (String.list_ascii_of_string tag).

(** One iteration of the inner loop of [__init__]: position [i] of a tag
    holds [ch]; the code of [ch] at this position, added when it is new. *)
Definition add_char (maps : list (gmap string Z)) (alphs : list (list string))
    (i : nat) (ch : string) : list (gmap string Z) * list (list string) * Z :=
  match maps !! i, alphs !! i with
  | Some m, Some a =>
      match m !! ch with
      | Some code => (maps, alphs, code)
      | None =>
          let code := Z.of_nat (length a) in
          (<[i := <[ch := code]> m]> maps, <[i := a ++ [ch]]> alphs, code)
      end
  | _, _ => (maps, alphs, 0)
  end.

Fixpoint add_chars (maps : list (gmap string Z)) (alphs : list (list string))
    (i : nat) (chs : list string)
  : list (gmap string Z) * list (list string) * list Z :=
  match chs with
  | [] => (maps, alphs, [])
  | ch :: rest =>
      let '(maps, alphs, code) := add_char maps alphs i ch in
      let '(maps, alphs, codes) := add_chars maps alphs (S i) rest in
      (maps, alphs, code :: codes)
  end.

(** One iteration of the outer loop of [__init__]. *)
Definition add_tag (ct : chartags) (tag_id : nat) (tag : string) : chartags :=
  if decide (String.length tag = taglen ct) then
    let '(maps, alphs, codes) :=
      add_chars (alphabet_maps ct) (alphabets ct) O (chars tag) in
    CharTags (train_words ct) (train_alphabet ct) (taglen ct) maps alphs
      (<[Z.of_nat tag_id := Z.of_nat tag_id :: codes]> (cache ct))
  else ct.

Fixpoint add_tags (ct : chartags) (tag_id : nat) (tags : list string) : chartags :=
  match tags with
  | [] => ct
  | tag :: rest => add_tags (add_tag ct tag_id tag) (S tag_id) rest
  end.

(** [CharTags.__init__(train)]; [strings] is [train.factors[TAGS].strings],
    whose first tag gives the tag length. *)
Definition init (words alphabet : list string) (strings : list (list string))
  : option chartags :=
  sentence ← head strings;
  tag ← head sentence;
  let taglen := String.length tag in
  Some (add_tags
          (CharTags words alphabet taglen
             (replicate taglen {["<unk>"%string := 0]})
             (replicate taglen ["<unk>"%string]) ∅)
          O words).

(** The components of a tag that is not in the cache. *)
Definition encode_uncached (ct : chartags) (seqs : list (list Z))
    (tag_id seq_id : Z) : option (list Z) :=
  sq ← py_index seqs seq_id;
  if decide (length sq = taglen ct) then
    comps ← mapM (λ k,
               c ← sq !! k;
               ch ← py_index (train_alphabet ct)
                      (if c <? Z.of_nat (length (train_alphabet ct)) then c else 0);
               m ← alphabet_maps ct !! k;
               Some (default 0 (m !! ch)))
             (seq O (taglen ct));
    Some (tag_id :: comps)
  else Some (tag_id :: replicate (taglen ct) 0).

(** [CharTags.encode(tag_ids, seq_ids, seqs)]: one entry of [taglen + 1]
    components per cell of [seq_ids]. *)
Definition encode (ct : chartags) (tag_ids seq_ids : list (list Z))
    (seqs : list (list Z)) : option (list (list (list Z))) :=
  mapM (λ '(i, row),
      mapM (λ '(j, seq_id),
          tag_id ← tag_ids !! i ≫= (λ r, r !! j);
          match cache ct !! tag_id with
          | Some entry => Some entry
          | None => encode_uncached ct seqs tag_id seq_id
          end)
        (imap pair row))
    (imap pair seq_ids).

(** What [__init__] establishes: the cache entry of a tag id starts with
    the id and has [taglen + 1] components, and there is one alphabet map
    per tag position. *)
Definition chartags_ok (ct : chartags) : Prop :=
  length (alphabet_maps ct) = taglen ct
  ∧ ∀ tag_id entry, cache ct !! tag_id = Some entry →
      head entry = Some tag_id ∧ length entry = S (taglen ct).

(** Inputs on which [encode] raises no [IndexError]: every sequence id
    names a row of [seqs], whose cells are character ids (not negative),
    and the training alphabet is not empty. *)
Definition encodable (ct : chartags) (seq_ids seqs : list (list Z)) : Prop :=
  Forall (Forall (λ seq_id, 0 ≤ seq_id < Z.of_nat (length seqs))) seq_ids
  ∧ Forall (Forall (λ c, 0 ≤ c)) seqs
  ∧ train_alphabet ct ≠ [].

End Tags.

(** ** Network.predict *)

Module Predict.
Import Py.

(** What one [session.run] of [predict] returns for a batch, with the
    sentence lengths of the batch. *)
Record batch : Type := Batch {
  sentence_lens : list nat;
  tp : list (list (list Z));   (* self.predictions: sentence, word, head *)
  lp : list (list Z);          (* self.lemma_predictions: word, step *)
  lpl : list Z;                (* self.lemma_prediction_lengths *)
  senses : list Z              (* self.sense_prediction *)
}.

Section predict.
Variable builtin_sense : bool.        (* args.builtin_sense *)
Variable tag_words : list string.     (* the words of args.tags.decode *)
Variable alphabet : list string.      (* dataset.factors[LEMMAS].alphabet *)
Variable sense_words : list string.   (* dataset.factors[SENSES].words *)

(** [''.join(alphabet[lp[i][j]] for j in range(lpl[i] - 1))] *)
Definition lemma_chars (lp : list (list Z)) (i : nat) (len : Z) : option (list string) :=
  mapM (λ j, row ← lp !! i; c ← row !! j; py_index alphabet c)
       (seq 0 (Z.to_nat (len - 1))).

(** The suffix added to the lemma of a word when the sense is separate. *)
Definition sense_suffix (sense : Z) : option string :=
  if 0 <? sense then
    sword ← py_index sense_words sense;
    if decide (sword ≠ EmptyString ∧ sword ≠ "<pad>"%string)
    then Some ("-" +:+ sword)%string else Some EmptyString
  else Some EmptyString.

(** The body of the loop over the words of a sentence. *)
Definition predict_word (lp : list (list Z)) (lpl senses : list Z) (i : nat)
  : option string :=
  len ← lpl !! i;
  chars ← lemma_chars lp i len;
  if builtin_sense then Some (join chars)
  else
    sense ← senses !! i;
    suffix ← sense_suffix sense;
    Some (join chars +:+ suffix)%string.

(** The loop over the sentences of a batch, with the final
    [assert len(lpl) == 0]. *)
Fixpoint predict_sentences (lens : list nat) (lp : list (list Z)) (lpl senses : list Z)
  : option (list (list string)) :=
  match lens with
  | [] => if decide (length lpl = O) then Some [] else None
  | len :: lens' =>
      lemmas ← mapM (predict_word lp lpl senses) (seq 0 len);
      rest ← predict_sentences lens' (drop len lp) (drop len lpl) (drop len senses);
      Some (lemmas :: rest)
  end.

Definition predict_batch (b : batch) : option (list (list string) * list (list string)) :=
  tags ← Tags.decode tag_words (tp b);
  lemmas ← predict_sentences (sentence_lens b) (lp b) (lpl b) (senses b);
  Some (lemmas, tags).

(** [predict]: the batches of the dataset in turn; returns [(lemmas, tags)]. *)
Fixpoint predict (batches : list batch) : option (list (list string) * list (list string)) :=
  match batches with
  | [] => Some ([], [])
  | b :: rest =>
      '(lemmas, tags) ← predict_batch b;
      '(lemmas', tags') ← predict rest;
      Some (lemmas ++ lemmas', tags ++ tags')
  end.

(** The lemma string of word [k] of a batch, as a relation: the entries of
    the alphabet at the first [lpl[k] - 1] ids of row [k] of [lp], joined,
    and, when the sense is separate, positive, and names a word that is
    neither empty nor the padding word, followed by a dash and that word. *)
Definition word_lemma (lp : list (list Z)) (lpl senses : list Z) (k : nat)
    (lemma : string) : Prop :=
  ∃ len chars suffix,
    lpl !! k = Some len
    ∧ Forall2 (λ j ch, ∃ row c, lp !! k = Some row ∧ row !! j = Some c
                                ∧ py_index alphabet c = Some ch)
        (seq 0 (Z.to_nat (len - 1))) chars
    ∧ lemma = (join chars +:+ suffix)%string
    ∧ if builtin_sense then suffix = EmptyString
      else ∃ sense, senses !! k = Some sense
             ∧ if decide (0 < sense)
               then ∃ sword, py_index sense_words sense = Some sword
                      ∧ suffix = if decide (sword ≠ EmptyString ∧ sword ≠ "<pad>"%string)
                                 then ("-" +:+ sword)%string else EmptyString
               else suffix = EmptyString.

(** The result of [predict] on one batch, as a relation: [lpl] has one
    entry per word form of the batch; [lemmas] has one list per sentence
    with one lemma string per word form; [tags] has one list per row of
    [tp] with one tag word per tag of the row. *)
Definition batch_result (b : batch) (lemmas tags : list (list string)) : Prop :=
  length (lpl b) = sum_list (sentence_lens b)
  ∧ Forall2 (λ ls len, length ls = len) lemmas (sentence_lens b)
  ∧ (∀ s i ls lemma, lemmas !! s = Some ls → ls !! i = Some lemma →
       word_lemma (lp b) (lpl b) (senses b)
         (sum_list (take s (sentence_lens b)) + i) lemma)
  ∧ Forall2 (Forall2 (λ t tag, ∃ tag0, head tag = Some tag0
                                        ∧ py_index tag_words tag0 = Some t))
      tags (tp b).

End predict.

(** The shape that the graph gives the tag predictions of a batch:
    [self.predictions] has a row per sentence, and every row is as wide as
    the word-id matrix fed for the batch, which holds every sentence. *)
Definition padded (b : batch) (width : nat) : Prop :=
  Forall2 (λ (row : list (list Z)) (len : nat),
             length row = width ∧ (len ≤ width)%nat)
    (tp b) (sentence_lens b).

(** The reading of "one tag string per word form of each sentence". *)
Definition one_tag_per_word_form (b : batch) (tags : list (list string)) : Prop :=
  Forall2 (λ ts len, length ts = len) tags (sentence_lens b).

End Predict.

(** ** The data flow of the graph built by [Network.construct] *)

Module Graph.

(** The flags of [args] that decide the shape of the graph. *)
Record args : Type := Args {
  separate_embed : bool;
  separate_rnn : bool;
  tags_to_lemmas : bool;
  builtin_sense : bool;
  rnn_layers : nat
}.

(** The defaults of the argument parser. *)
Definition default_args : args := Args false false false false 2.

(** [main]: [if args.separate_embed: args.separate_rnn = True]. *)
Definition parse_args (a : args) : args :=
  if separate_embed a
  then Args true true (tags_to_lemmas a) (builtin_sense a) (rnn_layers a)
  else a.

(** Variable scopes: ["common"], ["lemmas"], ["tags"]. *)
Inductive scope : Type := Common | LemmasScope | TagsScope.

(** The trainable variables and the tensors of the graph. *)
Inductive node : Type :=
  | Feeds                         (* the placeholders *)
  (* variables *)
  | WordEmbeddings (s : scope)    (* word_embeddings_{name} *)
  | CharEmbedVars (s : scope)     (* char_embed_{name}: embeddings and GRU cells *)
  | WordRnnVars (s : scope)       (* word-level-rnn-{name} *)
  | TagOutputLayers               (* the dense output layer of every head *)
  | TagFeaturesDense              (* the dense layer of the tag encoder *)
  | TcharEmb
  | DecoderLayer
  | DecoderCell
  | Attention
  | SenseLayer
  (* tensors *)
  | EmbedWords (s : scope)
  | EmbedCharacters (s : scope)
  | RnnInputsLemmas
  | RnnInputsTags
  | WordCleOutputs
  | WordCleStates
  | SentenceRnnOutputsTags
  | SentenceRnnOutputsLemma
  | WordRnnOutputs
  | TagOutputs                    (* self.tag_outputs *)
  | Predictions
  | LossTag
  | TagFeaturesStopped            (* tf.stop_gradient(tag_features) *)
  | TagFeaturesEncoded            (* dense, dropout, gather_nd, signal dropout *)
  | TagFeatures                   (* what the lemmatizer is given *)
  | TrainLogits
  | LossLem
  | SenseLogits
  | LossSense
  | Loss.

#[global] Instance scope_eq_dec : EqDecision scope.
Proof. solve_decision. Defined.

#[global] Instance node_eq_dec : EqDecision node.
Proof. solve_decision. Defined.

Definition is_variable (n : node) : bool :=
  match n with
  | WordEmbeddings _ | CharEmbedVars _ | WordRnnVars _ | TagOutputLayers
  | TagFeaturesDense | TcharEmb | DecoderLayer | DecoderCell | Attention
  | SenseLayer => true
  | _ => false
  end.

(** [compute_rnn(name, inputs)]: the inputs, and the cells of the scope when
    there is a layer. *)
Definition compute_rnn (a : args) (name : scope) (inputs : node) : list node :=
  match rnn_layers a with
  | O => [inputs]
  | S _ => [inputs; WordRnnVars name]
  end.

(** The tensors and variables a node is computed from. *)
Definition inputs (a : args) (n : node) : list node :=
  match n with
  | EmbedWords s => [WordEmbeddings s; Feeds]
  | EmbedCharacters s => [CharEmbedVars s; Feeds]
  | RnnInputsLemmas =>
      if separate_embed a
      then [EmbedCharacters LemmasScope; EmbedWords LemmasScope]
      else [EmbedCharacters Common; EmbedWords Common]
  | RnnInputsTags =>
      if separate_embed a
      then [EmbedWords TagsScope; EmbedCharacters TagsScope]
      else [RnnInputsLemmas]
  | WordCleOutputs | WordCleStates =>
      if separate_embed a
      then [EmbedCharacters LemmasScope; Feeds]
      else [EmbedCharacters Common; Feeds]
  | SentenceRnnOutputsTags =>
      compute_rnn a (if separate_rnn a then TagsScope else Common) RnnInputsTags
  | SentenceRnnOutputsLemma =>
      if separate_rnn a then compute_rnn a LemmasScope RnnInputsLemmas else []
  | WordRnnOutputs =>
      if separate_rnn a then [SentenceRnnOutputsLemma; Feeds]
      else [SentenceRnnOutputsTags; Feeds]
  | TagOutputs => [SentenceRnnOutputsTags; TagOutputLayers]
  | Predictions => [TagOutputs]
  | LossTag => [TagOutputs; Feeds]
  | TagFeaturesStopped => [TagOutputs]
  | TagFeaturesEncoded => [TagFeaturesStopped; TagFeaturesDense; Feeds]
  | TagFeatures => if tags_to_lemmas a then [TagFeaturesEncoded] else [Feeds]
  | TrainLogits =>
      [TcharEmb; Feeds; DecoderLayer; DecoderCell; WordRnnOutputs; TagFeatures;
       WordCleStates; Attention; WordCleOutputs]
  | LossLem => [TrainLogits; Feeds]
  | SenseLogits => [WordRnnOutputs; TagFeatures; SenseLayer]
  | LossSense => if builtin_sense a then [] else [SenseLogits; Feeds]
  | Loss => [LossTag; LossLem; LossSense]
  | _ => []
  end.

(** The inputs a gradient is propagated to: none through
    [tf.stop_gradient], none through the arg-max. *)
Definition gradient_inputs (a : args) (n : node) : list node :=
  match n with
  | TagFeaturesStopped | Predictions => []
  | _ => inputs a n
  end.

(** The nodes reachable from a work list along the edges. *)
Fixpoint reach (edges : node → list node) (fuel : nat)
    (work visited : list node) : list node :=
  match fuel with
  | O => visited
  | S fuel =>
      match work with
      | [] => visited
      | n :: work =>
          if bool_decide (n ∈ visited) then reach edges fuel work visited
          else reach edges fuel (edges n ++ work) (n :: visited)
      end
  end.

Definition closed (edges : node → list node) (visited : list node) : bool :=
  forallb (λ x, forallb (λ y, bool_decide (y ∈ visited)) (edges x)) visited.

Definition depends_on (a : args) (n src : node) : bool :=
  bool_decide (src ∈ reach (inputs a) 400 [n] []).

Definition gradient_reaches (a : args) (n src : node) : bool :=
  bool_decide (src ∈ reach (gradient_inputs a) 400 [n] []).

(** [n] is computed from [src]: there is a path of inputs from [n] to [src]. *)
Definition computed_from (a : args) (n src : node) : Prop :=
  rtc (λ x y, y ∈ inputs a x) n src.

(** A gradient of [n] flows to [src]: there is such a path along which
    gradients are propagated. *)
Definition gradient_flows (a : args) (n src : node) : Prop :=
  rtc (λ x y, y ∈ gradient_inputs a x) n src.

(** A parameter of the tagger: a variable the tag outputs are computed from. *)
Definition tagger_parameter (a : args) (p : node) : Prop :=
  is_variable p = true ∧ computed_from a TagOutputs p.

(** The reading of the claim on the tag-to-lemma bridge: the lemma loss is
    computed from the tag outputs, no gradient flows from the bridge to a
    parameter of the tagger, and no parameter of the tagger gets a gradient
    from the lemma loss or from the sense loss. *)
Definition only_tag_loss_trains_tagger (a : args) : Prop :=
  computed_from a LossLem TagOutputs
  ∧ (∀ p, tagger_parameter a p → ¬ gradient_flows a TagFeatures p)
  ∧ ∀ p, tagger_parameter a p →
      ¬ gradient_flows a LossLem p ∧ ¬ gradient_flows a LossSense p.

End Graph.

(** ** AddInputsWrapper and the cell of the lemma decoder *)

Module Cells.

(** [tf.concat([x, y], axis=-1)] of two batches of vectors: an error when
    they do not have the same number of rows. *)
Definition concat_last (x y : list (list Q)) : option (list (list Q)) :=
  if decide (length x = length y) then Some (zip_with app x y) else None.

(** [AddInputsWrapper(cell, extra_input).__call__(inputs, state)] *)
Definition AddInputsWrapper {State Output : Type}
    (cell : list (list Q) → State → option (Output * State))
    (extra_input : list (list Q))
  : list (list Q) → State → option (Output * State) :=
  λ inputs state,
    inputs_exp ← concat_last inputs extra_input;
    cell inputs_exp state.

(** [tf.contrib.seq2seq.tile_batch(x, multiplier)]: every row repeated. *)
Definition tile_batch {A : Type} (x : list A) (multiplier : nat) : list A :=
  x ≫= replicate multiplier.

(** [btile] of [create_attn_cell]: [tile_batch(x, beams) if beams else x]. *)
Definition btile {A : Type} (beams : option nat) (x : list A) : list A :=
  match beams with
  | Some (S k) => tile_batch x (S k)
  | _ => x
  end.

(** The rows of the decoder batch per word: [beams], or 1 without beams. *)
Definition multiplier (beams : option nat) : nat :=
  match beams with
  | Some (S k) => S k
  | _ => 1%nat
  end.

(** [tf.contrib.seq2seq.AttentionWrapper(cell, att, output_attention=False)],
    by its documentation: the cell is called on the inputs with the
    attention of the previous step appended (the default [cell_input_fn]
    concatenates the two); the attention mechanism, a parameter here,
    computes the next attention from the output of the cell; the output is
    that of the cell.  The state holds the state of the cell and the
    attention. *)
Definition AttentionWrapper {State Output : Type}
    (cell : list (list Q) → State → option (Output * State))
    (attention_mechanism : Output → list (list Q))
  : list (list Q) → State * list (list Q)
    → option (Output * (State * list (list Q))) :=
  λ inputs state,
    cell_inputs ← concat_last inputs state.2;
    '(cell_output, next_cell_state) ← cell cell_inputs state.1;
    Some (cell_output, (next_cell_state, attention_mechanism cell_output)).

(** [create_attn_cell(beams)]: the base cell with the three wrappers around
    it, and the attention wrapper around these; [att] is the attention
    mechanism over the (tiled) character-level outputs. *)
Definition create_attn_cell {State Output : Type}
    (base_cell : list (list Q) → State → option (Output * State))
    (beams : option nat)
    (word_rnn_outputs tag_features word_cle_states : list (list Q))
    (att : Output → list (list Q))
  : list (list Q) → State * list (list Q)
    → option (Output * (State * list (list Q))) :=
  let cell := base_cell in
  let cell := AddInputsWrapper cell (btile beams word_rnn_outputs) in
  let cell := AddInputsWrapper cell (btile beams tag_features) in
  let cell := AddInputsWrapper cell (btile beams word_cle_states) in
  AttentionWrapper cell att.

End Cells.

(** ** The heads of the tag encoders *)

Module TagHeads.
Import Py Tags.

(** [WholeTags.num_tags], [WholeTags.accuracy_mask], [WholeTags.encode]
    ([np.expand_dims(tag_ids, -1)]). *)
Definition whole_num_tags (words : list string) : list (nat * Q) :=
  [(length words, 1%Q)].

Definition whole_accuracy_mask : list bool := [true].

Definition whole_encode (tag_ids : list (list Z)) : list (list (list Z)) :=
  map (map (λ tag_id, [tag_id])) tag_ids.

(** [CharTags.num_tags]: the classes and the loss weight of every head,
    the whole tag first, then one head per tag position. *)
Definition num_tags (ct : chartags)
    (regularization_weight_compositional regularization_weight_whole : Q)
  : list (nat * Q) :=
  (length (train_words ct), regularization_weight_whole)
    :: map (λ alphabet, (length alphabet, regularization_weight_compositional))
         (alphabets ct).

(** [CharTags.accuracy_mask]: [[True] + [False] * taglen]. *)
Definition accuracy_mask (ct : chartags) : list bool :=
  true :: replicate (taglen ct) false.

(** The alphabet maps are the inverses of the alphabets: at every tag
    position, a character has code [c] exactly when it stands at index [c]
    of the alphabet of the position, which starts with ["<unk>"]. *)
Definition maps_inverse (maps : list (gmap string Z)) (alphs : list (list string))
  : Prop :=
  length maps = length alphs
  ∧ ∀ i m a, maps !! i = Some m → alphs !! i = Some a →
      a !! O = Some "<unk>"%string
      ∧ ∀ ch c, m !! ch = Some c ↔ (0 ≤ c ∧ a !! Z.to_nat c = Some ch).

(** The alphabets only grow: every alphabet is a prefix of the later one. *)
Definition extends (alphs alphs' : list (list string)) : Prop :=
  length alphs' = length alphs
  ∧ ∀ k a, alphs !! k = Some a → ∃ a', alphs' !! k = Some a' ∧ a `prefix_of` a'.

(** [codes] spell the characters [chs] of a tag from position [i] on. *)
Definition spells (alphs : list (list string)) (i : nat) (chs : list string)
    (codes : list Z) : Prop :=
  length codes = length chs
  ∧ ∀ j ch, chs !! j = Some ch →
      ∃ c a, codes !! j = Some c ∧ alphs !! (i + j)%nat = Some a
             ∧ 0 ≤ c ∧ a !! Z.to_nat c = Some ch.

(** The state of [__init__] after the first [processed] training tags:
    the cached ids are those of the tags of [taglen] characters seen so
    far, and the entry of a tag is its id followed by codes that spell it. *)
Definition init_state (words : list string) (processed : nat) (ct : chartags)
  : Prop :=
  train_words ct = words
  ∧ length (alphabets ct) = taglen ct
  ∧ maps_inverse (alphabet_maps ct) (alphabets ct)
  ∧ (∀ tag_id entry, cache ct !! tag_id = Some entry →
       ∃ tag codes,
         0 ≤ tag_id < Z.of_nat processed
         ∧ words !! Z.to_nat tag_id = Some tag
         ∧ String.length tag = taglen ct
         ∧ entry = tag_id :: codes
         ∧ spells (alphabets ct) O (chars tag) codes)
  ∧ (∀ n tag, (n < processed)%nat → words !! n = Some tag →
       String.length tag = taglen ct → is_Some (cache ct !! Z.of_nat n)).

End TagHeads.

(** ** The training loop of [main] and [train_epoch] *)

Module Main.

(** The learning rate of epoch [ep]: [learning_rate], and from epoch
    [drop_rate_after] on (when that is not 0)
    [learning_rate * 0.25 ** (1 + ((ep - drop_rate_after) // 10))]. *)
Definition rate (learning_rate : Q) (drop_rate_after : Z) (ep : nat) : Q :=
  if negb (drop_rate_after =? 0) && (drop_rate_after <=? Z.of_nat ep)
  then (learning_rate * (1 # 4) ^ (1 + (Z.of_nat ep - drop_rate_after) / 10))%Q
  else learning_rate.

(** [max(dev_best, score)] *)
Definition py_max (dev_best score : Q) : Q :=
  if Qlt_le_dec dev_best score then score else dev_best.

(** One epoch of the loop of [main], for the dev score
    [dev_acc_tag + dev_acc_lemsense] of the epoch: the epochs at which the
    predictions are written, and [dev_best]. *)
Definition epoch_step (epochs : nat) (st : list nat * Q) (ep : nat) (score : Q)
  : list nat * Q :=
  let '(written, dev_best) := st in
  (if Qlt_le_dec dev_best score then written ++ [ep]
   else if (ep =? epochs - 1)%nat then written ++ [ep]
   else written,
   py_max dev_best score).

Fixpoint epochs_from (epochs : nat) (st : list nat * Q) (ep : nat) (scores : list Q)
  : list nat * Q :=
  match scores with
  | [] => st
  | score :: rest => epochs_from epochs (epoch_step epochs st ep score) (S ep) rest
  end.

(** The loop over [range(args.epochs)], one dev score per epoch. *)
Definition train_loop (scores : list Q) : list nat * Q :=
  epochs_from (length scores) ([], 0%Q) O scores.

(** The best score of a list of epochs, 0 to start with. *)
Definition best_of (scores : list Q) : Q := fold_left py_max scores 0%Q.

(** The lines printed for a dataset: for every sentence, a line
    [form TAB lemma TAB tag] per word form and an empty line. *)
Definition tab : string := String (Ascii.ascii_of_nat 9) EmptyString.

(** ["{}\t{}\t{}".format(form, lemma, tag)] *)
Definition line (form lemma tag : string) : string :=
  (form +:+ tab +:+ lemma +:+ tab +:+ tag)%string.

(** The inner loop for sentence [s]: a line per word form.  The rows of
    [lemmas] and [tags] are indexed inside the loop, once per word form, so
    a sentence without word forms indexes neither. *)
Definition write_sentence (f : list string) (lemmas tags : list (list string))
    (s : nat) : option (list string) :=
  lines ← mapM (λ i,
             form ← f !! i;
             lemma ← lemmas !! s ≫= (.!! i);
             tag ← tags !! s ≫= (.!! i);
             Some (line form lemma tag))
           (seq 0 (length f));
  Some (lines ++ [EmptyString]).

Definition write_predictions (forms lemmas tags : list (list string))
  : option (list string) :=
  sentences ← mapM (λ s, f ← forms !! s; write_sentence f lemmas tags s)
                (seq 0 (length forms));
  Some (concat sentences).

(** The lines of a sentence and of a dataset in closed form, word forms,
    lemmas and tags taken side by side (a missing row counts as an empty
    one); and when the rows of [lemmas] and [tags] reach as far as the
    word forms. *)
Definition sentence_lines (forms lemmas tags : list string) : list string :=
  zip_with (λ form p, line form p.1 p.2) forms (zip lemmas tags) ++ [EmptyString].

Fixpoint dataset_lines_from (s : nat) (forms lemmas tags : list (list string))
  : list string :=
  match forms with
  | [] => []
  | f :: rest =>
      sentence_lines f (default [] (lemmas !! s)) (default [] (tags !! s))
      ++ dataset_lines_from (S s) rest lemmas tags
  end.

Definition dataset_lines (forms lemmas tags : list (list string)) : list string :=
  dataset_lines_from O forms lemmas tags.

Definition covers (forms lemmas tags : list (list string)) : Prop :=
  ∀ s f, forms !! s = Some f →
    (length f ≤ length (default [] (lemmas !! s)))%nat
    ∧ (length f ≤ length (default [] (tags !! s)))%nat.

(** Word dropout of [train_epoch]:
    [(1 - mask) * word_ids + mask * unk], cell by cell. *)
Definition word_dropout (mask word_ids : list (list Z)) (unk : Z) : list (list Z) :=
  zip_with (zip_with (λ m w, (1 - m) * w + m * unk)) mask word_ids.

End Main.

(** ** The weights and the accuracies of [Network.construct] *)

Module Stats.
Import Tensor.

(** [tf.sequence_mask(lengths, maxlen)], by its documentation: one row per
    length, of [maxlen] cells, cell [j] of row [i] true when
    [j < lengths[i]]; [maxlen] is by default the greatest length, and at
    least 0. *)
Definition mask_row (maxlen : nat) (len : Z) : list bool :=
  map (λ j, bool_decide (Z.of_nat j < len)) (seq 0 maxlen).

Definition sequence_mask (lengths : list Z) (maxlen : option nat) : list (list bool) :=
  map (mask_row (default (Z.to_nat (fold_right Z.max 0 lengths)) maxlen)) lengths.

(** [tf.cast(_, tf.float32)] of a truth value.  The sums of such values
    are taken in the integers: the rounding of [float32] is left out. *)
Definition cast (b : bool) : Z := if b then 1 else 0.

Definition reduce_sum (v : list Z) : Z := fold_right Z.add 0 v.

Definition reduce_sum2 (x : list (list Z)) : Z := reduce_sum (map reduce_sum x).

(** [self.words_count = tf.reduce_sum(self.sentence_lens)], in [int32]. *)
Definition words_count (sentence_lens : list Z) : Z := wrap32 (reduce_sum sentence_lens).

(** [weights = tf.sequence_mask(self.sentence_lens, dtype=tf.float32)] and
    [sum_weights = tf.reduce_sum(weights)]. *)
Definition weights (sentence_lens : list Z) : list (list Z) :=
  map (map cast) (sequence_mask sentence_lens None).

Definition sum_weights (sentence_lens : list Z) : Z := reduce_sum2 (weights sentence_lens).

(** For the heads of one word:
    [tf.reduce_all(tf.logical_or(tf.equal(tags, predictions),
    tf.logical_not(accuracy_mask)), axis=2)]. *)
Definition tag_correct (accuracy_mask : list bool) (tags predictions : list Z) : bool :=
  forallb (λ b : bool, b)
    (zip_with orb (zip_with Z.eqb tags predictions) (map negb accuracy_mask)).

(** [tf.reduce_all(tf.equal(tags, predictions), axis=2)] *)
Definition tags_equal (tags predictions : list Z) : bool :=
  forallb (λ b : bool, b) (zip_with Z.eqb tags predictions).

(** [tf.reduce_sum(tf.cast(correct, tf.float32) * weights)]: the words
    counted as correct. *)
Definition correct_count (correct : list (list bool)) (sentence_lens : list Z) : Z :=
  reduce_sum2 (zip_with (zip_with (λ c w, cast c * w)) correct (weights sentence_lens)).

(** [correct_tag] and [correct_tags_compositional] of [compute_tags]: the
    counts over [sum_weights].  (With no word in the batch the division is
    one of 0 by 0; the statements below are for batches with a word.) *)
Definition correct_tag (accuracy_mask : list bool)
    (tags predictions : list (list (list Z))) (sentence_lens : list Z) : Q :=
  (inject_Z (correct_count (zip_with (zip_with (tag_correct accuracy_mask))
                              tags predictions) sentence_lens)
   / inject_Z (sum_weights sentence_lens))%Q.

Definition correct_tags_compositional
    (tags predictions : list (list (list Z))) (sentence_lens : list Z) : Q :=
  (inject_Z (correct_count (zip_with (zip_with tags_equal) tags predictions)
               sentence_lens)
   / inject_Z (sum_weights sentence_lens))%Q.

(** [correct_lem] of [compute_lemma_stats] for one word: the lengths are
    equal, and over the first [minimum_length] cells the prediction equals
    the target wherever the mask of the target length is set. *)
Definition correct_lem_row (prediction target : list Z)
    (prediction_length target_len : Z) (minimum_length : nat) : bool :=
  (prediction_length =? target_len)
  && forallb (λ b : bool, b)
       (zip_with orb
          (zip_with Z.eqb (take minimum_length prediction) (take minimum_length target))
          (map negb (mask_row minimum_length target_len))).

Definition correct_lem (lemma_predictions target_seqs : tensor2)
    (lemma_prediction_lengths target_lens : list Z) : list bool :=
  let minimum_length := Nat.min (dim1 lemma_predictions) (dim1 target_seqs) in
  zip_with (λ pt ll, correct_lem_row pt.1 pt.2 ll.1 ll.2 minimum_length)
    (zip (cells lemma_predictions) (cells target_seqs))
    (zip lemma_prediction_lengths target_lens).

End Stats.

(** ** The signal dropout of the tag features *)

Module Bridge.

(** [tf.layers.dropout(x, rate, noise_shape=[words_count, 1], training)],
    by its documentation: outside training the input; in training a row
    (the features of a word) is kept as a whole, scaled by
    [1 / (1 - rate)], or set to zero.  [keep] holds the random draw of
    every row.  The values are rationals: the rounding of [float32] is
    left out. *)
Definition dropout (rate : Q) (training : bool) (keep : list bool)
    (x : list (list Q)) : list (list Q) :=
  if training
  then zip_with (λ (k : bool) row, map (λ v, if k then v / (1 - rate) else 0)%Q row)
         keep x
  else x.

(** [if args.tag_signal_dropout: tag_features = dropout(...) *
    (1 - tf.cast(self.is_training, tf.float32) * args.tag_signal_dropout)] *)
Definition tag_signal_dropout (rate : Q) (training : bool) (keep : list bool)
    (tag_features : list (list Q)) : list (list Q) :=
  if Qeq_bool rate 0 then tag_features
  else map (map (λ v, v * (1 - (if training then 1 else 0) * rate))%Q)
         (dropout rate training keep tag_features).

End Bridge.

(** * Properties *)

(** ** find_first *)

Section find_first_facts.
Import Tensor FindFirst.

Lemma wrap32_small z : - 2 ^ 31 ≤ z < 2 ^ 31 → wrap32 z = z.
Proof. intros Hz. unfold wrap32. rewrite Z.mod_small; lia. Qed.

Lemma first_occ_le v l : (first_occ v l ≤ length l)%nat.
Proof. induction l as [|x l IH]; simpl; [lia|]. destruct (v =? x); lia. Qed.

Lemma first_occ_hit v l :
  (first_occ v l < length l)%nat → l !! first_occ v l = Some v.
Proof.
  induction l as [|x l IH]; simpl; [lia|].
  destruct (Z.eqb_spec v x) as [->|Hne]; [done|].
  intros Hlt. apply IH. lia.
Qed.

Lemma first_occ_before v l i x :
  (i < first_occ v l)%nat → l !! i = Some x → x ≠ v.
Proof.
  revert i. induction l as [|y l IH]; intros i; simpl; [lia|].
  destruct (Z.eqb_spec v y) as [->|Hne]; [lia|].
  destruct i as [|i]; simpl.
  - intros _ [= ->]. congruence.
  - intros Hlt. apply IH. lia.
Qed.

Lemma last_tf_scan {A B} (fn : A → B → A) elems a :
  elems ≠ [] → last (tf_scan fn elems a) = Some (fold_left fn elems a).
Proof.
  revert a. induction elems as [|e es IH]; intros a Hne; [done|].
  destruct es as [|e' es]; [done|].
  change (tf_scan fn (e :: e' :: es) a)
    with (fn a e :: tf_scan fn (e' :: es) (fn a e)).
  change (fold_left fn (e :: e' :: es) a)
    with (fold_left fn (e' :: es) (fn a e)).
  rewrite <- (IH (fn a e)) by done. done.
Qed.

Lemma step_cell val vlen ix c :
  0 ≤ ix ≤ vlen → vlen < 2 ^ 31 →
  wrap32 (wrap32 (ix * (if val =? c then 1 else 0))
          + wrap32 (vlen * wrap32 (1 - (if val =? c then 1 else 0))))
  = if val =? c then ix else vlen.
Proof.
  intros Hix Hv. destruct (val =? c).
  - rewrite Z.mul_1_r, (wrap32_small (1 - 1)), Z.mul_0_r by lia.
    rewrite (wrap32_small ix), (wrap32_small 0) by lia.
    rewrite Z.add_0_r. apply wrap32_small. lia.
  - rewrite Z.mul_0_r, (wrap32_small (1 - 0)), Z.mul_1_r by lia.
    rewrite (wrap32_small 0), (wrap32_small vlen) by lia.
    apply wrap32_small. lia.
Qed.

Lemma step_lookup val vlen ix poss row c p x :
  0 ≤ ix ≤ vlen → vlen < 2 ^ 31 →
  poss !! c = Some p → row !! c = Some x →
  (step val vlen (ix, poss) row).2 !! c
  = Some (Z.min p (if val =? x then ix else vlen)).
Proof.
  intros Hix Hv Hp Hx. unfold step, eqs. simpl.
  rewrite lookup_zip_with, Hp. simpl.
  rewrite !list_lookup_fmap, Hx. simpl.
  by rewrite step_cell.
Qed.

Lemma step_length val vlen ix poss row :
  length row = length poss →
  length (step val vlen (ix, poss) row).2 = length poss.
Proof.
  intros Hl. unfold step, eqs. simpl.
  rewrite length_zip_with, !length_map. lia.
Qed.

Lemma fold_step val vlen rows : ∀ ix poss,
  0 ≤ ix → ix + Z.of_nat (length rows) ≤ vlen → vlen < 2 ^ 31 →
  Forall (λ r, length r = length poss) rows →
  Forall (λ p, p ≤ vlen) poss →
  ∃ poss',
    fold_left (step val vlen) rows (ix, poss)
      = (ix + Z.of_nat (length rows), poss')
    ∧ length poss' = length poss
    ∧ ∀ c p, poss !! c = Some p →
        poss' !! c
        = Some (Z.min p (seen vlen ix (first_occ val (column c rows)) (length rows))).
Proof.
  induction rows as [|row rows IH]; intros ix poss Hix Hle Hv Hrows Hposs.
  - exists poss. simpl. rewrite Z.add_0_r. split; [done|]. split; [done|].
    intros c p Hp. unfold seen. simpl.
    rewrite Hp. f_equal.
    pose proof (proj1 (Forall_lookup _ _) Hposs c p Hp) as Hpv. simpl in Hpv. lia.
  - apply Forall_cons in Hrows as [Hrow Hrows].
    simpl length in Hle.
    destruct (step val vlen (ix, poss) row) as [ix1 poss1] eqn:Hstep.
    assert (ix1 = ix + 1) as ->.
    { unfold step in Hstep. injection Hstep as <- _. apply wrap32_small. lia. }
    assert (length poss1 = length poss) as Hlen1.
    { pose proof (step_length val vlen ix poss row Hrow) as H.
      by rewrite Hstep in H. }
    assert (Forall (λ p, p ≤ vlen) poss1) as Hposs1.
    { apply Forall_lookup. intros c q Hq.
      destruct (lookup_lt_is_Some_2 poss c) as [p Hp].
      { rewrite <- Hlen1. by eapply lookup_lt_Some. }
      destruct (lookup_lt_is_Some_2 row c) as [x Hx].
      { rewrite Hrow. by eapply lookup_lt_Some. }
      pose proof (step_lookup val vlen ix poss row c p x) as H1.
      rewrite Hstep in H1. simpl in H1.
      rewrite (H1 ltac:(lia) Hv Hp Hx) in Hq. injection Hq as <-.
      pose proof (proj1 (Forall_lookup _ _) Hposs c p Hp) as Hpv. simpl in Hpv.
      lia. }
    destruct (IH (ix + 1) poss1) as (poss' & Hfold & Hlen & Hcells);
      [lia | lia | done | by rewrite Hlen1 | done |].
    exists poss'. cbn [fold_left]. rewrite Hstep, Hfold.
    split; [f_equal; simpl length; lia|]. split; [lia|].
    intros c p Hp.
    destruct (lookup_lt_is_Some_2 row c) as [x Hx].
    { rewrite Hrow. by eapply lookup_lt_Some. }
    pose proof (step_lookup val vlen ix poss row c p x) as H1.
    rewrite Hstep in H1. simpl in H1.
    rewrite (Hcells c _ (H1 ltac:(lia) Hv Hp Hx)). f_equal.
    pose proof (first_occ_le val (column c rows)) as Hk.
    unfold column in Hk. rewrite length_map in Hk.
    unfold seen, column. simpl.
    rewrite (nth_lookup_Some _ _ _ _ Hx).
    destruct (val =? x); simpl.
    + destruct (Nat.ltb_spec (first_occ val (map (λ r, nth c r 0) rows)) (length rows)); lia.
    + destruct (Nat.ltb_spec (first_occ val (map (λ r, nth c r 0) rows)) (length rows));
        destruct (Nat.ltb_spec (S (first_occ val (map (λ r, nth c r 0) rows))) (S (length rows)));
        lia.
Qed.

Lemma first_occ_absent v l : first_occ v l = length l ↔ v ∉ l.
Proof.
  induction l as [|x l IH]; simpl.
  - split; [intros _; apply not_elem_of_nil|done].
  - destruct (Z.eqb_spec v x) as [->|Hne].
    + split; [done|]. intros Hn. exfalso. apply Hn. by left.
    + rewrite not_elem_of_cons. split.
      * intros [= H]. split; [done|]. by apply IH.
      * intros [_ H]. f_equal. by apply IH.
Qed.

Lemma take_first_occ_clean v l : v ∉ take (first_occ v l) l.
Proof.
  induction l as [|x l IH]; simpl; [apply not_elem_of_nil|].
  destruct (Z.eqb_spec v x) as [->|Hne]; simpl; [apply not_elem_of_nil|].
  rewrite not_elem_of_cons. done.
Qed.

Lemma first_occ_first_or_len v l :
  first_or_len v l (Z.of_nat (first_occ v l)).
Proof.
  pose proof (first_occ_le v l). split; [lia|]. split.
  - intros i x Hi. apply first_occ_before. lia.
  - intros Hlt. rewrite Nat2Z.id. apply first_occ_hit. lia.
Qed.

Lemma length_column j rows : length (column j rows) = length rows.
Proof. apply length_map. Qed.

Lemma transpose_shaped t : shaped t → shaped (tf_transpose t).
Proof.
  intros [Hl Hr]. split; simpl.
  - by rewrite length_map, length_seq.
  - apply Forall_fmap, Forall_forall. intros j _. simpl.
    by rewrite length_column.
Qed.

Lemma column_transpose t c row :
  shaped t → cells t !! c = Some row →
  column c (cells (tf_transpose t)) = row.
Proof.
  intros [Hl Hr] Hrow. unfold column. simpl. rewrite map_map.
  pose proof (proj1 (Forall_lookup _ _) Hr c row Hrow) as Hn. simpl in Hn.
  rewrite <- Hn. apply list_eq. intros i.
  rewrite list_lookup_fmap.
  destruct (decide (i < length row)%nat) as [Hi|Hi].
  - rewrite lookup_seq_lt by done. simpl.
    destruct (lookup_lt_is_Some_2 row i Hi) as [x Hx]. rewrite Hx. f_equal.
    assert (column i (cells t) !! c = Some (nth i row 0)) as Hc.
    { unfold column. by rewrite list_lookup_fmap, Hrow. }
    rewrite (nth_lookup_Some _ _ _ _ Hc).
    by apply nth_lookup_Some.
  - rewrite lookup_seq_ge by lia. simpl. symmetry. apply lookup_ge_None. lia.
Qed.

(** The scan computes, for every row of the tensor it is given (every
    column after the transposition), the index of the first occurrence. *)
Lemma find_first_value t v :
  shaped t → (0 < dim1 t)%nat → Z.of_nat (dim1 t) < 2 ^ 31 →
  find_first t v true
  = Some (map (λ row, Z.of_nat (first_occ v row)) (cells t)).
Proof.
  intros Ht Hpos Hsmall. pose proof Ht as [Hl Hr].
  pose proof (transpose_shaped t Ht) as [Hl' Hr'].
  unfold find_first. cbn [dim0 dim1 tf_transpose] in *.
  set (rows := cells (tf_transpose t)) in *.
  assert (length rows = dim1 t) as Hrows by done.
  rewrite last_tf_scan by (intros E; rewrite E in Hrows; simpl in Hrows; lia).
  destruct (fold_step v (Z.of_nat (dim1 t)) rows 0 (replicate (dim0 t) (Z.of_nat (dim1 t))))
    as (poss' & Hfold & Hlen & Hcells).
  - lia.
  - lia.
  - done.
  - by rewrite length_replicate.
  - apply Forall_forall. intros p [-> _]%elem_of_replicate. lia.
  - rewrite Hfold. simpl. f_equal.
    rewrite length_replicate in Hlen.
    apply list_eq. intros c. rewrite list_lookup_fmap.
    destruct (cells t !! c) as [row|] eqn:Hrow; simpl.
    + assert (replicate (dim0 t) (Z.of_nat (dim1 t)) !! c = Some (Z.of_nat (dim1 t))) as Hp.
      { apply lookup_replicate_2. rewrite <- Hl. by eapply lookup_lt_Some. }
      rewrite (Hcells c _ Hp). f_equal.
      rewrite Hrows. unfold rows. rewrite (column_transpose t c row Ht Hrow).
      pose proof (first_occ_le v row) as Hk.
      pose proof (proj1 (Forall_lookup _ _) Hr c row Hrow) as Hn. simpl in Hn.
      unfold seen.
      destruct (Nat.ltb_spec (first_occ v row) (dim1 t)); lia.
    + apply lookup_ge_None. apply lookup_ge_None in Hrow. lia.
Qed.

(** With no row to scan, the final [[-1, :]] has nothing to select. *)
Lemma find_first_no_rows h v : find_first (Tensor2 h 0 (replicate h [])) v true = None.
Proof. done. Qed.

End find_first_facts.

(** C8. For a rank-2 integer tensor [t] that [find_first] transposes into [n]
  rows (at least one, and fewer than 2^31 - 1), and any value [v], the
  result has one entry per column of the transposed tensor; the entry of
  column [c] is the smallest row index at which [v] occurs in that column,
  or [n] when [v] does not occur in it.  The beam-search prediction lengths
  are one plus these entries. *)
Theorem find_first_first_occurrence (t : Tensor.tensor2) (v : Z) :
Tensor.shaped t → (0 < Tensor.dim1 t)%nat →
Z.of_nat (Tensor.dim1 t) < 2 ^ 31 - 1 →
∃ res : list Z,
  FindFirst.find_first t v true = Some res
  ∧ length res = Tensor.dim1 (Tensor.tf_transpose t)
  ∧ (∀ c : nat, (c < Tensor.dim1 (Tensor.tf_transpose t))%nat →
      ∃ k, res !! c = Some k
           ∧ length (Tensor.column c (Tensor.cells (Tensor.tf_transpose t)))
             = Tensor.dim1 t
           ∧ FindFirst.first_or_len v
               (Tensor.column c (Tensor.cells (Tensor.tf_transpose t))) k)
  ∧ FindFirst.beam_prediction_lengths t v = Some (map (λ k, 1 + k) res).
Proof.
intros Ht Hpos Hsmall. pose proof Ht as [Hl Hr].
exists (map (λ row, Z.of_nat (Tensor.first_occ v row)) (Tensor.cells t)).
assert (FindFirst.find_first t v true
        = Some (map (λ row, Z.of_nat (Tensor.first_occ v row)) (Tensor.cells t)))
  as Hff by (apply find_first_value; [done | done | lia]).
split; [done|]. split; [by rewrite length_map|]. split.
- intros c Hc.
  change (Tensor.dim1 (Tensor.tf_transpose t)) with (Tensor.dim0 t) in Hc.
  destruct (lookup_lt_is_Some_2 (Tensor.cells t) c) as [row Hrow]; [lia|].
  exists (Z.of_nat (Tensor.first_occ v row)).
  rewrite list_lookup_fmap, Hrow. split; [done|].
  rewrite (column_transpose t c row Ht Hrow).
  split; [|apply first_occ_first_or_len].
  by apply (proj1 (Forall_lookup _ _) Hr c row).
- unfold FindFirst.beam_prediction_lengths. rewrite Hff. simpl. f_equal.
  rewrite !map_map. apply map_ext_in. intros row Hin.
  apply list_elem_of_In in Hin.
  pose proof (proj1 (Forall_forall _ _) Hr row Hin) as Hn. simpl in Hn.
  pose proof (first_occ_le v row).
  apply wrap32_small. lia.
Qed.

Lemma find_first_first_occurrence_witness :
∃ res : list Z,
  FindFirst.find_first (Tensor.Tensor2 2 3 [[5; 7; 7]; [4; 4; 4]]) 7 true = Some res
  ∧ res = [1; 3].
Proof.
destruct (find_first_first_occurrence
            (Tensor.Tensor2 2 3 [[5; 7; 7]; [4; 4; 4]]) 7)
  as (res & Hres & _); [by vm_compute; repeat constructor | simpl; lia | simpl; lia |].
exists res. split; [done|].
vm_compute in Hres. congruence.
Defined.

(** ** Target sequences and teacher forcing *)

Section target_facts.
Import Tensor TF Lemmas.

Lemma mapM_zip_Some {A B C : Type} (f : A * B → option C) (g : A → B → C) la lb :
  Forall2 (λ a b, f (a, b) = Some (g a b)) la lb →
  mapM f (zip la lb) = Some (zip_with g la lb).
Proof.
  induction 1 as [|a b la lb Hab _ IH]; [done|].
  simpl. rewrite Hab. simpl. rewrite IH. done.
Qed.

Lemma reverse_row_Some row l :
  0 ≤ l ≤ Z.of_nat (length row) →
  reverse_row row l = Some (rev (take (Z.to_nat l) row) ++ drop (Z.to_nat l) row).
Proof.
  intros Hl. unfold reverse_row.
  destruct (Z.leb_spec 0 l); [|lia].
  destruct (Z.leb_spec l (Z.of_nat (length row))); [done|lia].
Qed.

(** Reversing the lemma, putting [eow] in front and reversing one cell
    more leaves the lemma in place and [eow] right after it. *)
Lemma reverse_pad_reverse eow row l :
  0 ≤ l ≤ Z.of_nat (length row) →
  reverse_row (eow :: rev (take (Z.to_nat l) row) ++ drop (Z.to_nat l) row) (l + 1)
  = Some (take (Z.to_nat l) row ++ eow :: drop (Z.to_nat l) row).
Proof.
  intros Hl.
  assert (length (take (Z.to_nat l) row) = Z.to_nat l) as Htake
    by (rewrite length_take; lia).
  rewrite reverse_row_Some.
  2:{ simpl. rewrite length_app, length_rev, length_drop, Htake. lia. }
  f_equal.
  replace (Z.to_nat (l + 1)) with (S (Z.to_nat l)) by lia.
  simpl.
  rewrite take_app_length' by (by rewrite length_rev).
  rewrite drop_app_length' by (by rewrite length_rev).
  rewrite rev_involutive, <- app_assoc. done.
Qed.

Lemma add_eow_closed eow lens seqs :
  Forall2 lemma_fits seqs lens →
  add_eow eow lens seqs
  = Some (map (λ l, l + 1) lens,
          zip_with (λ row l, take (Z.to_nat l) row ++ eow :: drop (Z.to_nat l) row)
            seqs lens).
Proof.
  intros Hfit. unfold add_eow, reverse_sequence.
  pose proof (Forall2_length _ _ _ Hfit) as Hlen.
  rewrite decide_True by done.
  rewrite (mapM_zip_Some _
    (λ row l, rev (take (Z.to_nat l) row) ++ drop (Z.to_nat l) row)).
  2:{ eapply Forall2_impl; [exact Hfit|].
      intros row l [Hl _]. by apply reverse_row_Some. }
  simpl.
  rewrite decide_True.
  2:{ unfold pad_front. rewrite !length_map, length_zip_with. lia. }
  assert (map (λ l, wrap32 (l + 1)) lens = map (λ l, l + 1) lens) as ->.
  { clear Hlen. induction Hfit as [|row l seqs lens [Hl Hs] _ IH]; [done|].
    simpl. rewrite IH, wrap32_small by lia. done. }
  clear Hlen. simpl.
  enough (mapM (λ '(row, len), reverse_row row len)
            (zip (pad_front eow
                    (zip_with (λ row l, rev (take (Z.to_nat l) row)
                                         ++ drop (Z.to_nat l) row) seqs lens))
                 (map (λ l, l + 1) lens))
          = Some (zip_with (λ row l, take (Z.to_nat l) row
                                      ++ eow :: drop (Z.to_nat l) row) seqs lens))
    as -> by done.
  induction Hfit as [|row l seqs lens [Hl Hs] _ IH]; [done|].
  simpl. rewrite reverse_pad_reverse by done. simpl.
  rewrite IH. done.
Qed.

Lemma all_finished (L : list Z) (t : Z) :
  - 2 ^ 31 ≤ t →
  forallb (λ b : bool, b) (map (λ l, l <=? t) L) = (reduce_max L <=? t).
Proof.
  intros Ht. induction L as [|l L IH]; simpl.
  - symmetry. apply Z.leb_le. lia.
  - rewrite IH. unfold reduce_max. simpl.
    destruct (Z.leb_spec l t), (Z.leb_spec (fold_right Z.max (- 2 ^ 31) L) t),
      (Z.leb_spec (l `max` fold_right Z.max (- 2 ^ 31) L) t); simpl; lia.
Qed.

Lemma finished_or (L : list Z) (t : nat) :
  zip_with orb (map (λ l, l <=? Z.of_nat (S t)) L) (map (λ l, l <=? Z.of_nat t) L)
  = map (λ l, l <=? Z.of_nat (S t)) L.
Proof.
  induction L as [|l L IH]; [done|]. simpl. rewrite IH. f_equal.
  destruct (Z.leb_spec l (Z.of_nat (S t))), (Z.leb_spec l (Z.of_nat t)); simpl; lia.
Qed.

(** The trace of a training decode: it runs for as many steps as the
    longest sequence and feeds column [t] of its inputs at step [t]. *)
Lemma training_trace {State Input Output : Type}
    (cell : Input → State → Output * State) inputs L s0 :
  ∀ fuel t s,
    let trace :=
      decode_loop (training_decoder cell inputs L s0) fuel t
        (map (λ l, l <=? Z.of_nat t) L) (inputs t) s in
    Z.of_nat (length trace)
      = Z.of_nat fuel `min` (0 `max` (reduce_max L - Z.of_nat t))
    ∧ ∀ i x, trace !! i = Some x → x.1.1 = inputs (t + i)%nat.
Proof.
  induction fuel as [|n IH]; intros t s; simpl.
  - split; [lia|]. intros i x. by rewrite lookup_nil.
  - rewrite all_finished by lia.
    destruct (Z.leb_spec (reduce_max L) (Z.of_nat t)) as [Hdone|Hmore].
    + split; [simpl; lia|]. intros i x. by rewrite lookup_nil.
    + destruct (cell (inputs t) s) as [out s'] eqn:Hcell.
      rewrite finished_or.
      destruct (IH (S t) s') as [Hlen Hin].
      split.
      * cbn [length]. rewrite Nat2Z.inj_succ, Hlen. lia.
      * intros [|i] x; simpl.
        -- intros [= <-]. simpl. by rewrite Nat.add_0_r.
        -- intros Hx. rewrite (Hin i x Hx). f_equal. lia.
Qed.

Lemma bow_input bow eow (row : list Z) (l : Z) (t : nat) :
  0 ≤ l ≤ Z.of_nat (length row) → Z.of_nat t ≤ l →
  let row' := take (Z.to_nat l) row ++ eow :: drop (Z.to_nat l) row in
  (bow :: row') !! t = match t with O => Some bow | S t' => row !! t' end
  ∧ (t < length (bow :: row') - 1)%nat.
Proof.
  intros Hl Ht row'.
  assert (length row' = S (length row)) as Hlen.
  { unfold row'. rewrite length_app, length_take. simpl. rewrite length_drop. lia. }
  split; [|simpl; lia].
  destruct t as [|t']; [done|]. simpl. unfold row'.
  rewrite lookup_app_l by (rewrite length_take; lia).
  apply lookup_take_lt. lia.
Qed.

Lemma train_inputs_lookup bow eow seqs lens t k l row :
  Forall2 lemma_fits seqs lens →
  lens !! k = Some l → seqs !! k = Some row → Z.of_nat t ≤ l →
  column t (target_seqs_bow bow
              (zip_with (λ row l, take (Z.to_nat l) row ++ eow :: drop (Z.to_nat l) row)
                 seqs lens)) !! k
  = match t with O => Some bow | S t' => row !! t' end.
Proof.
  intros Hfit Hl Hrow Ht.
  destruct (Forall2_lookup_lr _ _ _ _ _ _ Hfit Hrow Hl) as [Hfits _].
  destruct (bow_input bow eow row l t Hfits Ht) as [Hin Hlt].
  unfold column, target_seqs_bow, drop_last_column, pad_front.
  rewrite !list_lookup_fmap, lookup_zip_with, Hrow. simpl. rewrite Hl. simpl.
  rewrite <- Hin.
  set (r := bow :: take (Z.to_nat l) row ++ eow :: drop (Z.to_nat l) row) in *.
  destruct (lookup_lt_is_Some_2 r t) as [x Hx]; [lia|].
  rewrite Hx. f_equal. apply nth_lookup_Some.
  rewrite lookup_take_lt by done. done.
Qed.

End target_facts.

(** C3. Training is teacher-forced.  For every target lemma (of [l]
  characters, stored in a padded row), the loss target is the lemma with
  [eow] appended and its length is [l + 1]; the training decode runs for
  as many steps as the longest target, and, whatever the decoder cell
  computes or samples, the input it is fed for that lemma is [bow] at
  step 0 and the ground-truth character at position [t - 1] at every
  later step [t] of the lemma. *)
Theorem teacher_forced_training {State Output : Type}
  (train_cell : list Z → State → Output * State) (train_initial_state : State)
  (bow eow : Z) (lens : list Z) (seqs : list (list Z)) (fuel : Z) :
Forall2 Lemmas.lemma_fits seqs lens →
∃ target_lens target_seqs,
  Lemmas.add_eow eow lens seqs = Some (target_lens, target_seqs)
  ∧ (∀ k l row, lens !! k = Some l → seqs !! k = Some row →
       target_lens !! k = Some (l + 1)
       ∧ ∃ row', target_seqs !! k = Some row'
           ∧ take (Z.to_nat (l + 1)) row' = take (Z.to_nat l) row ++ [eow])
  ∧ (TF.reduce_max target_lens ≤ fuel →
     let trace :=
       TF.dynamic_decode
         (Lemmas.train_decoder train_cell train_initial_state bow target_lens target_seqs)
         fuel in
     Z.of_nat (length trace) = 0 `max` TF.reduce_max target_lens
     ∧ ∀ t inp out fin, trace !! t = Some (inp, out, fin) →
         ∀ k l row, lens !! k = Some l → seqs !! k = Some row → Z.of_nat t ≤ l →
           inp !! k = match t with O => Some bow | S t' => row !! t' end).
Proof.
intros Hfit. eexists _, _. split; [by apply add_eow_closed|]. split.
- intros k l row Hl Hrow.
  destruct (Forall2_lookup_lr _ _ _ _ _ _ Hfit Hrow Hl) as [Hfits _].
  split; [by rewrite list_lookup_fmap, Hl|].
  eexists. split; [by rewrite lookup_zip_with, Hrow; simpl; rewrite Hl|].
  replace (Z.to_nat (l + 1)) with (S (Z.to_nat l)) by lia.
  assert (length (take (Z.to_nat l) row) = Z.to_nat l) as Htake
    by (rewrite length_take; lia).
  rewrite (take_app_ge _ _ (S (Z.to_nat l))) by lia.
  rewrite Htake. replace (S (Z.to_nat l) - Z.to_nat l)%nat with 1%nat by lia.
  done.
- intros Hfuel trace.
  pose proof (training_trace train_cell
              (λ t, Tensor.column t (Lemmas.target_seqs_bow bow
                 (zip_with (λ row l, take (Z.to_nat l) row ++ eow :: drop (Z.to_nat l) row)
                    seqs lens)))
              (map (λ l, l + 1) lens) train_initial_state
              (Z.to_nat fuel) O train_initial_state) as Htrace.
  change (TF.decode_loop _ _ _ _ _ _) with trace in Htrace.
  destruct Htrace as [Hlen Hin].
  split.
  + rewrite Hlen. lia.
  + intros t inp out fin Ht k l row Hl Hrow Htl.
    specialize (Hin t _ Ht). simpl in Hin. subst inp.
    by eapply train_inputs_lookup.
Qed.

Lemma teacher_forced_training_witness :
∃ target_lens target_seqs,
  Lemmas.add_eow 2 [2; 1] [[7; 8; 0]; [9; 0; 0]] = Some (target_lens, target_seqs)
  ∧ target_lens = [3; 2]
  ∧ target_seqs = [[7; 8; 2; 0]; [9; 2; 0; 0]].
Proof.
destruct (teacher_forced_training (λ (_ : list Z) (s : unit), (tt, s)) tt
            1 2 [2; 1] [[7; 8; 0]; [9; 0; 0]] 3)
  as (tl & ts & Hadd & _).
{ repeat constructor; simpl; lia. }
exists tl, ts. split; [done|].
vm_compute in Hadd. by injection Hadd as <- <-.
Defined.

(** ** Floating-point multiplication by one *)

Section float_facts.

(** Rounding a canonical mantissa shifted by the 23 bits of the mantissa of
    [1.0] gives the mantissa back. *)
Lemma round_shifted (s : bool) (m : positive) (e : Z) :
  bounded F32.prec F32.emax m e = true →
  binary_round_aux F32.prec F32.emax s (Z.pos (Pos.mul 8388608 m)) (-23 + e) loc_Exact
  = S754_finite s m e.
Proof.
  intros H. unfold bounded, canonical_mantissa in H.
  apply andb_true_iff in H as [Hc Hb]. apply Z.eqb_eq in Hc.
  change (8388608 * m)%positive
    with (m~0~0~0~0~0~0~0~0~0~0~0~0~0~0~0~0~0~0~0~0~0~0~0)%positive.
  unfold binary_round_aux, shr_fexp.
  cbn [Zdigits2 digits2_pos shr_record_of_loc].
  rewrite !Pos2Z.inj_succ.
  match goal with
  | |- context [fexp F32.prec F32.emax ?a - (-23 + e)] =>
      replace (fexp F32.prec F32.emax a - (-23 + e)) with 23
  end.
  2:{ match goal with
      | |- _ = fexp _ _ ?a - _ => replace a with (Z.pos (digits2_pos m) + e) by lia
      end.
      rewrite Hc. lia. }
  cbn [shr SpecFloat.iter_pos shr_1 orb shr_m loc_of_shr_record round_nearest_even
       shr_record_of_loc Zdigits2].
  replace (-23 + e + 23) with e by lia.
  rewrite Hc, Z.sub_diag. cbn [shr shr_m].
  rewrite Hb. reflexivity.
Qed.

Lemma mul_one_l (x : spec_float) : F32.finite x = true → F32.mul F32.one x = x.
Proof.
  unfold F32.finite. destruct x as [s|s| |s m e]; intros H.
  - reflexivity.
  - by rewrite andb_false_r in H.
  - by rewrite andb_false_r in H.
  - rewrite andb_true_r in H. apply (round_shifted s m e H).
Qed.

Lemma mul_one_r (x : spec_float) : F32.finite x = true → F32.mul x F32.one = x.
Proof.
  unfold F32.finite. destruct x as [s|s| |s m e]; intros H.
  - by destruct s.
  - by rewrite andb_false_r in H.
  - by rewrite andb_false_r in H.
  - rewrite andb_true_r in H. unfold F32.mul, F32.one. cbn [SFmul].
    rewrite Pos.mul_comm, Z.add_comm, xorb_false_r. apply (round_shifted s m e H).
Qed.

(** A zero entry of the one-hot vector contributes a zero, which the sum
    with a number that is not the negative zero leaves out. *)
Lemma mul_zero_add (keep uniform : spec_float) :
  F32.finite keep = true → F32.finite uniform = true → F32.sign uniform = false →
  F32.add (F32.mul F32.zero keep) uniform = uniform.
Proof.
  unfold F32.finite.
  destruct keep as [sk|sk| |sk mk ek]; intros Hk;
    try (by rewrite andb_false_r in Hk);
    destruct uniform as [su|su| |su mu eu]; intros Hu Hs;
    try (by rewrite andb_false_r in Hu); simpl in Hs; subst; try done;
    by destruct sk.
Qed.

End float_facts.

(** ** Label smoothing *)

Section smoothing_facts.
Import Tagger.
#[local] Open Scope Q_scope.

Lemma qsum_affine (a c : Q) (l : list Q) :
  qsum (map (λ x, x * a + c) l) == qsum l * a + inject_Z (Z.of_nat (length l)) * c.
Proof.
  induction l as [|x l IH].
  - simpl. ring.
  - cbn [map qsum fold_right length] in *. fold (qsum l) in *.
    fold (qsum (map (λ x, x * a + c) l)). rewrite IH.
    rewrite Nat2Z.inj_succ. unfold Z.succ. rewrite inject_Z_plus. ring.
Qed.

Lemma qsum_one_hot_from (index : Z) (n a : nat) :
  qsum (map (λ j, if (Z.of_nat j =? index)%Z then 1 else 0) (seq a n))
  == if decide (Z.of_nat a ≤ index < Z.of_nat a + Z.of_nat n)%Z then 1 else 0.
Proof.
  revert a. induction n as [|n IH]; intros a.
  - simpl. rewrite decide_False by lia. reflexivity.
  - cbn [seq map qsum fold_right]. fold (qsum (map (λ j, if (Z.of_nat j =? index)%Z then 1 else 0) (seq (S a) n))).
    rewrite IH.
    destruct (Z.eqb_spec (Z.of_nat a) index) as [E|E].
    + rewrite decide_False by lia. rewrite decide_True by lia. ring.
    + destruct (decide (Z.of_nat (S a) ≤ index < Z.of_nat (S a) + Z.of_nat n)%Z).
      * rewrite decide_True by lia. ring.
      * rewrite decide_False by lia. ring.
Qed.

Lemma length_one_hot_exact depth index : length (one_hot_exact depth index) = depth.
Proof. unfold one_hot_exact. by rewrite length_map, length_seq. Qed.

Lemma lookup_one_hot_exact depth index j :
  (j < depth)%nat →
  one_hot_exact depth index !! j = Some (if (Z.of_nat j =? index)%Z then 1 else 0).
Proof.
  intros Hj. unfold one_hot_exact. rewrite list_lookup_fmap, lookup_seq_lt by done. done.
Qed.

Lemma lookup_gold_labels s K gold j :
  (j < K)%nat →
  gold_labels s K gold !! j
  = Some (F32.add
            (F32.mul (if (Z.of_nat j =? gold)%Z then F32.one else F32.zero)
                     (F32.of_f64 (F64.sub (F64.of_Z 1) s)))
            (F32.of_f64 (F64.div s (F64.of_Z (Z.of_nat K))))).
Proof.
  intros Hj. unfold gold_labels, one_hot.
  rewrite !list_lookup_fmap, lookup_seq_lt by done. done.
Qed.

End smoothing_facts.

(** C4, as the code has it.  With a head of [K] classes, the training
  target of a word whose gold label is one of the [K] classes holds, in
  [float32], the rounded sum of the two constants [1 - s] and [s / K] on
  the gold class and the constant [s / K] on every other class, the
  constants being computed by Python in [float64] and rounded to
  [float32]; where these three roundings are exact, and in exact
  arithmetic for every [s] in (0,1), the target is [(1 - s)] times the
  one-hot vector plus [s / K] on every class: the gold class gets
  [(1 - s) + s / K], every other class gets [s / K], no entry is negative
  and the [K] entries sum to 1. *)
Theorem label_smoothing_distribution (K : nat) (gold : Z) :
(0 ≤ gold < Z.of_nat K)%Z →
(∀ s : spec_float,
   let keep := F32.of_f64 (F64.sub (F64.of_Z 1) s) in
   let uniform := F32.of_f64 (F64.div s (F64.of_Z (Z.of_nat K))) in
   F32.finite keep = true → F32.finite uniform = true → F32.sign uniform = false →
   length (Tagger.gold_labels s K gold) = K
   ∧ (∀ j : nat, (j < K)%nat →
        Tagger.gold_labels s K gold !! j
        = Some (if (Z.of_nat j =? gold)%Z then F32.add keep uniform else uniform))
   ∧ ((float_value keep == 1 - float_value s)%Q →
      (float_value uniform == float_value s / inject_Z (Z.of_nat K))%Q →
      (float_value (F32.add keep uniform) == float_value keep + float_value uniform)%Q →
      Forall2 Qeq (map float_value (Tagger.gold_labels s K gold))
        (Tagger.gold_labels_exact (float_value s) K gold)))
∧ (∀ s : Q, (0 < s)%Q → (s < 1)%Q →
   length (Tagger.gold_labels_exact s K gold) = K
   ∧ (∀ j : nat, (j < K)%nat →
        ∃ q, Tagger.gold_labels_exact s K gold !! j = Some q
             ∧ (0 <= q)%Q
             ∧ (q == (if (Z.of_nat j =? gold)%Z then 1 else 0) * (1 - s)
                     + s / inject_Z (Z.of_nat K))%Q
             ∧ (Z.of_nat j = gold → q == (1 - s) + s / inject_Z (Z.of_nat K))%Q
             ∧ (Z.of_nat j ≠ gold → q == s / inject_Z (Z.of_nat K))%Q)
   ∧ (Tagger.qsum (Tagger.gold_labels_exact s K gold) == 1)%Q).
Proof.
intros Hgold. split.
- intros s keep uniform Hkeep Huniform Hsign.
  assert (∀ j : nat, (j < K)%nat →
            Tagger.gold_labels s K gold !! j
            = Some (if (Z.of_nat j =? gold)%Z then F32.add keep uniform else uniform))
    as Hentry.
  { intros j Hj. rewrite lookup_gold_labels by done. f_equal.
    fold keep uniform. destruct (Z.of_nat j =? gold)%Z.
    - by rewrite mul_one_l.
    - by apply mul_zero_add. }
  assert (length (Tagger.gold_labels s K gold) = K) as Hlen.
  { unfold Tagger.gold_labels, Tagger.one_hot. by rewrite !length_map, length_seq. }
  split; [done|]. split; [done|].
  intros Hk Hu Hsum.
  apply Forall2_same_length_lookup_2.
  { unfold Tagger.gold_labels_exact.
    by rewrite !length_map, Hlen, length_one_hot_exact. }
  intros j x q Hx Hq.
  assert (j < K)%nat as Hj.
  { apply lookup_lt_Some in Hx. by rewrite length_map, Hlen in Hx. }
  rewrite list_lookup_fmap, Hentry in Hx by done. injection Hx as <-.
  unfold Tagger.gold_labels_exact in Hq.
  rewrite list_lookup_fmap, lookup_one_hot_exact in Hq by done. injection Hq as <-.
  destruct (Z.of_nat j =? gold)%Z.
  + rewrite Hsum, Hk, Hu. ring.
  + rewrite Hu. ring.
- intros s Hs0 Hs1.
  assert (0 < inject_Z (Z.of_nat K))%Q as HK.
  { change 0%Q with (inject_Z 0). rewrite <- Zlt_Qlt. lia. }
  assert (0 <= s / inject_Z (Z.of_nat K))%Q as Hfrac.
  { apply Qle_shift_div_l; [done|]. rewrite Qmult_0_l. by apply Qlt_le_weak. }
  split; [|split].
  + unfold Tagger.gold_labels_exact. by rewrite length_map, length_one_hot_exact.
  + intros j Hj. eexists. split.
    { unfold Tagger.gold_labels_exact.
      rewrite list_lookup_fmap, lookup_one_hot_exact by done. done. }
    destruct (Z.eqb_spec (Z.of_nat j) gold) as [E|E].
    * split; [|split; [reflexivity|split; [intros _; ring|done]]].
      rewrite Qmult_1_l.
      apply (Qle_trans _ (0 + 0)); [by rewrite Qplus_0_l; apply Qle_refl|].
      apply Qplus_le_compat; [|done].
      apply Qlt_le_weak. by apply (proj1 (Qlt_minus_iff s 1)).
    * split; [|split; [reflexivity|split; [done|intros _; ring]]].
      rewrite Qmult_0_l, Qplus_0_l. done.
  + unfold Tagger.gold_labels_exact. rewrite qsum_affine, length_one_hot_exact.
    unfold Tagger.one_hot_exact. rewrite qsum_one_hot_from.
    rewrite decide_True by lia. field.
    intros E. rewrite E in HK. by apply Qlt_irrefl in HK.
Qed.

Lemma label_smoothing_distribution_witness :
Tagger.gold_labels (F64.div (F64.of_Z 1) (F64.of_Z 10)) 4 2
  = [S754_finite false 13421773 (-29); S754_finite false 13421773 (-29);
     S754_finite false 15518924 (-24); S754_finite false 13421773 (-29)]
∧ Forall2 Qeq
    (map float_value (Tagger.gold_labels (F64.div (F64.of_Z 1) (F64.of_Z 2)) 4 2))
    (Tagger.gold_labels_exact (float_value (F64.div (F64.of_Z 1) (F64.of_Z 2))) 4 2)
∧ (Tagger.qsum (Tagger.gold_labels_exact (1 # 10) 4 2) == 1)%Q.
Proof.
destruct (label_smoothing_distribution 4 2 ltac:(lia)) as [Hfloat Hexact].
split; [|split].
- destruct (Hfloat (F64.div (F64.of_Z 1) (F64.of_Z 10))
              ltac:(vm_compute; reflexivity) ltac:(vm_compute; reflexivity)
              ltac:(vm_compute; reflexivity)) as (Hlen & Hentry & _).
  apply list_eq. intros j.
  destruct (decide (j < 4)%nat) as [Hj|Hj].
  + rewrite Hentry by done.
    destruct j as [|[|[|[|j]]]]; [vm_compute; reflexivity ..|lia].
  + rewrite !lookup_ge_None_2; [done|simpl; lia|rewrite Hlen; lia].
- apply (Hfloat (F64.div (F64.of_Z 1) (F64.of_Z 2))
           ltac:(vm_compute; reflexivity) ltac:(vm_compute; reflexivity)
           ltac:(vm_compute; reflexivity));
    vm_compute; reflexivity.
- apply (Hexact (1 # 10)%Q); reflexivity.
Defined.

(** C4, where it fails as stated.  At the default smoothing 0.1 with four
    classes the three equalities fail: the gold class gets 0.92499995...,
    not [(1 - s) + s / 4], every other class 0.025000000373..., not
    [s / 4], and the four entries sum to 0.99999995..., in [float32] to
    0.99999994.... *)
Lemma smoothed_targets_rounded :
Tagger.gold_labels (F64.div (F64.of_Z 1) (F64.of_Z 10)) 4 2
  = [S754_finite false 13421773 (-29); S754_finite false 13421773 (-29);
     S754_finite false 15518924 (-24); S754_finite false 13421773 (-29)]
∧ ¬ (float_value (S754_finite false 15518924 (-24))
     == (1 - float_value (F64.div (F64.of_Z 1) (F64.of_Z 10)))
        + float_value (F64.div (F64.of_Z 1) (F64.of_Z 10)) / 4)%Q
∧ ¬ (float_value (S754_finite false 15518924 (-24)) == (1 - (1 # 10)) + (1 # 10) / 4)%Q
∧ ¬ (float_value (S754_finite false 13421773 (-29))
     == float_value (F64.div (F64.of_Z 1) (F64.of_Z 10)) / 4)%Q
∧ ¬ (float_value (S754_finite false 13421773 (-29)) == (1 # 10) / 4)%Q
∧ ¬ (Tagger.qsum
       (map float_value (Tagger.gold_labels (F64.div (F64.of_Z 1) (F64.of_Z 10)) 4 2))
     == 1)%Q
∧ fold_left F32.add (Tagger.gold_labels (F64.div (F64.of_Z 1) (F64.of_Z 10)) 4 2) F32.zero
  = S754_finite false 16777215 (-24)
∧ (float_value (S754_finite false 16777215 (-24)) < 1)%Q.
Proof.
repeat split; try (vm_compute; reflexivity); vm_compute; discriminate.
Qed.

(** The cases of a statement about the members of an explicit list. *)
Ltac ordered_elements :=
  repeat match goal with
    | H : _ ∈ _ :: _ |- _ => apply elem_of_cons in H as [->|H]
    | H : _ ∈ [] |- _ => by apply elem_of_nil in H
    end.

(** ** The arg-max heads *)

Section argmax_facts.
Import Tagger.
Context {F : Type}.
Variable flt : F → F → bool.

Lemma argmax_from_first_max (l : list F) : ∀ (prefix : list F) best besti,
  ordered flt (prefix ++ l) →
  prefix !! besti = Some best →
  (∀ j y, prefix !! j = Some y →
     flt best y = false ∧ ((j < besti)%nat → flt y best = true)) →
  first_max flt (prefix ++ l) (argmax_from flt best besti (length prefix) l).
Proof.
  induction l as [|x l IH]; intros prefix best besti Hord Hbest Hinv.
  - simpl. rewrite app_nil_r. by exists best.
  - assert ((prefix ++ [x]) !! length prefix = Some x) as Hx.
    { rewrite lookup_app_r by lia. by rewrite Nat.sub_diag. }
    pose proof (lookup_lt_Some _ _ _ Hbest) as Hlt.
    assert (prefix ++ x :: l = (prefix ++ [x]) ++ l) as Happ
      by (by rewrite <- app_assoc).
    assert (S (length prefix) = length (prefix ++ [x])) as Hlen
      by (rewrite length_app; simpl; lia).
    destruct Hord as [Hasym Hneg].
    assert (x ∈ prefix ++ x :: l) as Hxin by (rewrite elem_of_app, elem_of_cons; auto).
    assert (∀ j y, prefix !! j = Some y → y ∈ prefix ++ x :: l) as Hin.
    { intros j y Hy. rewrite elem_of_app. left. by eapply list_elem_of_lookup_2. }
    cbn [argmax_from]. destruct (flt best x) eqn:Hbx; rewrite Hlen, Happ.
    + apply IH; [by rewrite <- Happ|done|]. intros j y Hy.
      destruct (decide (j < length prefix)%nat) as [Hj|Hj].
      * rewrite lookup_app_l in Hy by done.
        destruct (Hinv j y Hy) as [Hle _].
        assert (flt best y = true ∨ flt y x = true) as [Hc|Hc]
          by (apply Hneg; eauto).
        { congruence. }
        split; [|done]. apply Hasym; eauto.
      * assert (j = length prefix) as ->.
        { apply lookup_lt_Some in Hy. rewrite length_app in Hy. simpl in Hy. lia. }
        rewrite Hx in Hy. injection Hy as <-.
        split; [|lia].
        destruct (flt x x) eqn:Hxx; [|done]. by rewrite (Hasym x x) in Hxx.
    + apply IH; [by rewrite <- Happ|by rewrite lookup_app_l|]. intros j y Hy.
      destruct (decide (j < length prefix)%nat) as [Hj|Hj].
      * rewrite lookup_app_l in Hy by done. by apply Hinv.
      * assert (j = length prefix) as ->.
        { apply lookup_lt_Some in Hy. rewrite length_app in Hy. simpl in Hy. lia. }
        rewrite Hx in Hy. injection Hy as <-.
        split; [done|lia].
Qed.

Lemma argmax_first_max (l : list F) :
  l ≠ [] → ordered flt l → first_max flt l (argmax flt l).
Proof.
  destruct l as [|x l]; [done|]. intros _ Hord.
  apply (argmax_from_first_max l [x] x O); [done|done|].
  intros [|j] y; simpl; [|by rewrite lookup_nil].
  intros [= <-]. split; [|lia].
  destruct (flt x x) eqn:Hxx; [|done].
  destruct Hord as [Hasym _]. rewrite (Hasym x x) in Hxx; [done| | |done];
    apply elem_of_cons; auto.
Qed.

Lemma kernel_column (c units : nat) (rows : list (list F)) :
  Forall (λ row, length row = units) rows → (c < units)%nat →
  length (column c rows) = length rows
  ∧ ∀ j row, rows !! j = Some row → row !! c = column c rows !! j.
Proof.
  intros Hrows Hc. unfold column.
  induction Hrows as [|row rows Hrow Hrows IH].
  - split; [done|]. intros j row. by rewrite lookup_nil.
  - destruct IH as [IHlen IHcol].
    destruct (lookup_lt_is_Some_2 row c) as [v Hv]; [lia|].
    cbn [omap list_omap]. rewrite Hv. split; [simpl; by rewrite IHlen|].
    intros [|j] row' Hrow'; simpl in *.
    + by injection Hrow' as <-.
    + by apply IHcol.
Qed.

End argmax_facts.

(** C7. The tag classifier is multi-head.  For every word of every sentence
  the prediction stacks exactly one label per head of [num_tags].  The
  label of head [i], a head of [tags] classes, is a class of that head:
  the first index of a largest of [tags] logits, where logit [c] is the
  inner product of the sentence-level RNN output of the word with column
  [c] of the kernel of the head's own dense layer, plus entry [c] of the
  bias of that layer.  The layers have the shapes the framework gives them
  and the comparison orders the logits (none is a NaN). *)
Theorem multi_head_predictions {F W : Type} (fadd : F → F → F)
  (dotp : list F → list F → F) (flt : F → F → bool)
  (num_tags : list (nat * W)) (layers : list (Tagger.dense_layer F))
  (sentence_rnn_outputs_tags : list (list (list F)))
  (s w : nat) (sentence : list (list F)) (x : list F) :
Forall2 (λ head layer,
           (0 < head.1)%nat
           ∧ Tagger.layer_shaped (length x) head.1 layer
           ∧ Tagger.ordered flt (Tagger.dense fadd dotp head.1 layer x))
  num_tags layers →
sentence_rnn_outputs_tags !! s = Some sentence → sentence !! w = Some x →
∃ labels,
  (Tagger.predictions fadd dotp flt num_tags layers sentence_rnn_outputs_tags !! s
     ≫= λ row, row !! w) = Some labels
  ∧ length labels = length num_tags
  ∧ ∀ i tags weight layer,
      num_tags !! i = Some (tags, weight) → layers !! i = Some layer →
      ∃ (r : nat) (logits : list F),
        labels !! i = Some (Z.of_nat r)
        ∧ (r < tags)%nat
        ∧ length logits = tags
        ∧ (∀ c, (c < tags)%nat →
             ∃ col b,
               length col = length x
               ∧ (∀ j row, Tagger.kernel layer !! j = Some row → row !! c = col !! j)
               ∧ Tagger.bias layer !! c = Some b
               ∧ logits !! c = Some (fadd (dotp x col) b))
        ∧ Tagger.first_max flt logits r.
Proof.
intros Hheads Hs Hw. eexists. split; [|split].
- unfold Tagger.predictions. rewrite list_lookup_fmap, Hs. simpl.
  rewrite list_lookup_fmap, Hw. done.
- rewrite length_zip_with. apply Forall2_length in Hheads. lia.
- intros i tags weight layer Hi Hlayer.
  destruct (Forall2_lookup_lr _ _ _ _ _ _ Hheads Hi Hlayer)
    as (Htags & (Hrows & Hcols & Hbias) & Hord).
  simpl in Htags, Hrows, Hcols, Hbias, Hord.
  assert (length (Tagger.dense fadd dotp tags layer x) = tags) as Hlen.
  { unfold Tagger.dense. rewrite length_zip_with, length_map, length_seq. lia. }
  assert (Tagger.dense fadd dotp tags layer x ≠ []) as Hne.
  { intros E. rewrite E in Hlen. simpl in Hlen. lia. }
  pose proof (argmax_first_max flt _ Hne Hord) as Hmax.
  exists (Tagger.argmax flt (Tagger.dense fadd dotp tags layer x)),
         (Tagger.dense fadd dotp tags layer x).
  split; [|split; [|split; [done|split; [|done]]]].
  + rewrite lookup_zip_with, Hi. simpl. by rewrite Hlayer.
  + destruct Hmax as (v & Hv & _). apply lookup_lt_Some in Hv. lia.
  + intros c Hc.
    destruct (kernel_column c tags (Tagger.kernel layer) Hcols Hc) as [Hcol Hkernel].
    destruct (lookup_lt_is_Some_2 (Tagger.bias layer) c) as [b Hb]; [lia|].
    exists (Tagger.column c (Tagger.kernel layer)), b.
    split; [lia|]. split; [done|]. split; [done|].
    unfold Tagger.dense. rewrite lookup_zip_with, list_lookup_fmap.
    rewrite lookup_seq_lt by done. simpl. by rewrite Hb.
Qed.

Lemma multi_head_predictions_witness :
∃ labels,
  (Tagger.predictions F32.add F32.dot SFltb
     [(3%nat, F32.one); (2%nat, F32.one)]
     [Tagger.Dense [[F32.of_Z 1; F32.of_Z 2; F32.of_Z 0];
                    [F32.of_Z 0; F32.of_Z 1; F32.of_Z 1]]
                   [F32.of_Z 0; F32.of_Z 0; F32.of_Z 3];
      Tagger.Dense [[F32.of_Z 3; F32.of_Z 1]; [F32.of_Z 1; F32.of_Z 2]]
                   [F32.of_Z 0; F32.of_Z 0]]
     [[[F32.of_Z 1; F32.of_Z 1]; [F32.of_Z 2; F32.of_Z 1]]] !! O
     ≫= λ row, row !! 1%nat) = Some labels
  ∧ labels = [1; 0].
Proof.
destruct (multi_head_predictions F32.add F32.dot SFltb
            [(3%nat, F32.one); (2%nat, F32.one)]
            [Tagger.Dense [[F32.of_Z 1; F32.of_Z 2; F32.of_Z 0];
                           [F32.of_Z 0; F32.of_Z 1; F32.of_Z 1]]
                          [F32.of_Z 0; F32.of_Z 0; F32.of_Z 3];
             Tagger.Dense [[F32.of_Z 3; F32.of_Z 1]; [F32.of_Z 1; F32.of_Z 2]]
                          [F32.of_Z 0; F32.of_Z 0]]
            [[[F32.of_Z 1; F32.of_Z 1]; [F32.of_Z 2; F32.of_Z 1]]]
            O 1%nat [[F32.of_Z 1; F32.of_Z 1]; [F32.of_Z 2; F32.of_Z 1]]
            [F32.of_Z 2; F32.of_Z 1])
  as (labels & Hl & _).
- repeat first
    [ apply Forall2_cons | apply Forall2_nil | apply Forall_cons | apply Forall_nil
    | reflexivity | (simpl; lia)
    | match goal with
      | |- Tagger.ordered _ ?l =>
          let l' := eval vm_compute in l in progress change l with l'
      end
    | split ];
    intros; ordered_elements; vm_compute; first [discriminate | auto].
- reflexivity.
- reflexivity.
- exists labels. split; [done|].
  vm_compute in Hl. congruence.
Defined.

(** ** Gradient clipping *)

Section clipping_facts.
Import Training.
#[local] Open Scope R_scope.

Lemma sum_squares_nonneg t_list : 0 <= sum_squares t_list.
Proof.
  unfold sum_squares. induction (concat t_list) as [|t l IH]; simpl; [lra|].
  pose proof (Rle_0_sqr t) as Ht. unfold Rsqr in Ht. lra.
Qed.

Lemma sum_squares_cons ts t_list :
  sum_squares (ts :: t_list) = sum_squares [ts] + sum_squares t_list.
Proof.
  unfold sum_squares. simpl. rewrite app_nil_r, map_app, fold_right_app.
  induction ts as [|t ts IH]; simpl; [lra|].
  change (foldr Rplus) with (@fold_right R R Rplus) in *. rewrite IH. lra.
Qed.

Lemma sum_squares_scale k t_list :
  sum_squares (map (map (λ t, t * k)) t_list) = k * k * sum_squares t_list.
Proof.
  induction t_list as [|ts t_list IH]; [unfold sum_squares; simpl; lra|].
  cbn [map]. rewrite sum_squares_cons, (sum_squares_cons ts), IH.
  assert (sum_squares [map (λ t, t * k) ts] = k * k * sum_squares [ts]) as ->; [|lra].
  unfold sum_squares. simpl. rewrite !app_nil_r.
  induction ts as [|t ts IHts]; simpl; [lra|].
  change (foldr Rplus) with (@fold_right R R Rplus) in *. rewrite IHts. lra.
Qed.

Lemma euclidean_norm_scale k t_list :
  0 <= k →
  euclidean_norm (map (map (λ t, t * k)) t_list) = k * euclidean_norm t_list.
Proof.
  intros Hk. unfold euclidean_norm. rewrite sum_squares_scale.
  rewrite sqrt_mult; [|nra|apply sum_squares_nonneg].
  fold (Rsqr k). by rewrite sqrt_Rsqr.
Qed.

(** The documented global norm, the root of the sum of the squares of the
    norms of the tensors, is the norm of the tensors taken as one vector. *)
Lemma global_norm_exact_euclidean t_list :
  global_norm_exact t_list = euclidean_norm t_list.
Proof.
  unfold global_norm_exact, euclidean_norm. f_equal.
  induction t_list as [|ts t_list IH]; [done|].
  rewrite sum_squares_cons. cbn [map fold_right]. rewrite IH. f_equal.
  unfold l2norm. rewrite sqrt_sqrt.
  - unfold sum_squares. simpl. by rewrite app_nil_r.
  - pose proof (sum_squares_nonneg [ts]) as H. unfold sum_squares in H.
    simpl in H. by rewrite app_nil_r in H.
Qed.

Lemma clip_as_scale t_list c :
  clip_by_global_norm_exact t_list c
  = map (map (λ t, t * (c / Rmax (euclidean_norm t_list) c))) t_list.
Proof.
  unfold clip_by_global_norm_exact. rewrite global_norm_exact_euclidean.
  apply map_ext. intros ts. apply map_ext.
  intros t. unfold Rdiv. lra.
Qed.

Lemma map_map_id (k : R) t_list :
  k = 1 → map (map (λ t, t * k)) t_list = t_list.
Proof.
  intros ->. induction t_list as [|ts t_list IH]; simpl; [done|].
  rewrite IH. f_equal. induction ts as [|t ts IHts]; simpl; [done|].
  rewrite IHts. f_equal. lra.
Qed.

(** In [float32]: one factor for all components, and the factor 1 changes
    no number. *)
Lemma clip_by_global_norm_factor t_list clip_norm :
  clip_by_global_norm t_list clip_norm
  = map (map (λ v, F32.mul v
                     (F32.mul clip_norm
                        (F32.minimum (F32.div F32.one (global_norm t_list))
                                     (F32.div F32.one clip_norm))))) t_list.
Proof. done. Qed.

Lemma map_mul_one t_list :
  Forall (Forall (λ v, F32.finite v = true)) t_list →
  map (map (λ v, F32.mul v F32.one)) t_list = t_list.
Proof.
  induction 1 as [|ts t_list Hts _ IH]; simpl; [done|].
  rewrite IH. f_equal. induction Hts as [|t ts Ht _ IHts]; simpl; [done|].
  by rewrite IHts, mul_one_r.
Qed.

Lemma sum_squares_values t_list :
  sum_squares (values t_list) = Q2R (squared_norm t_list).
Proof.
  unfold sum_squares, squared_norm, values.
  induction t_list as [|ts t_list IH]; simpl; [unfold Q2R; simpl; lra|].
  rewrite !map_app, !fold_right_app.
  change (foldr Rplus) with (@fold_right R R Rplus) in *.
  change (foldr Qplus) with (@fold_right Q Q Qplus) in *.
  rewrite IH. clear IH.
  generalize (fold_right Qplus 0%Q
                (map (λ v, (float_value v * float_value v)%Q) (concat t_list))).
  intros q. induction ts as [|t ts IHts]; simpl; [done|].
  rewrite IHts, Q2R_plus, Q2R_mult. done.
Qed.

Lemma Rmin_inv (a b : R) : 0 < a → 0 < b → Rmin (/ a) (/ b) = / Rmax a b.
Proof.
  intros Ha Hb. unfold Rmin, Rmax.
  destruct (Rle_dec a b) as [Hab|Hab], (Rle_dec (/ a) (/ b)) as [Hi|Hi]; try done.
  - apply Rle_antisym; [done|]. by apply Rinv_le_contravar.
  - exfalso. apply Hi. apply Rinv_le_contravar; lra.
Qed.

End clipping_facts.

Section clipping_values.
Import Training.
#[local] Open Scope R_scope.

Lemma Q2R_min (a b : Q) : Q2R (Qmin a b) = Rmin (Q2R a) (Q2R b).
Proof.
  destruct (Q.min_spec a b) as [[Hlt E]|[Hle E]]; rewrite (Qeq_eqR _ _ E).
  - apply Qlt_Rlt in Hlt. rewrite Rmin_left; lra.
  - apply Qle_Rle in Hle. by rewrite Rmin_right.
Qed.

Lemma Q2R_reciprocal (a : Q) : (0 < a)%Q → Q2R (1 / a) = / Q2R a.
Proof.
  intros Ha. unfold Qdiv. rewrite Q2R_mult, Q2R_inv.
  - rewrite RMicromega.Q2R_1. lra.
  - intros E. rewrite E in Ha. by apply Qlt_irrefl in Ha.
Qed.

Lemma Q2R_pos (a : Q) : (0 < a)%Q → 0 < Q2R a.
Proof. intros Ha. apply Qlt_Rlt in Ha. by rewrite RMicromega.Q2R_0 in Ha. Qed.

(** Where the norm, the factor and the products are computed without
    rounding, the clipped [float32] gradients are those of the documented
    formula. *)
Lemma clip_values (t_list : list (list spec_float)) (clip_norm factor : spec_float) :
  (0 < float_value clip_norm)%Q →
  (0 < float_value (global_norm t_list))%Q →
  (float_value (global_norm t_list) * float_value (global_norm t_list)
   == squared_norm t_list)%Q →
  (float_value factor
   == float_value clip_norm
      * Qmin (1 / float_value (global_norm t_list)) (1 / float_value clip_norm))%Q →
  Forall (Forall (λ v, (float_value (F32.mul v factor)
                        == float_value v * float_value factor)%Q)) t_list →
  values (map (map (λ v, F32.mul v factor)) t_list)
  = clip_by_global_norm_exact (values t_list) (Q2R (float_value clip_norm)).
Proof.
  intros Hc Hn Hnorm Hfactor Hprod.
  pose proof (Q2R_pos _ Hc) as Hc'. pose proof (Q2R_pos _ Hn) as Hn'.
  assert (euclidean_norm (values t_list) = Q2R (float_value (global_norm t_list)))
    as Heuclid.
  { unfold euclidean_norm. rewrite sum_squares_values, <- (Qeq_eqR _ _ Hnorm), Q2R_mult.
    apply sqrt_square. lra. }
  assert (Q2R (float_value factor)
          = Q2R (float_value clip_norm)
            / Rmax (Q2R (float_value (global_norm t_list))) (Q2R (float_value clip_norm)))
    as Hf.
  { rewrite (Qeq_eqR _ _ Hfactor), Q2R_mult, Q2R_min, !Q2R_reciprocal by done.
    by rewrite Rmin_inv. }
  rewrite clip_as_scale, Heuclid, <- Hf. unfold values.
  rewrite !map_map. clear Hn Hnorm Hn' Heuclid Hfactor Hf.
  induction Hprod as [|ts t_list Hts _ IH]; [done|].
  cbn [map]. f_equal; [|done].
  rewrite !map_map.
  induction Hts as [|t ts Ht _ IHts]; [done|].
  cbn [map]. f_equal; [|done].
  by rewrite (Qeq_eqR _ _ Ht), Q2R_mult.
Qed.

End clipping_values.

(** C6, as the code has it.  The gradients are applied as they are when
  [grad_clip] is unset or 0.  When it is set, every component of every
  gradient is multiplied in [float32] by one factor,
  [clip * min(1 / norm, 1 / clip)] with [norm] the global norm of the
  gradients, every operation rounded; gradients of finite numbers are
  applied unchanged when that factor is 1.  Where the norm, the factor and
  the products are computed without rounding, the applied gradients are
  those of the exact formula, and in exact arithmetic, for a positive
  threshold, the applied gradients have norm at most [grad_clip]:
  gradients whose norm is above it are all multiplied by
  [grad_clip / norm] and then have norm exactly [grad_clip], gradients at
  or below it are applied unchanged.  The norm of the exact statements is
  that of all components taken as one vector. *)
Theorem clipped_gradient_norm :
(∀ gradients : list (list spec_float),
   Training.applied_gradients None gradients = gradients
   ∧ ∀ grad_clip : spec_float,
       (Training.truthy grad_clip = false →
        Training.applied_gradients (Some grad_clip) gradients = gradients)
       ∧ (Training.truthy grad_clip = true →
          let clip_norm := F32.of_f64 grad_clip in
          let norm := Training.global_norm gradients in
          let factor :=
            F32.mul clip_norm
              (F32.minimum (F32.div F32.one norm) (F32.div F32.one clip_norm)) in
          let applied := Training.applied_gradients (Some grad_clip) gradients in
          applied = map (map (λ v, F32.mul v factor)) gradients
          ∧ (factor = F32.one →
             Forall (Forall (λ v, F32.finite v = true)) gradients →
             applied = gradients)
          ∧ ((0 < float_value clip_norm)%Q →
             (0 < float_value norm)%Q →
             (float_value norm * float_value norm
              == Training.squared_norm gradients)%Q →
             (float_value factor
              == float_value clip_norm
                 * Qmin (1 / float_value norm) (1 / float_value clip_norm))%Q →
             Forall (Forall (λ v, (float_value (F32.mul v factor)
                                   == float_value v * float_value factor)%Q))
               gradients →
             Training.values applied
             = Training.applied_gradients_exact (Some (Q2R (float_value clip_norm)))
                 (Training.values gradients))))
∧ (∀ (gradients : list (list R)) (grad_clip : R),
   (0 < grad_clip)%R →
   let applied := Training.applied_gradients_exact (Some grad_clip) gradients in
   (Training.euclidean_norm applied <= grad_clip)%R
   ∧ ((grad_clip < Training.euclidean_norm gradients)%R →
        applied
        = map (map (λ t, t * (grad_clip / Training.euclidean_norm gradients))%R)
            gradients
        ∧ Training.euclidean_norm applied = grad_clip)
   ∧ ((Training.euclidean_norm gradients <= grad_clip)%R → applied = gradients)
   ∧ Training.applied_gradients_exact None gradients = gradients).
Proof.
split.
- intros gradients. split; [done|]. intros grad_clip. split.
  { intros Hc. unfold Training.applied_gradients. by rewrite Hc. }
  intros Hc clip_norm norm factor applied.
  assert (applied = map (map (λ v, F32.mul v factor)) gradients) as Happ.
  { unfold applied, Training.applied_gradients. rewrite Hc.
    apply clip_by_global_norm_factor. }
  split; [done|]. split.
  + intros Hone Hfinite. rewrite Happ, Hone. by apply map_mul_one.
  + intros Hclip Hnorm Hsq Hfactor Hprod. rewrite Happ.
    unfold Training.applied_gradients_exact.
    destruct (Req_dec_T (Q2R (float_value clip_norm)) 0) as [E|_].
    { pose proof (Q2R_pos _ Hclip). lra. }
    by apply clip_values.
- intros gradients grad_clip Hc applied.
  assert (applied = Training.clip_by_global_norm_exact gradients grad_clip) as Happ.
  { unfold applied, Training.applied_gradients_exact.
    destruct (Req_dec_T grad_clip 0); [lra|done]. }
  assert ((grad_clip < Training.euclidean_norm gradients)%R →
          applied
          = map (map (λ t, t * (grad_clip / Training.euclidean_norm gradients))%R)
              gradients
          ∧ Training.euclidean_norm applied = grad_clip) as Habove.
  { intros Hn. rewrite Happ, clip_as_scale, Rmax_left by lra.
    split; [done|].
    rewrite euclidean_norm_scale.
    - field. lra.
    - apply Rlt_le, Rdiv_lt_0_compat; lra. }
  assert ((Training.euclidean_norm gradients <= grad_clip)%R → applied = gradients)
    as Hbelow.
  { intros Hn. rewrite Happ, clip_as_scale, Rmax_right by done.
    apply map_map_id. field. lra. }
  split; [|done].
  destruct (Rlt_le_dec grad_clip (Training.euclidean_norm gradients)) as [Hn|Hn].
  + destruct (Habove Hn) as [_ ->]. lra.
  + by rewrite (Hbelow Hn).
Qed.

Lemma clipped_gradient_norm_witness :
Training.applied_gradients (Some (F64.of_Z 3)) [[F32.of_Z 1]; [F32.of_Z 2]]
  = [[F32.of_Z 1]; [F32.of_Z 2]]
∧ Training.values
    (Training.applied_gradients (Some (F64.of_Z 2))
       [[F32.of_Z 2; F32.of_Z 2]; [F32.of_Z 2; F32.of_Z 2]])
  = Training.applied_gradients_exact (Some (Q2R (float_value (F32.of_f64 (F64.of_Z 2)))))
      (Training.values [[F32.of_Z 2; F32.of_Z 2]; [F32.of_Z 2; F32.of_Z 2]])
∧ (Training.euclidean_norm (Training.applied_gradients_exact (Some 3%R) [[3%R]; [4%R]])
   <= 3)%R.
Proof.
destruct clipped_gradient_norm as [Hfloat Hexact].
split; [|split].
- destruct (Hfloat [[F32.of_Z 1]; [F32.of_Z 2]]) as [_ Hset].
  destruct (Hset (F64.of_Z 3)) as [_ Hclip].
  destruct (Hclip eq_refl) as (_ & Hone & _).
  apply Hone; [vm_compute; reflexivity|].
  repeat constructor.
- destruct (Hfloat [[F32.of_Z 2; F32.of_Z 2]; [F32.of_Z 2; F32.of_Z 2]]) as [_ Hset].
  destruct (Hset (F64.of_Z 2)) as [_ Hclip].
  destruct (Hclip eq_refl) as (_ & _ & Hvalues).
  apply Hvalues; try (vm_compute; reflexivity).
  repeat constructor; vm_compute; reflexivity.
- apply (Hexact [[3%R]; [4%R]] 3%R). lra.
Defined.

(** C6, where it fails as stated.  With the default threshold 3.0 the
    gradients (3, 4), of norm 5, are applied as (1.8000001...,
    2.4000001...), whose norm is above 3; the gradients (3, 3) are applied
    as gradients whose norm is above 3 also as [float32] computes it; and
    with the threshold 41.0 the gradient 1, of norm 1, is applied as
    0.99999994.... *)
Lemma clipped_gradients_rounded :
Training.global_norm [[F32.of_Z 3]; [F32.of_Z 4]] = F32.of_Z 5
∧ Training.applied_gradients (Some (F64.of_Z 3)) [[F32.of_Z 3]; [F32.of_Z 4]]
  = [[S754_finite false 15099495 (-23)]; [S754_finite false 10066330 (-22)]]
∧ (3 * 3 < Training.squared_norm
             (Training.applied_gradients (Some (F64.of_Z 3))
                [[F32.of_Z 3]; [F32.of_Z 4]]))%Q
∧ (3 * 3 < Training.squared_norm
             (Training.applied_gradients (Some (F64.of_Z 3))
                [[F32.of_Z 3]; [F32.of_Z 3]]))%Q
∧ SFltb (F32.of_Z 3)
    (Training.global_norm
       (Training.applied_gradients (Some (F64.of_Z 3)) [[F32.of_Z 3]; [F32.of_Z 3]]))
  = true
∧ Training.global_norm [[F32.of_Z 1]] = F32.of_Z 1
∧ SFltb (Training.global_norm [[F32.of_Z 1]]) (F32.of_f64 (F64.of_Z 41)) = true
∧ Training.applied_gradients (Some (F64.of_Z 41)) [[F32.of_Z 1]]
  = [[S754_finite false 16777215 (-24)]]
∧ Training.applied_gradients (Some (F64.of_Z 41)) [[F32.of_Z 1]] ≠ [[F32.of_Z 1]].
Proof.
repeat split; try (vm_compute; reflexivity). vm_compute. discriminate.
Qed.

(** ** Inference: greedy and beam-search decoding *)

Section inference_facts.
Import Tensor TF Lemmas.

Lemma decode_loop_length {State Input Output : Type}
    (dec : @decoder State Input Output) fuel : ∀ t fin i s,
  (length (decode_loop dec fuel t fin i s) ≤ fuel)%nat.
Proof.
  induction fuel as [|n IH]; intros t fin i s; simpl; [lia|].
  destruct (forallb _ fin); simpl; [lia|].
  destruct (step dec t i s) as [[[out s'] i'] fin']. simpl.
  specialize (IH (S t) (zip_with orb fin' fin) i' s'). lia.
Qed.

Lemma dynamic_decode_length {State Input Output : Type}
    (dec : @decoder State Input Output) (m : Z) :
  Z.of_nat (length (dynamic_decode dec m)) ≤ 0 `max` m.
Proof.
  unfold dynamic_decode. destruct (initialize dec) as [[fin i] s].
  pose proof (decode_loop_length dec (Z.to_nat m) O fin i s). lia.
Qed.

Lemma steps_until_finished_le {Input Output : Type} k
    (trace : list (Input * Output * list bool)) :
  (steps_until_finished k trace ≤ length trace)%nat.
Proof.
  induction trace as [|[[i o] fin] trace IH]; simpl; [lia|].
  destruct (nth k fin false); lia.
Qed.

Lemma maximum_iterations_value charseq_lens :
  reduce_max charseq_lens + 10 < 2 ^ 31 →
  maximum_iterations charseq_lens = reduce_max charseq_lens + 10.
Proof.
  intros Hlt. unfold maximum_iterations. apply wrap32_small.
  assert (- 2 ^ 31 ≤ reduce_max charseq_lens); [|lia].
  clear Hlt. unfold reduce_max.
  induction charseq_lens as [|l L IH]; cbn [fold_right]; lia.
Qed.

Section beam_facts.
Variable score : nat → list Z → Q.
Variable vocabulary : list Z.
Variable beam_width : nat.
Hypothesis vocabulary_nonempty : vocabulary ≠ [].
Hypothesis beam_width_pos : (0 < beam_width)%nat.

#[local] Instance better_total w : Total (better score w).
Proof.
  intros a b. unfold better.
  destruct (Qlt_le_dec (score w a) (score w b)) as [Hlt|Hle]; [right|by left].
  by apply Qlt_le_weak.
Qed.

#[local] Instance better_trans w : Transitive (better score w).
Proof. intros a b c Hab Hbc. unfold better in *. by eapply Qle_trans. Qed.

(** What [retain] keeps: the [beam_width] best candidates, best first. *)
Lemma retain_top_k w cands :
  length (retain score beam_width w cands) = (beam_width `min` length cands)%nat
  ∧ StronglySorted (better score w) (retain score beam_width w cands)
  ∧ ∃ dropped, cands ≡ₚ retain score beam_width w cands ++ dropped
      ∧ ∀ a b, a ∈ retain score beam_width w cands → b ∈ dropped →
          (score w b <= score w a)%Q.
Proof.
  unfold retain.
  pose proof (StronglySorted_merge_sort (better score w) cands) as Hsorted.
  pose proof (merge_sort_Permutation (better score w) cands) as Hperm.
  rewrite <- (take_drop beam_width (merge_sort (better score w) cands)) in Hsorted.
  split; [|split].
  - rewrite length_take, Hperm. done.
  - by eapply StronglySorted_app_1_l.
  - exists (drop beam_width (merge_sort (better score w) cands)). split.
    + by rewrite take_drop.
    + intros a b Ha Hb.
      by apply (StronglySorted_app_1_elem_of _ _ _ a b Hsorted).
Qed.

Lemma candidates_elem beams c :
  c ∈ candidates vocabulary beams ↔ ∃ b x, b ∈ beams ∧ x ∈ vocabulary ∧ c = b ++ [x].
Proof.
  unfold candidates. rewrite list_elem_of_bind. split.
  - intros (b & Hc & Hb). apply list_elem_of_bind in Hc as (x & Hc & Hx).
    apply list_elem_of_singleton in Hc. eauto.
  - intros (b & x & Hb & Hx & ->). exists b. split; [|done].
    apply list_elem_of_bind. exists x. split; [|done]. by apply list_elem_of_singleton.
Qed.

Lemma retain_candidates_beams_at w t bs :
  beams_at t bs → beams_at (S t) (retain score beam_width w (candidates vocabulary bs)).
Proof.
  intros [Hne Hlen].
  destruct (retain_top_k w (candidates vocabulary bs)) as (Hl & _ & dropped & Hperm & _).
  split.
  - intros E. rewrite E in Hl. simpl in Hl.
    destruct bs as [|b bs]; [done|].
    destruct vocabulary as [|x vs]; [done|].
    unfold candidates in Hl. simpl in Hl. lia.
  - apply Forall_forall. intros c Hc.
    assert (c ∈ candidates vocabulary bs) as Hin.
    { rewrite Hperm. apply elem_of_app. by left. }
    apply candidates_elem in Hin as (b & x & Hb & _ & ->).
    rewrite length_app. simpl.
    rewrite (proj1 (Forall_forall _ _) Hlen b Hb). lia.
Qed.

Lemma beam_step_beams_at t beams :
  Forall (beams_at t) beams →
  Forall (beams_at (S t)) (beam_step score vocabulary beam_width beams).
Proof.
  intros Hall. apply Forall_lookup. intros w bs' Hw.
  unfold beam_step in Hw. rewrite list_lookup_imap in Hw.
  destruct (beams !! w) as [bs|] eqn:Hbs; [|done].
  simpl in Hw. injection Hw as <-.
  apply retain_candidates_beams_at.
  by apply (proj1 (Forall_lookup _ _) Hall w bs).
Qed.

Lemma length_beam_step beams :
  length (beam_step score vocabulary beam_width beams) = length beams.
Proof. unfold beam_step. apply length_imap. Qed.

#[local] Abbreviation beam_decoder wc eow :=
  (beam_search_decoder score vocabulary beam_width wc eow).
#[local] Abbreviation beam_states wc t :=
  (Nat.iter t (beam_step score vocabulary beam_width) (replicate wc [[]])).

Lemma beam_trace_output wc eow fuel : ∀ t fin st i x,
  decode_loop (beam_decoder wc eow) fuel t fin tt st !! i = Some x →
  x.1.2 = Nat.iter (S i) (beam_step score vocabulary beam_width) st.
Proof.
  induction fuel as [|n IH]; intros t fin st i x; simpl; [by rewrite lookup_nil|].
  destruct (forallb _ fin); [by rewrite lookup_nil|].
  destruct i as [|i]; simpl.
  - by intros [= <-].
  - intros Hx. rewrite (IH _ _ _ _ _ Hx). by rewrite <- Nat.iter_succ_r.
Qed.

Lemma beam_trace_starts wc eow (m : Z) :
  (0 < wc)%nat → 0 < m → dynamic_decode (beam_decoder wc eow) m ≠ [].
Proof.
  intros Hwc Hm. unfold dynamic_decode. simpl.
  destruct (Z.to_nat m) as [|n] eqn:E; [lia|].
  destruct wc as [|wc]; [lia|]. done.
Qed.

Lemma beam_states_beams_at wc t :
  length (beam_states wc t) = wc ∧ Forall (beams_at t) (beam_states wc t).
Proof.
  induction t as [|t [IHl IHf]].
  - simpl. rewrite length_replicate. split; [done|].
    apply Forall_forall. intros bs [-> _]%elem_of_replicate. split; [done|].
    by repeat constructor.
  - cbn [Nat.iter nat_rect]. rewrite length_beam_step. split; [done|].
    by apply beam_step_beams_at.
Qed.

Lemma beam_final_state wc eow (m : Z) :
  let trace := dynamic_decode (beam_decoder wc eow) m in
  match last trace with
  | Some (_, beams, _) => beams
  | None => replicate wc [[]]
  end = beam_states wc (length trace).
Proof.
  intros trace. rewrite last_lookup.
  destruct (trace !! pred (length trace)) as [[[i out] fin]|] eqn:Hlast.
  - pose proof (lookup_lt_Some _ _ _ Hlast) as Hlt.
    pose proof (beam_trace_output wc eow (Z.to_nat m) O (replicate wc false)
                  (replicate wc [[]]) (pred (length trace)) (i, out, fin) Hlast)
      as Hout.
    cbn [fst snd] in Hout. rewrite Hout. f_equal. lia.
  - apply lookup_ge_None in Hlast.
    destruct trace as [|x tr]; [done|]. simpl in Hlast. lia.
Qed.

Lemma heads_shaped wc t :
  shaped (Tensor2 wc t (map (λ bs, nth 0 bs []) (beam_states wc t))).
Proof.
  destruct (beam_states_beams_at wc t) as [Hl Hf].
  split; simpl; [by rewrite length_map|].
  apply Forall_fmap. eapply Forall_impl; [exact Hf|].
  intros [|b bs] [Hne Hlen]; [done|]. simpl.
  by apply Forall_cons in Hlen as [? _].
Qed.

(** The result of a beam-search prediction. *)
Lemma beam_predict_value eow wc charseq_lens :
  (0 < wc)%nat → 0 ≤ reduce_max charseq_lens →
  reduce_max charseq_lens + 10 < 2 ^ 31 - 1 →
  let steps :=
    length (dynamic_decode (beam_decoder wc eow) (maximum_iterations charseq_lens)) in
  (0 < steps)%nat ∧ Z.of_nat steps ≤ reduce_max charseq_lens + 10
  ∧ beam_predict score vocabulary beam_width eow wc charseq_lens
    = Some (Tensor2 wc steps (map (λ bs, nth 0 bs []) (beam_states wc steps)),
            map (λ bs, 1 + Z.of_nat (first_occ eow (nth 0 bs [])))
                (beam_states wc steps)).
Proof.
  intros Hwc Hmax Hsmall steps.
  pose proof (maximum_iterations_value charseq_lens ltac:(lia)) as Hm.
  pose proof (dynamic_decode_length (beam_decoder wc eow)
                (maximum_iterations charseq_lens)) as Hle.
  fold steps in Hle. rewrite Hm in Hle.
  assert (0 < steps)%nat as Hpos.
  { pose proof (beam_trace_starts wc eow (maximum_iterations charseq_lens) Hwc
                  ltac:(lia)) as Hne.
    unfold steps. destruct (dynamic_decode _ _); [done|simpl; lia]. }
  split; [done|]. split; [lia|].
  unfold beam_predict. rewrite beam_final_state. fold steps.
  unfold FindFirst.beam_prediction_lengths.
  rewrite find_first_value; [|apply heads_shaped|done|simpl; lia].
  simpl. do 2 f_equal. rewrite !map_map. apply map_ext_in.
  intros bs Hbs%list_elem_of_In.
  destruct (beam_states_beams_at wc steps) as [_ Hf].
  pose proof (proj1 (Forall_forall _ _) Hf bs Hbs) as [Hne Hlen].
  pose proof (first_occ_le eow (nth 0 bs [])) as Hk.
  assert (length (nth 0 bs []) = steps) as Hrow.
  { destruct bs as [|b bs]; [done|]. simpl.
    by apply Forall_cons in Hlen as [? _]. }
  apply wrap32_small. lia.
Qed.

Lemma beam_step_lookup beams w kept :
  beam_step score vocabulary beam_width beams !! w = Some kept →
  ∃ previous, beams !! w = Some previous
    ∧ kept = retain score beam_width w (candidates vocabulary previous).
Proof.
  unfold beam_step. rewrite list_lookup_imap.
  destruct (beams !! w) as [bs|]; [|done]. simpl. intros [= <-]. by exists bs.
Qed.

Lemma best_first w best rest :
  StronglySorted (better score w) (best :: rest) →
  ∀ b, b ∈ best :: rest → (score w b <= score w best)%Q.
Proof.
  intros Hsorted b Hb. apply StronglySorted_inv in Hsorted as [_ Hall].
  apply elem_of_cons in Hb as [->|Hb]; [apply Qle_refl|].
  by apply (proj1 (Forall_forall _ _) Hall b).
Qed.

End beam_facts.

Lemma greedy_predict_shape {State : Type}
    (pred_cell : list Z → State → list (list Q) * State) (s0 : State)
    (bow eow : Z) (wc : nat) (charseq_lens : list Z) :
  let trace :=
    dynamic_decode (greedy_decoder pred_cell (replicate wc bow) eow s0)
      (maximum_iterations charseq_lens) in
  let '(lp, lpl) := greedy_predict pred_cell s0 bow eow wc charseq_lens in
  shaped lp ∧ dim0 lp = wc ∧ dim1 lp = length trace
  ∧ length lpl = wc ∧ Forall (λ l, 0 ≤ l ≤ Z.of_nat (length trace)) lpl.
Proof.
  intros trace. unfold greedy_predict. fold trace.
  split; [|split; [done|split; [done|split]]].
  - split; simpl; [by rewrite length_map, length_seq|].
    apply Forall_fmap, Forall_forall. intros k _. simpl. by rewrite length_map.
  - by rewrite length_map, length_seq.
  - apply Forall_fmap, Forall_forall. intros k _. simpl.
    pose proof (steps_until_finished_le k trace). lia.
Qed.

End inference_facts.

(** C9. Inference lemma decoding is bounded.  For a batch with a word form
    (the longest of [m] characters, an [int32] with room for the 10), both
    the greedy and the beam-search decode run for at most [m + 10] steps, so
    the predicted ids of every word are at most [m + 10] long, and the
    number [length - 1] of characters that a prediction length selects from
    them is at most [m + 10]. *)
Theorem inference_decoding_bounded {State : Type}
    (pred_cell : list Z → State → list (list Q) * State) (pred_initial_state : State)
    (score : nat → list Z → Q) (vocabulary : list Z) (beams : nat)
    (bow eow : Z) (words_count : nat) (charseq_lens : list Z) :
  vocabulary ≠ [] → (0 < beams)%nat → (0 < words_count)%nat →
  0 ≤ TF.reduce_max charseq_lens → TF.reduce_max charseq_lens + 10 < 2 ^ 31 - 1 →
  let bound := TF.reduce_max charseq_lens + 10 in
  let bounded (lp : Tensor.tensor2) (lpl : list Z) : Prop :=
    Tensor.shaped lp ∧ Tensor.dim0 lp = words_count
    ∧ Z.of_nat (Tensor.dim1 lp) ≤ bound
    ∧ length lpl = words_count ∧ Forall (λ l, l - 1 ≤ bound) lpl in
  (Z.of_nat (length (TF.dynamic_decode
       (TF.greedy_decoder pred_cell (replicate words_count bow) eow pred_initial_state)
       (Lemmas.maximum_iterations charseq_lens))) ≤ bound
   ∧ ∃ lp lpl,
       Lemmas.greedy_predict pred_cell pred_initial_state bow eow words_count charseq_lens
         = (lp, lpl) ∧ bounded lp lpl)
  ∧ (Z.of_nat (length (TF.dynamic_decode
       (Lemmas.beam_search_decoder score vocabulary beams words_count eow)
       (Lemmas.maximum_iterations charseq_lens))) ≤ bound
     ∧ ∃ lp lpl,
         Lemmas.beam_predict score vocabulary beams eow words_count charseq_lens
           = Some (lp, lpl) ∧ bounded lp lpl).
Proof.
  intros Hvoc Hbeams Hwc Hmax Hsmall bound bounded.
  pose proof (maximum_iterations_value charseq_lens ltac:(lia)) as Hm.
  split.
  - pose proof (dynamic_decode_length
        (TF.greedy_decoder pred_cell (replicate words_count bow) eow pred_initial_state)
        (Lemmas.maximum_iterations charseq_lens)) as Hle.
    split; [unfold bound; lia|].
    pose proof (greedy_predict_shape pred_cell pred_initial_state bow eow
                  words_count charseq_lens) as Hshape.
    destruct (Lemmas.greedy_predict _ _ _ _ _ _) as [lp lpl].
    destruct Hshape as (Hs & Hd0 & Hd1 & Hl & Hf).
    exists lp, lpl. split; [done|]. unfold bounded.
    split; [done|]. split; [done|]. split; [rewrite Hd1; unfold bound; lia|].
    split; [done|]. eapply Forall_impl; [exact Hf|]. simpl. intros l Hl'.
    unfold bound. lia.
  - destruct (beam_predict_value score vocabulary beams Hvoc Hbeams eow
                words_count charseq_lens Hwc Hmax Hsmall) as (Hpos & Hle & Hval).
    split; [done|]. eexists _, _. split; [exact Hval|].
    destruct (beam_states_beams_at score vocabulary beams Hvoc Hbeams words_count
      (length (TF.dynamic_decode
         (Lemmas.beam_search_decoder score vocabulary beams words_count eow)
         (Lemmas.maximum_iterations charseq_lens)))) as [Hl Hf].
    unfold bounded.
    split; [by apply heads_shaped|]. split; [done|]. split; [done|].
    split; [by rewrite length_map|].
    apply Forall_fmap. eapply Forall_impl; [exact Hf|]. simpl.
    intros bs [Hne Hlen].
    pose proof (first_occ_le eow (nth 0 bs [])) as Hk.
    destruct bs as [|b bs]; [done|]. simpl in *.
    apply Forall_cons in Hlen as [Hb _]. unfold bound. lia.
Qed.

Lemma inference_decoding_bounded_witness :
  ∃ lp lpl,
    Lemmas.beam_predict (λ _ b, inject_Z (- Z.of_nat (length b))) [0; 1] 2 1 1 [3]
      = Some (lp, lpl)
    ∧ Forall (λ l, l - 1 ≤ 13) lpl.
Proof.
  destruct (inference_decoding_bounded
              (λ (ids : list Z) (s : unit), (map (λ _, [0%Q; 1%Q]) ids, s)) tt
              (λ _ b, inject_Z (- Z.of_nat (length b))) [0; 1] 2 0 1 1 [3])
    as [_ (_ & lp & lpl & Hp & _ & _ & _ & _ & Hf)];
    [done | lia | lia | simpl; lia | simpl; lia |].
  exists lp, lpl. split; [exact Hp|]. exact Hf.
Defined.

(** ** The lengths recorded by the greedy decode *)

Section greedy_facts.
Import Tensor TF Lemmas.
Context {State : Type}.
Variable cell : list Z → State → list (list Q) * State.
Variable start : list Z.
Variable eow : Z.
Variable s0 : State.
Variable wc : nat.
Hypothesis cell_batch : ∀ ids s, length (cell ids s).1 = length ids.

Lemma greedy_trace_lengths fuel k : ∀ t fin inp s,
  length fin = wc → length inp = wc → (k < wc)%nat → fin !! k = Some false →
  let trace := decode_loop (greedy_decoder cell start eow s0) fuel t fin inp s in
  steps_until_finished k trace
  = (S (first_occ eow (map (λ x, Z.of_nat (argmax (nth k x.1.2 []))) trace))
       `min` length trace)%nat.
Proof.
  induction fuel as [|n IH]; intros t fin inp s Hfin Hinp Hk Hfk; [done|].
  cbn [decode_loop]. destruct (forallb _ fin); [done|].
  cbn [greedy_decoder step].
  pose proof (cell_batch inp s) as Hout.
  destruct (cell inp s) as [out s']. simpl in Hout.
  set (sample_ids := map (λ logits, Z.of_nat (argmax logits)) out).
  set (fin' := zip_with orb (map (λ c, c =? eow) sample_ids) fin).
  assert (length sample_ids = wc) as Hsamp
    by (unfold sample_ids; rewrite length_map; lia).
  assert (length fin' = wc) as Hfin'
    by (unfold fin'; rewrite length_zip_with, length_map; lia).
  destruct (lookup_lt_is_Some_2 out k) as [logits Hlog]; [lia|].
  assert (fin' !! k = Some (Z.of_nat (argmax logits) =? eow)) as Hfk'.
  { unfold fin', sample_ids. rewrite lookup_zip_with, !list_lookup_fmap, Hlog, Hfk.
    simpl. by rewrite orb_false_r. }
  cbn [steps_until_finished map length fst snd first_occ].
  rewrite (nth_lookup_Some _ _ _ _ Hfk'), (nth_lookup_Some _ _ _ _ Hlog).
  rewrite (Z.eqb_sym eow).
  destruct (Z.of_nat (argmax logits) =? eow) eqn:E; [lia|].
  specialize (IH (S t) fin' sample_ids s' Hfin' Hsamp Hk Hfk').
  cbv zeta in IH. rewrite IH. lia.
Qed.

End greedy_facts.

Lemma greedy_predict_lengths {State : Type}
    (pred_cell : list Z → State → list (list Q) * State) (pred_initial_state : State)
    (bow eow : Z) (words_count : nat) (charseq_lens : list Z) (k : nat) :
  (∀ ids s, length (pred_cell ids s).1 = length ids) →
  (k < words_count)%nat →
  ∃ row len,
    Tensor.cells (Lemmas.greedy_predict pred_cell pred_initial_state bow eow
                    words_count charseq_lens).1 !! k = Some row
    ∧ (Lemmas.greedy_predict pred_cell pred_initial_state bow eow
         words_count charseq_lens).2 !! k = Some len
    ∧ ((Tensor.first_occ eow row < length row)%nat →
       len = 1 + Z.of_nat (Tensor.first_occ eow row))
    ∧ (Tensor.first_occ eow row = length row → len = Z.of_nat (length row)).
Proof.
  intros Hcell Hk. unfold Lemmas.greedy_predict. cbn [fst snd Tensor.cells].
  set (trace := TF.dynamic_decode _ _).
  eexists _, _. split; [|split].
  - rewrite list_lookup_fmap, lookup_seq_lt by done. done.
  - rewrite list_lookup_fmap, lookup_seq_lt by done. done.
  - cbn [Nat.add].
    assert (map (λ '(_, out, _), Z.of_nat (TF.argmax (nth k out []))) trace
            = map (λ x, Z.of_nat (TF.argmax (nth k x.1.2 []))) trace) as ->.
    { apply map_ext. by intros [[i o] f]. }
    pose proof (greedy_trace_lengths pred_cell (replicate words_count bow) eow
                  pred_initial_state words_count Hcell
                  (Z.to_nat (Lemmas.maximum_iterations charseq_lens)) k O
                  (map (λ _, false) (replicate words_count bow))
                  (replicate words_count bow) pred_initial_state) as Hlen.
    change (TF.decode_loop _ _ _ _ _ _) with trace in Hlen.
    cbv zeta in Hlen. rewrite Hlen.
    + rewrite length_map. split; lia.
    + by rewrite length_map, length_replicate.
    + by rewrite length_replicate.
    + done.
    + rewrite list_lookup_fmap, lookup_replicate_2 by done. done.
Qed.

Lemma beam_search_run
    (score : nat → list Z → Q) (vocabulary : list Z) (beams : nat)
    (eow : Z) (words_count : nat) (charseq_lens : list Z) :
  vocabulary ≠ [] → (0 < beams)%nat → (0 < words_count)%nat →
  0 ≤ TF.reduce_max charseq_lens → TF.reduce_max charseq_lens + 10 < 2 ^ 31 - 1 →
  let step := Lemmas.beam_step score vocabulary beams in
  let start := replicate words_count [[]] in
  let trace :=
    TF.dynamic_decode (Lemmas.beam_search_decoder score vocabulary beams words_count eow)
      (Lemmas.maximum_iterations charseq_lens) in
  (∀ t inp out fin, trace !! t = Some (inp, out, fin) →
     out = step (Nat.iter t step start)
     ∧ ∀ w kept, out !! w = Some kept →
         ∃ previous, Nat.iter t step start !! w = Some previous
           ∧ length kept
             = (beams `min` length (Lemmas.candidates vocabulary previous))%nat
           ∧ ∃ dropped,
               Lemmas.candidates vocabulary previous ≡ₚ kept ++ dropped
               ∧ ∀ a b, a ∈ kept → b ∈ dropped → (score w b <= score w a)%Q)
  ∧ ∃ lemma_predictions lemma_prediction_lengths,
      Lemmas.beam_predict score vocabulary beams eow words_count charseq_lens
        = Some (lemma_predictions, lemma_prediction_lengths)
      ∧ ∀ w, (w < words_count)%nat →
          ∃ kept best len,
            Nat.iter (length trace) step start !! w = Some kept
            ∧ kept !! O = Some best
            ∧ (∀ b, b ∈ kept → (score w b <= score w best)%Q)
            ∧ Tensor.cells lemma_predictions !! w = Some best
            ∧ lemma_prediction_lengths !! w = Some (1 + len)
            ∧ length best = length trace
            ∧ FindFirst.first_or_len eow best len.
Proof.
  intros Hvoc Hbeams Hwc Hmax Hsmall step start trace.
  split.
  - intros t inp out fin Ht.
    pose proof (beam_trace_output score vocabulary beams words_count eow _ _ _ _ _ _ Ht)
      as Hout.
    cbn [fst snd] in Hout. change (out = step (Nat.iter t step start)) in Hout.
    split; [done|]. intros w kept Hkept. rewrite Hout in Hkept.
    apply beam_step_lookup in Hkept as (previous & Hprev & ->).
    exists previous. split; [done|].
    destruct (retain_top_k score beams w (Lemmas.candidates vocabulary previous))
      as (Hlen & _ & Hdropped).
    by split.
  - destruct (beam_predict_value score vocabulary beams Hvoc Hbeams eow
                words_count charseq_lens Hwc Hmax Hsmall) as (Hpos & Hle & Hval).
    fold trace step start in Hpos, Hle, Hval.
    eexists _, _. split; [exact Hval|]. intros w Hw.
    destruct (beam_states_beams_at score vocabulary beams Hvoc Hbeams words_count
                (length trace)) as [Hl Hf].
    fold step start in Hl, Hf.
    destruct (lookup_lt_is_Some_2 (Nat.iter (length trace) step start) w) as [kept Hkept];
      [lia|].
    pose proof (proj1 (Forall_lookup _ _) Hf w kept Hkept) as [Hne Hlen].
    destruct kept as [|best rest]; [done|].
    exists (best :: rest), best, (Z.of_nat (Tensor.first_occ eow best)).
    split; [done|]. split; [done|]. split.
    { destruct (length trace) as [|n] eqn:En; [lia|].
      cbn [Nat.iter nat_rect] in Hkept.
      apply beam_step_lookup in Hkept as (previous & _ & Hret).
      apply (best_first score). rewrite Hret.
      by destruct (retain_top_k score beams w (Lemmas.candidates vocabulary previous))
        as (_ & Hsorted & _). }
    simpl. rewrite !list_lookup_fmap, Hkept. simpl.
    split; [done|]. split; [done|].
    split; [by apply Forall_cons in Hlen as [? _]|].
    apply first_occ_first_or_len.
Qed.

(** C2, as the code has it.  The inference branch of [decode_lemmas] is
    chosen by [--beams].  With a positive number of beams, every decoding
    step retains, for every word, the [beams] best-scoring extensions of the
    partial sequences retained so far (no dropped extension scores higher
    than a retained one); the lemma returned for a word is beam 0 of the
    final beams, which scores highest among them; and the recorded
    prediction length is one plus the position of the first [eow] in that
    beam (one plus the number of steps when the beam has no [eow]).
    Without [--beams] (the default) or with 0 beams, the lemma is decoded
    greedily, and the recorded prediction length of a word is one plus the
    position of the first [eow] among its predicted ids when there is one,
    and the number of predicted ids, not one more, when there is none. *)
Theorem beam_search_prediction {State : Type}
    (pred_cell : list Z → State → list (list Q) * State) (pred_initial_state : State)
    (score : nat → list Z → Q) (vocabulary : list Z) (beams : option nat)
    (bow eow : Z) (words_count : nat) (charseq_lens : list Z) :
  (∀ k, beams = Some (S k) →
     vocabulary ≠ [] → (0 < words_count)%nat →
     0 ≤ TF.reduce_max charseq_lens →
     TF.reduce_max charseq_lens + 10 < 2 ^ 31 - 1 →
     let step := Lemmas.beam_step score vocabulary (S k) in
     let start := replicate words_count [[]] in
     let trace :=
       TF.dynamic_decode
         (Lemmas.beam_search_decoder score vocabulary (S k) words_count eow)
         (Lemmas.maximum_iterations charseq_lens) in
     (∀ t inp out fin, trace !! t = Some (inp, out, fin) →
        out = step (Nat.iter t step start)
        ∧ ∀ w kept, out !! w = Some kept →
            ∃ previous, Nat.iter t step start !! w = Some previous
              ∧ length kept
                = (S k `min` length (Lemmas.candidates vocabulary previous))%nat
              ∧ ∃ dropped,
                  Lemmas.candidates vocabulary previous ≡ₚ kept ++ dropped
                  ∧ ∀ a b, a ∈ kept → b ∈ dropped → (score w b <= score w a)%Q)
     ∧ ∃ lemma_predictions lemma_prediction_lengths,
         Lemmas.predict_lemmas beams pred_cell pred_initial_state score vocabulary
           bow eow words_count charseq_lens
           = Some (lemma_predictions, lemma_prediction_lengths)
         ∧ ∀ w, (w < words_count)%nat →
             ∃ kept best len,
               Nat.iter (length trace) step start !! w = Some kept
               ∧ kept !! O = Some best
               ∧ (∀ b, b ∈ kept → (score w b <= score w best)%Q)
               ∧ Tensor.cells lemma_predictions !! w = Some best
               ∧ lemma_prediction_lengths !! w = Some (1 + len)
               ∧ length best = length trace
               ∧ FindFirst.first_or_len eow best len)
  ∧ (beams = None ∨ beams = Some O →
     (∀ ids s, length (pred_cell ids s).1 = length ids) →
     ∃ lemma_predictions lemma_prediction_lengths,
       Lemmas.predict_lemmas beams pred_cell pred_initial_state score vocabulary
         bow eow words_count charseq_lens
         = Some (lemma_predictions, lemma_prediction_lengths)
       ∧ (lemma_predictions, lemma_prediction_lengths)
         = Lemmas.greedy_predict pred_cell pred_initial_state bow eow words_count
             charseq_lens
       ∧ ∀ w, (w < words_count)%nat →
           ∃ row len,
             Tensor.cells lemma_predictions !! w = Some row
             ∧ lemma_prediction_lengths !! w = Some len
             ∧ ((Tensor.first_occ eow row < length row)%nat →
                len = 1 + Z.of_nat (Tensor.first_occ eow row))
             ∧ (Tensor.first_occ eow row = length row →
                len = Z.of_nat (length row))).
Proof.
  split.
  - intros k -> Hvoc Hwc Hmax Hsmall.
    exact (beam_search_run score vocabulary (S k) eow words_count charseq_lens
             Hvoc ltac:(lia) Hwc Hmax Hsmall).
  - intros Hbeams Hcell.
    exists (Lemmas.greedy_predict pred_cell pred_initial_state bow eow words_count
              charseq_lens).1,
           (Lemmas.greedy_predict pred_cell pred_initial_state bow eow words_count
              charseq_lens).2.
    split; [|split].
    + destruct Hbeams as [-> | ->]; unfold Lemmas.predict_lemmas; f_equal;
        apply surjective_pairing.
    + symmetry. apply surjective_pairing.
    + intros w Hw. by apply greedy_predict_lengths.
Qed.

Lemma beam_search_prediction_witness :
  ∃ lemma_predictions lemma_prediction_lengths,
    Lemmas.predict_lemmas (Some 2%nat)
      (λ (ids : list Z) (s : unit), (map (λ _, [0%Q; 1%Q]) ids, s)) tt
      (λ _ b, inject_Z (- Z.of_nat (length b))) [0; 1] 0 1 1 [3]
      = Some (lemma_predictions, lemma_prediction_lengths).
Proof.
  destruct (proj1 (beam_search_prediction
              (λ (ids : list Z) (s : unit), (map (λ _, [0%Q; 1%Q]) ids, s)) tt
              (λ _ b, inject_Z (- Z.of_nat (length b))) [0; 1] (Some 2%nat)
              0 1 1 [3]) 1%nat eq_refl)
    as [_ (lp & lpl & Hp & _)];
    [done | lia | simpl; lia | simpl; lia |].
  by exists lp, lpl.
Defined.

(** C2, where it fails as stated.  A run without [--beams], the default:
    one word, whose greedy decode never predicts [eow] (id 2) and is cut
    after the 11 steps allowed for word forms of one character.  The
    recorded prediction length is 11, the number of steps, and not one plus
    the position that [find_first] gives for [eow], which is 12. *)
Lemma greedy_run_without_beams :
  ∃ lemma_predictions lemma_prediction_lengths,
    Lemmas.predict_lemmas None
      (λ (ids : list Z) (s : unit), (map (λ _, [0%Q; 1%Q; 0%Q]) ids, s)) tt
      (λ _ b, inject_Z (- Z.of_nat (length b))) [0; 1; 2] 0 2 1 [1]
      = Some (lemma_predictions, lemma_prediction_lengths)
    ∧ Tensor.cells lemma_predictions = [replicate 11 1]
    ∧ lemma_prediction_lengths = [11]
    ∧ FindFirst.beam_prediction_lengths lemma_predictions 2 = Some [12]
    ∧ FindFirst.beam_prediction_lengths lemma_predictions 2
      ≠ Some lemma_prediction_lengths.
Proof.
  eexists _, _. split; [by vm_compute|].
  split; [done|]. split; [done|]. split; [by vm_compute|].
  by vm_compute.
Qed.

(** ** Network.predict *)

Section predict_facts.
Import Py Tags Predict.
Variable builtin_sense : bool.
Variable tag_words alphabet sense_words : list string.

#[local] Abbreviation predict_word := (Predict.predict_word builtin_sense alphabet sense_words).
#[local] Abbreviation word_lemma := (Predict.word_lemma builtin_sense alphabet sense_words).
#[local] Abbreviation predict_sentences :=
  (Predict.predict_sentences builtin_sense alphabet sense_words).

Lemma bind_Some_iff {A B : Type} (f : A → option B) (o : option A) (y : B) :
  o ≫= f = Some y ↔ ∃ x, o = Some x ∧ f x = Some y.
Proof.
  destruct o as [x|]; simpl.
  - split; [eauto | by intros (? & [= <-] & ?)].
  - split; [done | by intros (? & ? & ?)].
Qed.

Lemma lemma_chars_iff lp k len chars :
  lemma_chars alphabet lp k len = Some chars
  ↔ Forall2 (λ j ch, ∃ row c, lp !! k = Some row ∧ row !! j = Some c
                              ∧ py_index alphabet c = Some ch)
      (seq 0 (Z.to_nat (len - 1))) chars.
Proof.
  unfold lemma_chars. rewrite mapM_Some.
  split; intros H; eapply Forall2_impl; try exact H; intros j ch; simpl.
  - rewrite bind_Some_iff. setoid_rewrite bind_Some_iff.
    intros (row & Hrow & c & Hc & Hch). eauto 6.
  - intros (row & c & Hrow & Hc & Hch). rewrite Hrow. simpl. by rewrite Hc.
Qed.

Lemma append_empty (s : string) : (s +:+ EmptyString)%string = s.
Proof.
  induction s as [|c s IH]; [done|].
  change (String c (s +:+ EmptyString) = String c s)%string. by rewrite IH.
Qed.

Lemma sense_suffix_iff sense suffix :
  sense_suffix sense_words sense = Some suffix
  ↔ if decide (0 < sense)
    then ∃ sword, py_index sense_words sense = Some sword
           ∧ suffix = if decide (sword ≠ EmptyString ∧ sword ≠ "<pad>"%string)
                      then ("-" +:+ sword)%string else EmptyString
    else suffix = EmptyString.
Proof.
  unfold sense_suffix.
  destruct (decide (0 < sense)) as [Hpos|Hneg];
    [rewrite (proj2 (Z.ltb_lt 0 sense) Hpos)
    |rewrite (proj2 (Z.ltb_ge 0 sense) ltac:(lia))].
  - rewrite bind_Some_iff. split.
    + intros (sword & Hs & Hsuf). exists sword. split; [done|].
      destruct (decide _); congruence.
    + intros (sword & Hs & ->). exists sword. split; [done|].
      by destruct (decide _).
  - naive_solver.
Qed.

Lemma predict_word_iff lp lpl senses k lemma :
  predict_word lp lpl senses k = Some lemma ↔ word_lemma lp lpl senses k lemma.
Proof.
  unfold Predict.predict_word, Predict.word_lemma.
  rewrite bind_Some_iff. setoid_rewrite bind_Some_iff.
  setoid_rewrite lemma_chars_iff.
  destruct builtin_sense.
  - split.
    + intros (len & Hlen & chars & Hchars & [= <-]).
      exists len, chars, EmptyString. by rewrite append_empty.
    + intros (len & chars & suffix & Hlen & Hchars & -> & ->).
      exists len. split; [done|]. exists chars. split; [done|].
      by rewrite append_empty.
  - setoid_rewrite bind_Some_iff. setoid_rewrite bind_Some_iff.
    setoid_rewrite sense_suffix_iff. split.
    + intros (len & Hlen & chars & Hchars & sense & Hsense & suffix & Hsuf & [= <-]).
      exists len, chars, suffix.
      split; [done|]. split; [done|]. split; [done|]. by exists sense.
    + intros (len & chars & suffix & Hlen & Hchars & -> & sense & Hsense & Hsuf).
      exists len. split; [done|]. exists chars. split; [done|].
      exists sense. split; [done|]. by exists suffix.
Qed.

Lemma predict_word_drop o lp lpl senses i :
  predict_word (drop o lp) (drop o lpl) (drop o senses) i
  = predict_word lp lpl senses (o + i).
Proof.
  unfold Predict.predict_word, lemma_chars. by rewrite !lookup_drop.
Qed.

(** The loop over the sentences: it succeeds exactly when [lpl] has one
    entry per word form and every word form gets its lemma. *)
Lemma predict_sentences_iff lens : ∀ lp lpl senses lemmas,
  predict_sentences lens lp lpl senses = Some lemmas
  ↔ length lpl = sum_list lens
    ∧ Forall2 (λ ls len, length ls = len) lemmas lens
    ∧ ∀ s i ls lemma, lemmas !! s = Some ls → ls !! i = Some lemma →
        predict_word lp lpl senses (sum_list (take s lens) + i) = Some lemma.
Proof.
  induction lens as [|len lens IH]; intros lp lpl senses lemmas; simpl.
  - destruct (decide (length lpl = O)) as [Hz|Hnz].
    + split.
      * intros [= <-]. split; [done|]. split; [constructor|].
        intros s i ls lemma. by rewrite lookup_nil.
      * intros (_ & Hf & _). by apply Forall2_nil_inv_r in Hf as ->.
    + split; [done|]. by intros (? & _).
  - split.
    + intros H. apply bind_Some_iff in H as (ls0 & Hls0 & H).
      apply bind_Some_iff in H as (rest & Hrest & [= <-]).
      apply mapM_Some in Hls0.
      apply IH in Hrest as (Hlen & Hshape & Hwords).
      rewrite length_drop in Hlen.
      pose proof (Forall2_length _ _ _ Hls0) as Hl0. rewrite length_seq in Hl0.
      assert (len ≤ length lpl)%nat as Hle.
      { destruct len as [|n]; [lia|].
        assert (seq 0 (S n) !! n = Some n) as Hn by (apply lookup_seq_lt; lia).
        destruct (Forall2_lookup_l _ _ _ _ _ Hls0 Hn) as (lemma & _ & Hw).
        unfold Predict.predict_word in Hw.
        destruct (lpl !! n) as [l|] eqn:El; [|done].
        apply lookup_lt_Some in El. lia. }
      split; [lia|]. split; [by constructor|].
      intros [|s] i ls lemma Hs Hi; simpl in Hs.
      * injection Hs as <-.
        pose proof (lookup_lt_Some _ _ _ Hi) as Hlt.
        assert (seq 0 len !! i = Some i) as Hsi by (apply lookup_seq_lt; lia).
        exact (Forall2_lookup_lr _ _ _ _ _ _ Hls0 Hsi Hi).
      * change (sum_list (take (S s) (len :: lens)))
          with (len + sum_list (take s lens))%nat.
        rewrite <- Nat.add_assoc, <- predict_word_drop. by eapply Hwords.
    + intros (Hlen & Hshape & Hwords).
      apply Forall2_cons_inv_r in Hshape as (ls0 & rest & Hl0 & Hshape & ->).
      apply bind_Some_iff. exists ls0. split.
      * apply mapM_Some, Forall2_same_length_lookup_2; [by rewrite length_seq|].
        intros i j lemma Hj Hi.
        apply lookup_seq in Hj as [-> _].
        by apply (Hwords O i ls0 lemma).
      * apply bind_Some_iff. exists rest. split; [|done].
        apply IH. rewrite length_drop. split; [lia|]. split; [done|].
        intros s i ls lemma Hs Hi. rewrite predict_word_drop, Nat.add_assoc.
        by apply (Hwords (S s) i ls lemma).
Qed.

Lemma decode_iff words tags out :
  decode words tags = Some out
  ↔ Forall2 (Forall2 (λ t tag, ∃ tag0, head tag = Some tag0
                                      ∧ py_index words tag0 = Some t)) out tags.
Proof.
  unfold decode. rewrite mapM_Some, <- Forall2_flip.
  split; intros H; eapply Forall2_impl; try exact H; unfold flip; simpl;
    intros ts row; rewrite mapM_Some, <- Forall2_flip;
    intros H'; eapply Forall2_impl; try exact H'; unfold flip; simpl;
    intros t tag.
  - rewrite bind_Some_iff. done.
  - intros (tag0 & -> & Ht). done.
Qed.

Lemma predict_batch_iff b lemmas tags :
  predict_batch builtin_sense tag_words alphabet sense_words b = Some (lemmas, tags)
  ↔ batch_result builtin_sense tag_words alphabet sense_words b lemmas tags.
Proof.
  unfold predict_batch, batch_result. split.
  - intros H. apply bind_Some_iff in H as (tags' & Htags & H).
    apply bind_Some_iff in H as (lemmas' & Hlemmas & [= <- <-]).
    apply decode_iff in Htags.
    apply predict_sentences_iff in Hlemmas as (Hlen & Hshape & Hwords).
    split; [done|]. split; [done|]. split; [|done].
    intros s i ls lemma Hs Hi. apply predict_word_iff. by eapply Hwords.
  - intros (Hlen & Hshape & Hwords & Htags).
    apply bind_Some_iff. exists tags. split; [by apply decode_iff|].
    apply bind_Some_iff. exists lemmas. split; [|done].
    apply predict_sentences_iff. split; [done|]. split; [done|].
    intros s i ls lemma Hs Hi. apply predict_word_iff. by eapply Hwords.
Qed.

(** Every word form of a batch has its lemma and its tag: the tag words of
    a sentence are at least as many as its word forms when its row of tag
    predictions is at least as wide as the sentence. *)
Lemma predict_batch_word_forms b lemmas tags s len row :
  predict_batch builtin_sense tag_words alphabet sense_words b = Some (lemmas, tags) →
  sentence_lens b !! s = Some len → tp b !! s = Some row → (len ≤ length row)%nat →
  ∃ ls ts, lemmas !! s = Some ls ∧ tags !! s = Some ts
           ∧ length ls = len ∧ (len ≤ length ts)%nat.
Proof.
  intros (_ & Hshape & _ & Htags)%predict_batch_iff Hlen Hrow Hwide.
  destruct (Forall2_lookup_r _ _ _ _ _ Hshape Hlen) as (ls & Hls & Hl).
  destruct (Forall2_lookup_r _ _ _ _ _ Htags Hrow) as (ts & Hts & Ht).
  exists ls, ts. split; [done|]. split; [done|]. split; [done|].
  apply Forall2_length in Ht. lia.
Qed.

(** Under the shape of the graph, every sentence of a batch gets as many
    tag words as the batch is wide. *)
Lemma padded_tag_rows b lemmas tags width :
  batch_result builtin_sense tag_words alphabet sense_words b lemmas tags →
  padded b width →
  Forall2 (λ (ts ls : list string), length ts = width ∧ (length ls ≤ width)%nat)
    tags lemmas.
Proof.
  intros (_ & Hshape & _ & Htags) Hpad.
  apply Forall2_same_length_lookup_2.
  - apply Forall2_length in Hshape, Htags, Hpad. lia.
  - intros s ts ls Hts Hls.
    destruct (Forall2_lookup_l _ _ _ _ _ Htags Hts) as (row & Hrow & Hlen).
    destruct (Forall2_lookup_l _ _ _ _ _ Hshape Hls) as (len & Hl & Hll).
    destruct (Forall2_lookup_lr _ _ _ _ _ _ Hpad Hrow Hl) as [Hw Hle].
    apply Forall2_length in Hlen. lia.
Qed.

(** When the recorded length of a word is one plus the position of the
    first [eow] among its predicted ids, the ids joined are those before
    that [eow]. *)
Lemma word_lemma_before_eow lp lpl senses k lemma row eow :
  word_lemma lp lpl senses k lemma → lp !! k = Some row →
  lpl !! k = Some (1 + Z.of_nat (Tensor.first_occ eow row)) →
  ∃ chars suffix,
    Forall2 (λ c ch, py_index alphabet c = Some ch)
      (take (Tensor.first_occ eow row) row) chars
    ∧ lemma = (join chars +:+ suffix)%string
    ∧ if builtin_sense then suffix = EmptyString
      else ∃ sense, senses !! k = Some sense
             ∧ if decide (0 < sense)
               then ∃ sword, py_index sense_words sense = Some sword
                      ∧ suffix = if decide (sword ≠ EmptyString ∧ sword ≠ "<pad>"%string)
                                 then ("-" +:+ sword)%string else EmptyString
               else suffix = EmptyString.
Proof.
  intros (len & chars & suffix & Hlen & Hchars & -> & Hsuffix) Hrow Hlpl.
  rewrite Hlpl in Hlen. injection Hlen as <-.
  replace (Z.to_nat (1 + Z.of_nat (Tensor.first_occ eow row) - 1))
    with (Tensor.first_occ eow row) in Hchars by lia.
  exists chars, suffix. split; [|by split].
  pose proof (first_occ_le eow row) as Hle.
  apply Forall2_same_length_lookup_2.
  - apply Forall2_length in Hchars. rewrite length_seq in Hchars.
    rewrite length_take. lia.
  - intros i c ch [Hc Hi]%lookup_take_Some Hch.
    assert (seq 0 (Tensor.first_occ eow row) !! i = Some i) as Hseq
      by (by apply lookup_seq_lt).
    destruct (Forall2_lookup_lr _ _ _ _ _ _ Hchars Hseq Hch)
      as (row' & c' & Hrow' & Hc' & Hpy).
    congruence.
Qed.

End predict_facts.

(** C1, as the code has it.  [predict] returns [(lemmas, tags)] exactly when
    every batch has a result of the following form, and then returns the
    batches' results one after the other: [lemmas] holds, for each sentence,
    one lemma string per word form; [tags] holds, for each sentence, one tag
    word per entry of the sentence's row of tag predictions.  With the shape
    that the graph gives the tag predictions (a row per sentence, as wide as
    the batch), every sentence gets as many tag words as the batch is wide,
    so a sentence shorter than that gets more tag words than it has word
    forms.  The lemma string is the join of the alphabet entries of the
    first [lpl - 1] predicted ids; when [lpl] is one plus the position of
    the first [eow] among the predicted ids of the word, these are the ids
    before that [eow], which is not among them and is the id right after
    them when the row holds it.  When [builtin_sense] is off and the sense
    index is positive with a sense word that is neither empty nor
    ["<pad>"], the lemma ends in a dash and that word. *)
Theorem predict_lemmas_and_tags (builtin_sense : bool)
    (tag_words alphabet sense_words : list string)
    (batches : list Predict.batch) (lemmas tags : list (list string)) :
  (Predict.predict builtin_sense tag_words alphabet sense_words batches
     = Some (lemmas, tags)
   ↔ ∃ results : list (list (list string) * list (list string)),
       Forall2 (λ b r, Predict.batch_result builtin_sense tag_words alphabet
                         sense_words b r.1 r.2) batches results
       ∧ lemmas = concat (fst <$> results)
       ∧ tags = concat (snd <$> results))
  ∧ (∀ b lemmas_b tags_b width,
       Predict.batch_result builtin_sense tag_words alphabet sense_words
         b lemmas_b tags_b →
       Predict.padded b width →
       Forall2 (λ ls len, length ls = len) lemmas_b (Predict.sentence_lens b)
       ∧ Forall2 (λ (ts ls : list string),
                    length ts = width ∧ (length ls ≤ width)%nat
                    ∧ ((length ls < width)%nat → (length ls < length ts)%nat))
           tags_b lemmas_b)
  ∧ (∀ lp lpl senses k lemma row eow,
       Predict.word_lemma builtin_sense alphabet sense_words lp lpl senses k lemma →
       lp !! k = Some row →
       lpl !! k = Some (1 + Z.of_nat (Tensor.first_occ eow row)) →
       (eow ∉ take (Tensor.first_occ eow row) row)
       ∧ ((Tensor.first_occ eow row < length row)%nat →
          row !! Tensor.first_occ eow row = Some eow)
       ∧ ∃ chars suffix,
           Forall2 (λ c ch, Py.py_index alphabet c = Some ch)
             (take (Tensor.first_occ eow row) row) chars
           ∧ lemma = (Py.join chars +:+ suffix)%string
           ∧ if builtin_sense then suffix = EmptyString
             else ∃ sense, senses !! k = Some sense
                    ∧ if decide (0 < sense)
                      then ∃ sword, Py.py_index sense_words sense = Some sword
                             ∧ suffix
                               = if decide (sword ≠ EmptyString
                                            ∧ sword ≠ "<pad>"%string)
                                 then ("-" +:+ sword)%string else EmptyString
                      else suffix = EmptyString).
Proof.
  split; [|split].
  - revert lemmas tags.
    induction batches as [|b batches IH]; intros lemmas tags.
    + simpl. split.
      * intros [= <- <-]. exists []. by repeat split; try constructor.
      * intros (results & Hres & -> & ->).
        by apply Forall2_nil_inv_l in Hres as ->.
    + cbn [Predict.predict]. split.
      * intros H. apply bind_Some_iff in H as ([lb tb] & Hb & H).
        apply bind_Some_iff in H as ([lr tr] & Hr & [= <- <-]).
        apply predict_batch_iff in Hb.
        apply IH in Hr as (results & Hres & -> & ->).
        exists ((lb, tb) :: results). by repeat split; try constructor.
      * intros (results & Hres & -> & ->).
        apply Forall2_cons_inv_l in Hres as ([lb tb] & results' & Hb & Hres & ->).
        apply bind_Some_iff. exists (lb, tb). split; [by apply predict_batch_iff|].
        apply bind_Some_iff. exists (concat results'.*1, concat results'.*2).
        split; [|done]. apply IH. by exists results'.
  - intros b lemmas_b tags_b width Hres Hpad. split.
    + by destruct Hres as (_ & Hshape & _).
    + eapply Forall2_impl;
        [exact (padded_tag_rows _ _ _ _ b lemmas_b tags_b width Hres Hpad)|].
      intros ts ls [Hts Hls]. split; [done|]. split; [done|]. lia.
  - intros lp lpl senses k lemma row eow Hword Hrow Hlpl.
    split; [apply take_first_occ_clean|]. split; [apply first_occ_hit|].
    by eapply word_lemma_before_eow.
Qed.

Lemma predict_lemmas_and_tags_witness :
  ∃ lemmas tags,
    Predict.predict false ["<pad>"; "N"; "V"]%string
      ["<pad>"; "<unk>"; "<bow>"; "<eow>"; "a"; "b"; "c"]%string
      ["<pad>"; "<pad>"; "x"]%string
      [Predict.Batch [1%nat; 2%nat] [[[1]; [0]]; [[2]; [1]]]
         [[4; 5; 3; 0]; [3; 0; 0; 0]; [6; 3; 0; 0]] [3; 1; 2] [0; 1; 2]]
    = Some (lemmas, tags)
    ∧ Forall2 (λ (ts ls : list string),
                 length ts = 2%nat ∧ (length ls ≤ 2)%nat
                 ∧ ((length ls < 2)%nat → (length ls < length ts)%nat))
        tags lemmas.
Proof.
  set (b := Predict.Batch [1%nat; 2%nat] [[[1]; [0]]; [[2]; [1]]]
              [[4; 5; 3; 0]; [3; 0; 0; 0]; [6; 3; 0; 0]] [3; 1; 2] [0; 1; 2]).
  exists [["ab"]; [EmptyString; "c-x"]]%string, [["N"; "<pad>"]; ["V"; "N"]]%string.
  assert (Predict.predict false ["<pad>"; "N"; "V"]%string
            ["<pad>"; "<unk>"; "<bow>"; "<eow>"; "a"; "b"; "c"]%string
            ["<pad>"; "<pad>"; "x"]%string [b]
          = Some ([["ab"]; [EmptyString; "c-x"]]%string,
                  [["N"; "<pad>"]; ["V"; "N"]]%string)) as Hp by (by vm_compute).
  split; [exact Hp|].
  destruct (predict_lemmas_and_tags false ["<pad>"; "N"; "V"]%string
              ["<pad>"; "<unk>"; "<bow>"; "<eow>"; "a"; "b"; "c"]%string
              ["<pad>"; "<pad>"; "x"]%string [b]
              [["ab"]; [EmptyString; "c-x"]]%string
              [["N"; "<pad>"]; ["V"; "N"]]%string) as (Hiff & Hshape & _).
  apply Hiff in Hp as (results & Hres & Hl & Ht).
  apply Forall2_cons_inv_l in Hres as ([lb tb] & results' & Hb & Hres & ->).
  apply Forall2_nil_inv_l in Hres as ->. simpl in Hl, Ht, Hb.
  rewrite app_nil_r in Hl, Ht. subst lb tb.
  apply (Hshape b _ _ 2%nat Hb).
  repeat first [ by (split; simpl; lia) | constructor ].
Defined.

(** C1, where it fails as stated.  A batch of two sentences, of one and of
    two word forms: the rows of tag predictions are two wide, and [predict]
    returns two tag words for the sentence of one word form. *)
Lemma predict_tags_padded :
  let b := Predict.Batch [1%nat; 2%nat] [[[1]; [0]]; [[2]; [1]]]
             [[4; 5; 3; 0]; [3; 0; 0; 0]; [6; 3; 0; 0]] [3; 1; 2] [0; 1; 2] in
  let tag_words := ["<pad>"; "N"; "V"]%string in
  let alphabet := ["<pad>"; "<unk>"; "<bow>"; "<eow>"; "a"; "b"; "c"]%string in
  let sense_words := ["<pad>"; "<pad>"; "x"]%string in
  ∃ lemmas tags,
    Predict.predict false tag_words alphabet sense_words [b] = Some (lemmas, tags)
    ∧ lemmas = [["ab"]; [EmptyString; "c-x"]]%string
    ∧ tags = [["N"; "<pad>"]; ["V"; "N"]]%string
    ∧ ¬ Predict.one_tag_per_word_form b tags.
Proof.
  intros b tag_words alphabet sense_words.
  eexists _, _. split; [by vm_compute|]. split; [done|]. split; [done|].
  intros H. apply Forall2_cons_1 in H as [H _]. simpl in H. lia.
Qed.

(** ** CharTags *)

Section chartags_facts.
Import Py Tags.

Lemma py_index_nonneg {A : Type} (l : list A) (i : Z) :
  0 ≤ i → py_index l i = l !! Z.to_nat i.
Proof. intros Hi. unfold py_index. by rewrite (proj2 (Z.leb_le 0 i) Hi). Qed.

Lemma add_char_length maps alphs i ch :
  length (add_char maps alphs i ch).1.1 = length maps.
Proof.
  unfold add_char. destruct (maps !! i) as [m|]; [|done].
  destruct (alphs !! i) as [a|]; [|done].
  destruct (m !! ch); [done|]. simpl. by rewrite length_insert.
Qed.

Lemma add_chars_length chs : ∀ maps alphs i,
  length (add_chars maps alphs i chs).1.1 = length maps
  ∧ length (add_chars maps alphs i chs).2 = length chs.
Proof.
  induction chs as [|ch chs IH]; intros maps alphs i; [done|].
  cbn [add_chars].
  pose proof (add_char_length maps alphs i ch) as Hc.
  destruct (add_char maps alphs i ch) as [[maps1 alphs1] code].
  specialize (IH maps1 alphs1 (S i)).
  destruct (add_chars maps1 alphs1 (S i) chs) as [[maps2 alphs2] codes].
  simpl in *. destruct IH as [-> ->]. by rewrite Hc.
Qed.

Lemma length_chars tag : length (chars tag) = String.length tag.
Proof.
  unfold chars. rewrite length_map.
  induction tag as [|c tag IH]; simpl; [done|]. by rewrite IH.
Qed.

Lemma add_tag_fields ct tag_id tag :
  train_words (add_tag ct tag_id tag) = train_words ct
  ∧ train_alphabet (add_tag ct tag_id tag) = train_alphabet ct
  ∧ taglen (add_tag ct tag_id tag) = taglen ct.
Proof.
  unfold add_tag. destruct (decide _); [|done].
  by destruct (add_chars _ _ _ _) as [[maps alphs] codes].
Qed.

Lemma add_tag_ok ct tag_id tag : chartags_ok ct → chartags_ok (add_tag ct tag_id tag).
Proof.
  intros [Hmaps Hcache]. unfold add_tag.
  destruct (decide (String.length tag = taglen ct)) as [Hlen|]; [|done].
  pose proof (add_chars_length (chars tag) (alphabet_maps ct) (alphabets ct) O)
    as [Hl Hc].
  destruct (add_chars _ _ _ _) as [[maps alphs] codes]. simpl in *.
  split; simpl; [congruence|].
  intros id entry. rewrite lookup_insert. case_decide as Hid.
  - intros [= <-]. subst id. split; [done|]. simpl.
    by rewrite Hc, length_chars, Hlen.
  - apply Hcache.
Qed.

Lemma add_tags_ok tags : ∀ ct tag_id,
  chartags_ok ct →
  chartags_ok (add_tags ct tag_id tags)
  ∧ train_words (add_tags ct tag_id tags) = train_words ct
  ∧ train_alphabet (add_tags ct tag_id tags) = train_alphabet ct
  ∧ taglen (add_tags ct tag_id tags) = taglen ct.
Proof.
  induction tags as [|tag tags IH]; intros ct tag_id Hok; [done|].
  simpl. destruct (IH (add_tag ct tag_id tag) (S tag_id)) as (H1 & H2 & H3 & H4);
    [by apply add_tag_ok|].
  destruct (add_tag_fields ct tag_id tag) as (E1 & E2 & E3).
  split; [done|]. by rewrite H2, H3, H4.
Qed.

Lemma init_ok words alphabet strings ct :
  init words alphabet strings = Some ct →
  chartags_ok ct ∧ train_words ct = words ∧ train_alphabet ct = alphabet.
Proof.
  unfold init. destruct (head strings) as [sentence|]; [simpl|done].
  destruct (head sentence) as [tag|]; [simpl|done].
  intros [= <-].
  match goal with |- context [add_tags ?c _ _] =>
    destruct (add_tags_ok words c O) as (H1 & H2 & H3 & H4)
  end.
  - split; simpl; [by rewrite length_replicate|].
    intros id entry. by rewrite lookup_empty.
  - done.
Qed.

Lemma encode_uncached_Some ct seqs tag_id seq_id :
  length (alphabet_maps ct) = taglen ct →
  0 ≤ seq_id < Z.of_nat (length seqs) →
  Forall (Forall (λ c, 0 ≤ c)) seqs → train_alphabet ct ≠ [] →
  ∃ comps, encode_uncached ct seqs tag_id seq_id = Some (tag_id :: comps)
           ∧ length comps = taglen ct.
Proof.
  intros Hmaps Hid Hseqs Halpha. unfold encode_uncached.
  rewrite py_index_nonneg by lia.
  destruct (lookup_lt_is_Some_2 seqs (Z.to_nat seq_id)) as [sq Hsq]; [lia|].
  rewrite Hsq. simpl.
  pose proof (proj1 (Forall_lookup _ _) Hseqs _ _ Hsq) as Hcells.
  destruct (decide (length sq = taglen ct)) as [Hlen|Hlen].
  - match goal with |- context [mapM ?f ?l] =>
      destruct (mapM_is_Some_2 f l) as [comps Hcomps]
    end.
    + apply Forall_forall. intros k Hk%elem_of_seq. simpl.
      destruct (lookup_lt_is_Some_2 sq k) as [c Hc]; [lia|].
      rewrite Hc. simpl.
      pose proof (proj1 (Forall_lookup _ _) Hcells _ _ Hc) as Hc0. simpl in Hc0.
      assert (0 < Z.of_nat (length (train_alphabet ct))) as Hlen_alpha.
      { destruct (train_alphabet ct); [done|simpl; lia]. }
      set (idx := if c <? Z.of_nat (length (train_alphabet ct)) then c else 0).
      assert (0 ≤ idx < Z.of_nat (length (train_alphabet ct))) as Hidx.
      { unfold idx. destruct (Z.ltb_spec c (Z.of_nat (length (train_alphabet ct)))); lia. }
      rewrite py_index_nonneg by lia.
      destruct (lookup_lt_is_Some_2 (train_alphabet ct) (Z.to_nat idx)) as [ch Hch];
        [lia|].
      rewrite Hch. simpl.
      destruct (lookup_lt_is_Some_2 (alphabet_maps ct) k) as [m Hm]; [lia|].
      rewrite Hm. done.
    + rewrite Hcomps. simpl. exists comps. split; [done|].
      apply mapM_Some, Forall2_length in Hcomps.
      by rewrite length_seq in Hcomps.
  - eexists. split; [done|]. by rewrite length_replicate.
Qed.

(** A [mapM] over the indexed elements of a list succeeds when it
    succeeds on every element, and relates every element to its result. *)
Lemma mapM_indexed {A B : Type} (f : nat * A → option B)
    (P : nat → A → B → Prop) (l : list A) :
  (∀ i x, l !! i = Some x → ∃ y, f (i, x) = Some y ∧ P i x y) →
  ∃ k, mapM f (imap pair l) = Some k
       ∧ length k = length l
       ∧ ∀ i x y, l !! i = Some x → k !! i = Some y → P i x y.
Proof.
  intros Hf.
  destruct (mapM_is_Some_2 f (imap pair l)) as [k Hk].
  { apply Forall_lookup. intros i [i' x] Hix. simpl.
    rewrite list_lookup_imap in Hix.
    destruct (l !! i) as [x'|] eqn:Hx; [|done]. simpl in Hix.
    injection Hix as <- <-.
    destruct (Hf i x' Hx) as (y & Hy & _). by rewrite Hy. }
  exists k. split; [done|].
  apply mapM_Some in Hk.
  pose proof (Forall2_length _ _ _ Hk) as Hlen. rewrite length_imap in Hlen.
  split; [done|].
  intros i x y Hx Hy.
  assert (imap pair l !! i = Some (i, x)) as Hix
    by (by rewrite list_lookup_imap, Hx).
  pose proof (Forall2_lookup_lr _ _ _ _ _ _ Hk Hix Hy) as Hfy. simpl in Hfy.
  destruct (Hf i x Hx) as (y' & Hy' & HP). congruence.
Qed.

Lemma mapM_related {A B C : Type} (f : A → option C) (g : B → option C) l k :
  Forall2 (λ x y, f x = g y) l k → mapM f l = mapM g k.
Proof.
  induction 1 as [|x y l k Hxy _ IH]; [done|].
  simpl. by rewrite Hxy, IH.
Qed.

End chartags_facts.

(** C10. The [CharTags] round trip.  For a [CharTags] object built by
    [__init__] and a tag-id matrix of the shape of [seq_ids] (on inputs
    where no index is out of range), [encode] returns one entry of
    [taglen + 1] components per position, whose component 0 is the tag id of
    the position, whether or not the id is in the cache; and [decode] of the
    encoded matrix is the lookup, position by position, of the tag ids in the
    training tag vocabulary. *)
Theorem chartags_round_trip (words alphabet : list string)
    (strings : list (list string)) (ct : Tags.chartags)
    (tag_ids seq_ids seqs : list (list Z)) :
  Tags.init words alphabet strings = Some ct →
  Forall2 (λ r1 r2, length r1 = length r2) tag_ids seq_ids →
  Tags.encodable ct seq_ids seqs →
  ∃ enc,
    Tags.encode ct tag_ids seq_ids seqs = Some enc
    ∧ Forall2 (Forall2 (λ e tag_id, head e = Some tag_id
                                    ∧ length e = S (Tags.taglen ct))) enc tag_ids
    ∧ Tags.decode (Tags.train_words ct) enc
      = mapM (mapM (Py.py_index words)) tag_ids.
Proof.
  intros Hinit Hshape (Hids & Hseqs & Halpha).
  destruct (init_ok _ _ _ _ Hinit) as ([Hmaps Hcache] & Hwords & _).
  pose proof (Forall2_length _ _ _ Hshape) as Hrows.
  unfold Tags.encode.
  match goal with |- ∃ enc, mapM ?f _ = _ ∧ _ =>
    destruct (mapM_indexed f
      (λ i (srow : list Z) erow, ∀ trow, tag_ids !! i = Some trow →
         Forall2 (λ e tag_id, head e = Some tag_id
                              ∧ length e = S (Tags.taglen ct)) erow trow)
      seq_ids) as (enc & Henc & Hlen & Hcells)
  end.
  { intros i srow Hsrow. cbn beta iota.
    destruct (lookup_lt_is_Some_2 tag_ids i) as [trow Htrow].
    { rewrite Hrows. by eapply lookup_lt_Some. }
    pose proof (Forall2_lookup_lr _ _ _ _ _ _ Hshape Htrow Hsrow) as Hw.
    simpl in Hw.
    pose proof (proj1 (Forall_lookup _ _) Hids _ _ Hsrow) as Hsids.
    match goal with |- ∃ y, mapM ?g _ = _ ∧ _ =>
      destruct (mapM_indexed g
        (λ j (seq_id : Z) e, ∀ tag_id, trow !! j = Some tag_id →
           head e = Some tag_id ∧ length e = S (Tags.taglen ct))
        srow) as (erow & Herow & Hlen & Hcells)
    end.
    { intros j seq_id Hsid. cbn beta iota. rewrite Htrow. simpl.
      destruct (lookup_lt_is_Some_2 trow j) as [tag_id Htag].
      { rewrite Hw. by eapply lookup_lt_Some. }
      destruct (Tags.cache ct !! tag_id) as [entry|] eqn:Hentry.
      - exists entry. rewrite Htag. simpl. rewrite Hentry.
        split; [done|]. intros id [= <-]. by apply Hcache.
      - pose proof (proj1 (Forall_lookup _ _) Hsids _ _ Hsid) as Hsid'.
        destruct (encode_uncached_Some ct seqs tag_id seq_id Hmaps Hsid' Hseqs Halpha)
          as (comps & Hcomps & Hlc).
        exists (tag_id :: comps). rewrite Htag. simpl. rewrite Hentry.
        split; [done|]. intros id [= <-]. simpl. by rewrite Hlc. }
    exists erow. split; [done|]. intros trow'. rewrite Htrow. intros [= <-].
    apply Forall2_same_length_lookup_2; [lia|].
    intros j e tag_id He Htag.
    destruct (lookup_lt_is_Some_2 srow j) as [seq_id Hsid].
    { rewrite <- Hw. by eapply lookup_lt_Some. }
    by eapply Hcells. }
  exists enc. split; [done|].
  assert (Forall2 (Forall2 (λ e tag_id, head e = Some tag_id
                                        ∧ length e = S (Tags.taglen ct))) enc tag_ids)
    as Hall.
  { apply Forall2_same_length_lookup_2; [lia|].
    intros i erow trow Herow Htrow.
    destruct (lookup_lt_is_Some_2 seq_ids i) as [srow Hsrow].
    { rewrite <- Hlen. by eapply lookup_lt_Some. }
    by eapply Hcells. }
  split; [done|].
  unfold Tags.decode. rewrite Hwords. apply mapM_related.
  eapply Forall2_impl; [exact Hall|]. intros erow trow Hrow. simpl in Hrow.
  apply mapM_related.
  eapply Forall2_impl; [exact Hrow|]. intros e tag_id [He _]. simpl.
  by rewrite He.
Qed.

Lemma chartags_round_trip_witness :
  ∃ ct enc,
    Tags.init ["<pad>"; "<unk>"; "NS"; "VP"; "NP"; "X"]%string
      ["<pad>"; "<unk>"; "N"; "S"; "V"; "P"]%string [["NS"%string]] = Some ct
    ∧ Tags.encode ct [[2; 5]; [4; 1]] [[0; 1]; [2; 3]] [[2; 3]; [0; 0]; [2; 5]; [1; 0]]
      = Some enc
    ∧ Tags.decode (Tags.train_words ct) enc
      = Some [["NS"; "X"]; ["NP"; "<unk>"]]%string.
Proof.
  destruct (Tags.init ["<pad>"; "<unk>"; "NS"; "VP"; "NP"; "X"]%string
              ["<pad>"; "<unk>"; "N"; "S"; "V"; "P"]%string [["NS"%string]])
    as [ct|] eqn:Hct; [|by vm_compute in Hct].
  destruct (chartags_round_trip _ _ _ ct
              [[2; 5]; [4; 1]] [[0; 1]; [2; 3]] [[2; 3]; [0; 0]; [2; 5]; [1; 0]] Hct)
    as (enc & Henc & _ & Hdec).
  - by repeat constructor.
  - split; [|split].
    + repeat constructor; simpl; lia.
    + repeat constructor; simpl; lia.
    + destruct (init_ok _ _ _ _ Hct) as (_ & _ & ->). done.
  - exists ct, enc. split; [done|]. split; [done|]. rewrite Hdec. by vm_compute.
Defined.

(** ** The data flow of the graph *)

(** Case analysis on the flags (with no RNN layer, or at least one) and on
    the nodes. *)
Ltac each_args a :=
  destruct a as [[] [] [] [] [|?]].

Ltac each_node n :=
  destruct n; repeat match goal with s : Graph.scope |- _ => destruct s end.

Section graph_facts.
Import Graph.

Lemma reach_sound (edges : node → list node) fuel : ∀ work visited x,
  x ∈ reach edges fuel work visited →
  x ∈ visited ∨ ∃ w, w ∈ work ∧ rtc (λ x y, y ∈ edges x) w x.
Proof.
  induction fuel as [|fuel IH]; intros work visited x; simpl; [by left|].
  destruct work as [|n work]; [by left|].
  case_bool_decide as Hn.
  - intros [Hx|(w & Hw & Hpath)]%IH; [by left|].
    right. exists w. split; [by right|done].
  - intros [Hx|(w & Hw & Hpath)]%IH.
    + apply elem_of_cons in Hx as [->|Hx]; [|by left].
      right. exists n. split; [by left|done].
    + apply elem_of_app in Hw as [Hw|Hw].
      * right. exists n. split; [by left|]. by eapply rtc_l.
      * right. exists w. split; [by right|done].
Qed.

Lemma closed_complete (edges : node → list node) visited n m :
  closed edges visited = true → n ∈ visited →
  rtc (λ x y, y ∈ edges x) n m → m ∈ visited.
Proof.
  intros Hclosed Hn Hpath. induction Hpath as [|x y z Hxy _ IH]; [done|].
  apply IH. unfold closed in Hclosed.
  rewrite forallb_forall in Hclosed.
  specialize (Hclosed x (proj1 (list_elem_of_In _ _) Hn)).
  rewrite forallb_forall in Hclosed.
  specialize (Hclosed y (proj1 (list_elem_of_In _ _) Hxy)).
  by apply bool_decide_eq_true in Hclosed.
Qed.

Lemma reach_paths (edges : node → list node) n m :
  closed edges (reach edges 400 [n] []) = true →
  bool_decide (n ∈ reach edges 400 [n] []) = true →
  bool_decide (m ∈ reach edges 400 [n] []) = true ↔ rtc (λ x y, y ∈ edges x) n m.
Proof.
  intros Hclosed Hn%bool_decide_eq_true. rewrite bool_decide_eq_true. split.
  - intros [Hm|(w & Hw & Hpath)]%reach_sound; [by apply elem_of_nil in Hm|].
    by apply list_elem_of_singleton in Hw as ->.
  - by apply closed_complete.
Qed.


Lemma depends_on_path a n m : depends_on a n m = true ↔ computed_from a n m.
Proof.
  apply reach_paths.
  - each_args a; each_node n; vm_compute; reflexivity.
  - each_args a; each_node n; vm_compute; reflexivity.
Qed.

Lemma gradient_reaches_path a n m :
  gradient_reaches a n m = true ↔ gradient_flows a n m.
Proof.
  apply reach_paths.
  - each_args a; each_node n; vm_compute; reflexivity.
  - each_args a; each_node n; vm_compute; reflexivity.
Qed.

Lemma not_gradient_flows a n m :
  gradient_reaches a n m = false → ¬ gradient_flows a n m.
Proof. intros Hr Hf%gradient_reaches_path. congruence. Qed.

Lemma not_computed_from a n m :
  depends_on a n m = false → ¬ computed_from a n m.
Proof. intros Hr Hf%depends_on_path. congruence. Qed.

Lemma tagger_parameter_depends a p :
  tagger_parameter a p → is_variable p && depends_on a TagOutputs p = true.
Proof.
  intros [Hv Hd%depends_on_path]. by rewrite Hv, Hd.
Qed.

End graph_facts.

(** C5, as the code has it.  For every setting of the flags:
    with [tags_to_lemmas] the lemma loss (and, unless the sense is built in,
    the sense loss) is computed from the tagger's concatenated output
    logits; no gradient flows from the features given to the lemmatizer to
    any parameter of the tagger, since the only path goes through
    [tf.stop_gradient]; the output layers of the tag heads get a gradient
    from the tag loss and from no other loss; and with [separate_embed]
    (for which [main] also sets [separate_rnn]) no parameter of the tagger
    gets a gradient from the lemma loss or the sense loss. *)
Theorem gradient_stopped_bridge (a : Graph.args) :
  (Graph.tags_to_lemmas a = true →
     Graph.computed_from a Graph.LossLem Graph.TagOutputs
     ∧ (Graph.builtin_sense a = false →
        Graph.computed_from a Graph.LossSense Graph.TagOutputs))
  ∧ (∀ p, Graph.tagger_parameter a p → ¬ Graph.gradient_flows a Graph.TagFeatures p)
  ∧ (Graph.gradient_flows a Graph.LossTag Graph.TagOutputLayers
     ∧ ¬ Graph.gradient_flows a Graph.LossLem Graph.TagOutputLayers
     ∧ ¬ Graph.gradient_flows a Graph.LossSense Graph.TagOutputLayers)
  ∧ (Graph.separate_embed a = true →
     ∀ p, Graph.tagger_parameter (Graph.parse_args a) p →
       ¬ Graph.gradient_flows (Graph.parse_args a) Graph.LossLem p
       ∧ ¬ Graph.gradient_flows (Graph.parse_args a) Graph.LossSense p).
Proof.
  split; [|split; [|split]].
  - intros Ht. split; [|intros Hb]; apply depends_on_path;
      each_args a; try discriminate; vm_compute; reflexivity.
  - intros p Hp%tagger_parameter_depends. apply not_gradient_flows.
    each_args a; each_node p; vm_compute in Hp; try discriminate;
      vm_compute; reflexivity.
  - split; [|split].
    + apply gradient_reaches_path. each_args a; vm_compute; reflexivity.
    + apply not_gradient_flows. each_args a; vm_compute; reflexivity.
    + apply not_gradient_flows. each_args a; vm_compute; reflexivity.
  - intros He p Hp%tagger_parameter_depends.
    split; apply not_gradient_flows;
      each_args a; try discriminate; each_node p; vm_compute in Hp;
      try discriminate; vm_compute; reflexivity.
Qed.

Lemma gradient_stopped_bridge_witness :
  ¬ Graph.gradient_flows (Graph.parse_args (Graph.Args true false true false 2))
      Graph.LossLem (Graph.WordRnnVars Graph.TagsScope).
Proof.
  destruct (gradient_stopped_bridge (Graph.Args true false true false 2))
    as (_ & _ & _ & Hsep).
  apply (Hsep eq_refl (Graph.WordRnnVars Graph.TagsScope)).
  split; [done|]. apply depends_on_path. by vm_compute.
Defined.

(** C5, where it fails as stated.  With the tag features given to the
    lemmatizer but the flags otherwise at their defaults, the sentence-level
    RNN is shared: it is a parameter of the tagger and the lemma loss
    reaches it through [word_rnn_outputs].  With all flags at their defaults
    the lemmatizer is given zeros, not the tag outputs. *)
Lemma shared_encoder_gets_lemma_gradient :
  let a := Graph.Args false false true false 2 in
  Graph.tagger_parameter a (Graph.WordRnnVars Graph.Common)
  ∧ Graph.gradient_flows a Graph.LossLem (Graph.WordRnnVars Graph.Common)
  ∧ ¬ Graph.only_tag_loss_trains_tagger a
  ∧ ¬ Graph.computed_from Graph.default_args Graph.LossLem Graph.TagOutputs
  ∧ ¬ Graph.only_tag_loss_trains_tagger Graph.default_args.
Proof.
  intros a.
  assert (Graph.tagger_parameter a (Graph.WordRnnVars Graph.Common)) as Hp.
  { split; [done|]. apply depends_on_path. by vm_compute. }
  assert (Graph.gradient_flows a Graph.LossLem (Graph.WordRnnVars Graph.Common)) as Hg.
  { apply gradient_reaches_path. by vm_compute. }
  assert (¬ Graph.computed_from Graph.default_args Graph.LossLem Graph.TagOutputs) as Hd.
  { apply not_computed_from. by vm_compute. }
  split; [done|]. split; [done|]. split; [|split; [done|]].
  - intros (_ & _ & Hall). by destruct (Hall _ Hp).
  - by intros (Hc & _).
Qed.

(** * Further properties of the code *)

(** ** find_first without transposition *)

Section find_first_rows_facts.
Import Tensor FindFirst.

Lemma find_first_as_given t v :
  shaped t → (0 < dim0 t)%nat → Z.of_nat (dim0 t) < 2 ^ 31 →
  find_first t v false
  = Some (map (λ c, Z.of_nat (first_occ v (column c (cells t)))) (seq 0 (dim1 t))).
Proof.
  intros [Hl Hr] Hpos Hsmall. unfold find_first.
  rewrite last_tf_scan by (intros E; rewrite E in Hl; simpl in Hl; lia).
  destruct (fold_step v (Z.of_nat (dim0 t)) (cells t) 0
              (replicate (dim1 t) (Z.of_nat (dim0 t))))
    as (poss' & Hfold & Hlen & Hcells).
  - lia.
  - lia.
  - done.
  - by rewrite length_replicate.
  - apply Forall_forall. intros p [-> _]%elem_of_replicate. lia.
  - rewrite Hfold. simpl. f_equal.
    rewrite length_replicate in Hlen.
    apply list_eq. intros c. rewrite list_lookup_fmap.
    destruct (decide (c < dim1 t)%nat) as [Hc|Hc].
    + rewrite lookup_seq_lt by done. simpl.
      rewrite (Hcells c (Z.of_nat (dim0 t))) by (by apply lookup_replicate_2).
      f_equal. rewrite Hl.
      pose proof (first_occ_le v (column c (cells t))) as Hk.
      rewrite length_column, Hl in Hk. unfold seen.
      destruct (Nat.ltb_spec (first_occ v (column c (cells t))) (dim0 t)); lia.
    + rewrite lookup_seq_ge by lia. simpl. apply lookup_ge_None. lia.
Qed.

End find_first_rows_facts.

(** X1. With [transpose=False] the tensor is scanned as it is given: for a
    tensor of [n] rows (at least one, fewer than 2^31) the result has one
    entry per column, the smallest row index at which the value occurs in
    the column, or [n] when it does not occur; it is what [find_first] with
    [transpose=True] gives on the transposed tensor. *)
Theorem find_first_without_transpose (t : Tensor.tensor2) (v : Z) :
  Tensor.shaped t → (0 < Tensor.dim0 t)%nat → Z.of_nat (Tensor.dim0 t) < 2 ^ 31 →
  ∃ res : list Z,
    FindFirst.find_first t v false = Some res
    ∧ length res = Tensor.dim1 t
    ∧ (∀ c : nat, (c < Tensor.dim1 t)%nat →
        ∃ k, res !! c = Some k
             ∧ length (Tensor.column c (Tensor.cells t)) = Tensor.dim0 t
             ∧ FindFirst.first_or_len v (Tensor.column c (Tensor.cells t)) k)
    ∧ FindFirst.find_first (Tensor.tf_transpose t) v true = Some res.
Proof.
  intros Ht Hpos Hsmall. pose proof Ht as [Hl Hr].
  eexists. split; [by apply find_first_as_given|].
  split; [by rewrite length_map, length_seq|]. split.
  - intros c Hc. eexists. split.
    + rewrite list_lookup_fmap, lookup_seq_lt by done. done.
    + split; [by rewrite length_column|]. apply first_occ_first_or_len.
  - rewrite find_first_value;
      [|by apply transpose_shaped|simpl; lia|simpl; lia].
    f_equal. simpl. by rewrite map_map.
Qed.

Lemma find_first_without_transpose_witness :
  FindFirst.find_first (Tensor.Tensor2 3 2 [[5; 4]; [7; 4]; [7; 4]]) 7 false
  = Some [1; 3].
Proof.
  destruct (find_first_without_transpose
              (Tensor.Tensor2 3 2 [[5; 4]; [7; 4]; [7; 4]]) 7)
    as (res & Hres & _); [by vm_compute; repeat constructor | simpl; lia | simpl; lia |].
  rewrite Hres. vm_compute in Hres. congruence.
Defined.

(** ** The lengths of the greedy predictions *)

(** X2. Without beam search, for a decoder cell that keeps the batch size,
    the prediction length recorded for a word is one plus the position of
    the first [eow] among its predicted ids, and the number of decoding
    steps when there is none: a lemma cut by the step limit then loses its
    last character in [predict], which joins [length - 1] characters. *)
Theorem greedy_prediction_lengths {State : Type}
    (pred_cell : list Z → State → list (list Q) * State) (pred_initial_state : State)
    (bow eow : Z) (words_count : nat) (charseq_lens : list Z) (k : nat) :
  (∀ ids s, length (pred_cell ids s).1 = length ids) →
  (k < words_count)%nat →
  ∃ row len,
    Tensor.cells (Lemmas.greedy_predict pred_cell pred_initial_state bow eow
                    words_count charseq_lens).1 !! k = Some row
    ∧ (Lemmas.greedy_predict pred_cell pred_initial_state bow eow
         words_count charseq_lens).2 !! k = Some len
    ∧ ((Tensor.first_occ eow row < length row)%nat →
       len = 1 + Z.of_nat (Tensor.first_occ eow row))
    ∧ (Tensor.first_occ eow row = length row → len = Z.of_nat (length row)).
Proof. apply greedy_predict_lengths. Qed.

Lemma greedy_prediction_lengths_witness :
  (Lemmas.greedy_predict
     (λ (ids : list Z) (s : nat),
        (map (λ _, if Nat.eqb s 1 then [0%Q; 0%Q; 1%Q] else [0%Q; 1%Q; 0%Q]) ids, S s))
     O 0 2 1 [3]).2 !! O = Some 2.
Proof.
  destruct (greedy_prediction_lengths
     (λ (ids : list Z) (s : nat),
        (map (λ _, if Nat.eqb s 1 then [0%Q; 0%Q; 1%Q] else [0%Q; 1%Q; 0%Q]) ids, S s))
     O 0 2 1 [3] O) as (row & len & Hrow & Hlen & _).
  - intros ids s. simpl. by rewrite length_map.
  - lia.
  - rewrite Hlen. vm_compute in Hlen. congruence.
Defined.

(** ** The characters that predict joins *)

Section joined_facts.
Import Tensor FindFirst Py Predict.

Lemma mapM_lookup_seq {A B : Type} (f : A → option B) (row : list A) n : ∀ a,
  (a + n ≤ length row)%nat →
  mapM (λ j, c ← row !! j; f c) (seq a n) = mapM f (take n (drop a row)).
Proof.
  induction n as [|n IH]; intros a Ha; [done|].
  destruct (lookup_lt_is_Some_2 row a) as [c Hc]; [lia|].
  rewrite (drop_S _ _ _ Hc). simpl. rewrite Hc. simpl.
  rewrite IH by lia. done.
Qed.

Lemma lemma_chars_take alphabet lp k row len :
  lp !! k = Some row → len - 1 ≤ Z.of_nat (length row) →
  lemma_chars alphabet lp k len
  = mapM (py_index alphabet) (take (Z.to_nat (len - 1)) row).
Proof.
  intros Hrow Hlen. unfold lemma_chars. rewrite Hrow. simpl.
  rewrite (mapM_lookup_seq (py_index alphabet) row) by lia.
  by rewrite drop_0.
Qed.

End joined_facts.

(** X3. With beam search, the ids whose alphabet entries [predict] joins
    for a word are the predicted ids before the first [eow]: [eow] is never
    among them, it is the id right after them when the beam holds one, and
    they are the whole beam when it holds none. *)
Theorem beam_lemma_stops_at_eow (lemma_predictions : Tensor.tensor2) (eow : Z)
    (alphabet : list string) (k : nat) (row : list Z) :
  Tensor.shaped lemma_predictions → (0 < Tensor.dim1 lemma_predictions)%nat →
  Z.of_nat (Tensor.dim1 lemma_predictions) < 2 ^ 31 - 1 →
  Tensor.cells lemma_predictions !! k = Some row →
  ∃ lpl len,
    FindFirst.beam_prediction_lengths lemma_predictions eow = Some lpl
    ∧ lpl !! k = Some len
    ∧ let ids := take (Z.to_nat (len - 1)) row in
      Predict.lemma_chars alphabet (Tensor.cells lemma_predictions) k len
        = mapM (Py.py_index alphabet) ids
      ∧ (eow ∉ ids)
      ∧ (eow ∈ row → row !! length ids = Some eow)
      ∧ (eow ∉ row → ids = row).
Proof.
  intros Ht Hpos Hsmall Hrow. pose proof Ht as [Hl Hr].
  pose proof (proj1 (Forall_lookup _ _) Hr k row Hrow) as Hn. simpl in Hn.
  pose proof (Tensor.first_occ eow row) as _.
  pose proof (first_occ_le eow row) as Hle.
  unfold FindFirst.beam_prediction_lengths.
  rewrite find_first_value by first [done | lia]. simpl.
  eexists _, (1 + Z.of_nat (Tensor.first_occ eow row)).
  split; [done|]. split.
  { rewrite !list_lookup_fmap, Hrow. simpl. f_equal. apply wrap32_small. lia. }
  replace (Z.to_nat (1 + Z.of_nat (Tensor.first_occ eow row) - 1))
    with (Tensor.first_occ eow row) by lia.
  split; [|split; [|split]].
  - rewrite (lemma_chars_take alphabet _ k row) by first [done | lia].
    do 2 f_equal. lia.
  - apply take_first_occ_clean.
  - intros Hin. rewrite length_take.
    replace (Tensor.first_occ eow row `min` length row)%nat
      with (Tensor.first_occ eow row) by lia.
    apply first_occ_hit.
    destruct (decide (Tensor.first_occ eow row = length row)) as [E|E]; [|lia].
    by apply first_occ_absent in E.
  - intros Hout%first_occ_absent. rewrite Hout. apply take_ge. lia.
Qed.

Lemma beam_lemma_stops_at_eow_witness :
  ∃ lpl, FindFirst.beam_prediction_lengths
           (Tensor.Tensor2 2 3 [[5; 7; 7]; [4; 4; 4]]) 7 = Some lpl
         ∧ lpl = [2; 4].
Proof.
  destruct (beam_lemma_stops_at_eow (Tensor.Tensor2 2 3 [[5; 7; 7]; [4; 4; 4]]) 7
              [] O [5; 7; 7]) as (lpl & len & Hlpl & _);
    [by vm_compute; repeat constructor | simpl; lia | simpl; lia | done |].
  exists lpl. split; [done|]. vm_compute in Hlpl. congruence.
Defined.

(** ** The inputs of the decoder cell *)

Section cell_facts.
Import Cells.

Lemma length_tile_batch {A : Type} (x : list A) m :
  length (tile_batch x m) = (length x * m)%nat.
Proof.
  unfold tile_batch. induction x as [|a x IH]; [done|].
  rewrite bind_cons, length_app, length_replicate, IH. simpl. lia.
Qed.

Lemma lookup_tile_batch {A : Type} (x : list A) m i :
  (0 < m)%nat → tile_batch x m !! i = if decide (i < length x * m)%nat
                                     then x !! (i / m)%nat else None.
Proof.
  intros Hm. unfold tile_batch. revert i.
  induction x as [|a x IH]; intros i.
  - change ([] ≫= replicate m) with (@nil A). rewrite !lookup_nil. by case_decide.
  - rewrite bind_cons. destruct (decide (i < m)%nat) as [Hi|Hi].
    + rewrite lookup_app_l by (by rewrite length_replicate).
      rewrite lookup_replicate_2 by done. rewrite Nat.div_small by done.
      rewrite decide_True by (simpl; lia). done.
    + rewrite lookup_app_r by (rewrite length_replicate; lia).
      rewrite length_replicate, IH.
      assert (i / m = S ((i - m) / m))%nat as ->.
      { replace i with (1 * m + (i - m))%nat at 1 by lia.
        rewrite Nat.div_add_l by lia. lia. }
      simpl. destruct (decide (i - m < length x * m)%nat),
        (decide (i < m + length x * m)%nat); try lia; done.
Qed.

Lemma length_btile {A : Type} beams (x : list A) :
  length (btile beams x) = (length x * multiplier beams)%nat.
Proof.
  unfold btile, multiplier. destruct beams as [[|k]|]; try lia.
  apply length_tile_batch.
Qed.

Lemma lookup_btile {A : Type} beams (x : list A) i :
  (i < length x * multiplier beams)%nat →
  btile beams x !! i = x !! (i / multiplier beams)%nat.
Proof.
  unfold btile, multiplier. destruct beams as [[|k]|]; intros Hi;
    rewrite ?Nat.div_1_r; try done.
  rewrite lookup_tile_batch by lia. by rewrite decide_True.
Qed.

Lemma concat_last_Some x y :
  length x = length y → concat_last x y = Some (zip_with app x y).
Proof. intros H. unfold concat_last. by rewrite decide_True. Qed.

End cell_facts.

(** X4. The cell of the lemma decoder.  With [wc] words and [m] rows per
    word ([beams], or 1 without), the base cell is called, for row [i] of
    the decoder inputs, on the input followed by the attention of the
    previous step for that row, then the character-level state, the tag
    features and the sentence-level RNN output of word [i / m], in that
    order; the step returns the output of the base cell, its state, and the
    attention computed from that output. *)
Theorem decoder_cell_inputs {State Output : Type}
    (base_cell : list (list Q) → State → option (Output * State))
    (att : Output → list (list Q))
    (beams : option nat) (wc : nat)
    (word_rnn_outputs tag_features word_cle_states inputs attention : list (list Q))
    (state : State) :
  length word_rnn_outputs = wc → length tag_features = wc →
  length word_cle_states = wc →
  length inputs = (wc * Cells.multiplier beams)%nat →
  length attention = (wc * Cells.multiplier beams)%nat →
  ∃ inputs_exp,
    Cells.create_attn_cell base_cell beams word_rnn_outputs tag_features
      word_cle_states att inputs (state, attention)
    = match base_cell inputs_exp state with
      | Some (output, next_state) => Some (output, (next_state, att output))
      | None => None
      end
    ∧ length inputs_exp = (wc * Cells.multiplier beams)%nat
    ∧ ∀ i x, inputs !! i = Some x →
        ∃ a c t r,
          attention !! i = Some a
          ∧ word_cle_states !! (i / Cells.multiplier beams)%nat = Some c
          ∧ tag_features !! (i / Cells.multiplier beams)%nat = Some t
          ∧ word_rnn_outputs !! (i / Cells.multiplier beams)%nat = Some r
          ∧ inputs_exp !! i = Some (x ++ a ++ c ++ t ++ r).
Proof.
  intros Hr Ht Hc Hi Ha.
  set (m := Cells.multiplier beams) in *.
  exists (zip_with app (zip_with app (zip_with app (zip_with app inputs attention)
            (Cells.btile beams word_cle_states)) (Cells.btile beams tag_features))
            (Cells.btile beams word_rnn_outputs)).
  split; [|split].
  - unfold Cells.create_attn_cell, Cells.AttentionWrapper, Cells.AddInputsWrapper.
    cbn [fst snd].
    rewrite concat_last_Some by lia. simpl.
    rewrite concat_last_Some
      by (rewrite length_zip_with, length_btile; fold m; lia). simpl.
    rewrite concat_last_Some
      by (rewrite !length_zip_with, !length_btile; fold m; lia). simpl.
    rewrite concat_last_Some
      by (rewrite !length_zip_with, !length_btile; fold m; lia). simpl.
    by destruct (base_cell _ state) as [[output next_state]|].
  - rewrite !length_zip_with, !length_btile. fold m. lia.
  - intros i x Hx. pose proof (lookup_lt_Some _ _ _ Hx) as Hlt.
    assert (i / m < wc)%nat as Hdiv.
    { apply Nat.Div0.div_lt_upper_bound. lia. }
    destruct (lookup_lt_is_Some_2 attention i) as [a Ha']; [lia|].
    destruct (lookup_lt_is_Some_2 word_cle_states (i / m)) as [c Hc']; [lia|].
    destruct (lookup_lt_is_Some_2 tag_features (i / m)) as [t Ht']; [lia|].
    destruct (lookup_lt_is_Some_2 word_rnn_outputs (i / m)) as [r Hr']; [lia|].
    exists a, c, t, r. split; [done|]. split; [done|]. split; [done|].
    split; [done|].
    rewrite !lookup_zip_with, Hx, Ha'. simpl.
    rewrite !lookup_btile by (fold m; lia). fold m.
    rewrite Hc', Ht', Hr'. simpl. by rewrite <- !app_assoc.
Qed.

Lemma decoder_cell_inputs_witness :
  Cells.create_attn_cell (λ x (s : unit), Some (x, s)) (Some 2%nat)
    [[1%Q]; [2%Q]] [[3%Q]; [4%Q]] [[5%Q]; [6%Q]] (map (map (λ v, v + 100)%Q))
    [[10%Q]; [11%Q]; [12%Q]; [13%Q]] (tt, [[7%Q]; [8%Q]; [9%Q]; [0%Q]])
  = Some ([[10; 7; 5; 3; 1]; [11; 8; 5; 3; 1]; [12; 9; 6; 4; 2]; [13; 0; 6; 4; 2]]%Q,
          (tt, map (map (λ v, v + 100)%Q)
                 [[10; 7; 5; 3; 1]; [11; 8; 5; 3; 1]; [12; 9; 6; 4; 2];
                  [13; 0; 6; 4; 2]]%Q)).
Proof.
  destruct (decoder_cell_inputs (λ x (s : unit), Some (x, s))
              (map (map (λ v, v + 100)%Q)) (Some 2%nat) 2
              [[1%Q]; [2%Q]] [[3%Q]; [4%Q]] [[5%Q]; [6%Q]]
              [[10%Q]; [11%Q]; [12%Q]; [13%Q]] [[7%Q]; [8%Q]; [9%Q]; [0%Q]] tt
              eq_refl eq_refl eq_refl eq_refl eq_refl)
    as (exp & Hcall & _).
  reflexivity.
Defined.

(** ** What CharTags.__init__ builds *)

Section chartags_init_facts.
Import Py Tags TagHeads.

Lemma extends_refl alphs : extends alphs alphs.
Proof. split; [done|]. intros k a Ha. by exists a. Qed.

Lemma extends_trans a1 a2 a3 : extends a1 a2 → extends a2 a3 → extends a1 a3.
Proof.
  intros [Hl1 H1] [Hl2 H2]. split; [congruence|].
  intros k a Ha. destruct (H1 k a Ha) as (a' & Ha' & Hp).
  destruct (H2 k a' Ha') as (a'' & Ha'' & Hp').
  exists a''. split; [done|]. by etrans.
Qed.

Lemma spells_extends alphs alphs' i chs codes :
  extends alphs alphs' → spells alphs i chs codes → spells alphs' i chs codes.
Proof.
  intros [_ Hext] [Hlen Hsp]. split; [done|].
  intros j ch Hch. destruct (Hsp j ch Hch) as (c & a & Hc & Ha & Hc0 & Hac).
  destruct (Hext _ a Ha) as (a' & Ha' & Hp).
  exists c, a'. split; [done|]. split; [done|]. split; [done|].
  by eapply prefix_lookup_Some.
Qed.

Lemma add_char_spec maps alphs i ch :
  maps_inverse maps alphs → (i < length maps)%nat →
  ∃ maps' alphs' code,
    add_char maps alphs i ch = (maps', alphs', code)
    ∧ maps_inverse maps' alphs' ∧ extends alphs alphs'
    ∧ ∃ a', alphs' !! i = Some a' ∧ 0 ≤ code ∧ a' !! Z.to_nat code = Some ch.
Proof.
  intros [Hlen Hinv] Hi. unfold add_char.
  destruct (lookup_lt_is_Some_2 maps i Hi) as [m Hm].
  destruct (lookup_lt_is_Some_2 alphs i) as [a Ha]; [lia|].
  rewrite Hm, Ha. destruct (Hinv i m a Hm Ha) as [Hunk Hma].
  destruct (m !! ch) as [code|] eqn:Hch.
  - eexists _, _, _. split; [done|]. split; [by split|].
    split; [apply extends_refl|].
    apply Hma in Hch as [Hc0 Hac]. by exists a.
  - eexists _, _, _. split; [done|].
    assert (ch ∉ a) as Hfresh.
    { intros (n & Hn)%list_elem_of_lookup.
      assert (m !! ch = Some (Z.of_nat n)) as Hn'.
      { apply Hma. split; [lia|]. by rewrite Nat2Z.id. }
      congruence. }
    split; [|split].
    + split; [by rewrite !length_insert|].
      intros k m' a'. rewrite !list_lookup_insert by lia.
      case_decide as Hk.
      * destruct Hk as [<- _]. rewrite decide_True by (split; [done|lia]).
        intros [= <-] [= <-]. split.
        { rewrite lookup_app_l; [done|]. by eapply lookup_lt_Some. }
        intros x c. rewrite lookup_insert. case_decide as Hx.
        -- subst x. split.
           ++ intros [= <-]. split; [lia|]. rewrite Nat2Z.id.
              rewrite lookup_app_r by lia. by rewrite Nat.sub_diag.
           ++ intros [Hc0 Hac].
              destruct (decide (Z.to_nat c < length a)%nat) as [Hlt|Hge].
              ** rewrite lookup_app_l in Hac by done.
                 exfalso. apply Hfresh. apply list_elem_of_lookup. eauto.
              ** f_equal. apply lookup_lt_Some in Hac.
                 rewrite length_app in Hac. simpl in Hac. lia.
        -- rewrite Hma. split.
           ++ intros [Hc0 Hac]. split; [done|].
              rewrite lookup_app_l; [done|]. by eapply lookup_lt_Some.
           ++ intros [Hc0 Hac]. split; [done|].
              destruct (decide (Z.to_nat c < length a)%nat) as [Hlt|Hge].
              ** by rewrite lookup_app_l in Hac.
              ** rewrite lookup_app_r in Hac by lia.
                 destruct (Z.to_nat c - length a)%nat; [|done].
                 simpl in Hac. congruence.
      * rewrite decide_False by (intros [? _]; apply Hk; split; [done|lia]).
        apply Hinv.
    + split; [by rewrite length_insert|]. intros k a0 Ha0.
      destruct (decide (i = k)) as [<-|Hk].
      * rewrite list_lookup_insert_eq by lia.
        exists (a ++ [ch]). split; [done|].
        assert (a0 = a) as -> by congruence. by apply prefix_app_r.
      * rewrite list_lookup_insert_ne by done. by exists a0.
    + exists (a ++ [ch]). rewrite list_lookup_insert_eq by lia.
      split; [done|]. split; [lia|]. rewrite Nat2Z.id.
      rewrite lookup_app_r by lia. by rewrite Nat.sub_diag.
Qed.

Lemma add_chars_spec chs : ∀ maps alphs i,
  maps_inverse maps alphs → (i + length chs ≤ length maps)%nat →
  ∃ maps' alphs' codes,
    add_chars maps alphs i chs = (maps', alphs', codes)
    ∧ maps_inverse maps' alphs' ∧ extends alphs alphs'
    ∧ spells alphs' i chs codes.
Proof.
  induction chs as [|ch chs IH]; intros maps alphs i Hinv Hi.
  - eexists _, _, _. split; [done|]. split; [done|].
    split; [apply extends_refl|]. split; [done|].
    intros j c. by rewrite lookup_nil.
  - simpl in Hi.
    destruct (add_char_spec maps alphs i ch Hinv ltac:(lia))
      as (maps1 & alphs1 & code & Hadd & Hinv1 & Hext1 & a1 & Ha1 & Hc0 & Hcode).
    destruct (IH maps1 alphs1 (S i) Hinv1)
      as (maps2 & alphs2 & codes & Hadds & Hinv2 & Hext2 & Hlen & Hsp).
    { destruct Hinv as [Hl _], Hinv1 as [Hl1 _], Hext1 as [He1 _]. lia. }
    exists maps2, alphs2, (code :: codes). split.
    { cbn [add_chars]. by rewrite Hadd, Hadds. }
    split; [done|]. split; [by eapply extends_trans|].
    split; [simpl; lia|].
    intros [|j] c; simpl.
    + intros [= <-]. destruct Hext2 as [_ Hext2].
      destruct (Hext2 i a1 Ha1) as (a2 & Ha2 & Hp).
      exists code, a2. rewrite Nat.add_0_r. split; [done|]. split; [done|].
      split; [done|]. by eapply prefix_lookup_Some.
    + intros Hc. destruct (Hsp j c Hc) as (c' & a & Hc' & Ha & Hc0' & Hac).
      exists c', a. split; [done|]. split; [|done].
      by replace (i + S j)%nat with (S i + j)%nat by lia.
Qed.

Lemma add_tag_state words n tag ct :
  words !! n = Some tag → init_state words n ct →
  init_state words (S n) (add_tag ct n tag) ∧ taglen (add_tag ct n tag) = taglen ct.
Proof.
  intros Htag (Hw & Hla & Hinv & Hcache & Hdom). unfold add_tag.
  destruct (decide (String.length tag = taglen ct)) as [Hlen|Hlen].
  - destruct (add_chars_spec (chars tag) (alphabet_maps ct) (alphabets ct) O Hinv)
      as (maps & alphs & codes & Hadd & Hinv' & Hext & Hsp).
    { destruct Hinv as [Hl _]. rewrite length_chars. lia. }
    rewrite Hadd. split; [|done].
    split; [done|]. split; [simpl; destruct Hext; lia|]. split; [done|]. split.
    + intros id entry. simpl. rewrite lookup_insert. case_decide as Hid.
      * intros [= <-]. subst id. exists tag, codes.
        split; [lia|]. rewrite Nat2Z.id. done.
      * intros Hentry.
        destruct (Hcache id entry Hentry) as (tag' & codes' & Hid' & Hw' & Hl' & He & Hsp').
        exists tag', codes'. split; [lia|]. split; [done|]. split; [done|].
        split; [done|]. by eapply spells_extends.
    + intros k tag' Hk Hw' Hl'. simpl. rewrite lookup_insert. case_decide; [done|].
      apply (Hdom k tag'); [|done|done].
      destruct (decide (k = n)); [subst; lia|lia].
  - split; [|done]. split; [done|]. split; [done|]. split; [done|]. split.
    + intros id entry Hentry.
      destruct (Hcache id entry Hentry) as (tag' & codes' & Hid' & Hrest).
      exists tag', codes'. split; [lia|done].
    + intros k tag' Hk Hw' Hl'.
      destruct (decide (k = n)) as [->|Hne]; [congruence|].
      apply (Hdom k tag'); [lia|done|done].
Qed.

Lemma add_tags_state words tags : ∀ n ct,
  drop n words = tags → init_state words n ct →
  init_state words (length words) (add_tags ct n tags)
  ∧ taglen (add_tags ct n tags) = taglen ct.
Proof.
  induction tags as [|tag tags IH]; intros n ct Hdrop Hstate.
  - simpl. split; [|done].
    assert (length words ≤ n)%nat as Hn.
    { apply drop_nil_inv in Hdrop. lia. }
    destruct Hstate as (Hw & Hla & Hinv & Hcache & Hdom).
    split; [done|]. split; [done|]. split; [done|]. split.
    + intros id entry Hentry.
      destruct (Hcache id entry Hentry) as (tag' & codes' & Hid' & Hw' & Hrest).
      exists tag', codes'. split; [|done]. split; [lia|].
      apply lookup_lt_Some in Hw'. lia.
    + intros k tag' Hk. apply Hdom. lia.
  - assert (words !! n = Some tag) as Hn.
    { rewrite <- (Nat.add_0_r n), <- lookup_drop, Hdrop. done. }
    destruct (add_tag_state words n tag ct Hn Hstate) as [Hstate' Htl].
    destruct (IH (S n) (add_tag ct n tag)) as [Hfinal Htl']; [|done|].
    { by rewrite (drop_S _ _ _ Hn) in Hdrop; injection Hdrop. }
    simpl. split; [done|]. congruence.
Qed.

Lemma init_state_of words alphabet strings ct :
  init words alphabet strings = Some ct →
  init_state words (length words) ct ∧ train_alphabet ct = alphabet.
Proof.
  unfold init. destruct (head strings) as [sentence|]; [simpl|done].
  destruct (head sentence) as [tag|]; [simpl|done].
  intros [= <-].
  match goal with |- context [add_tags ?c _ _] =>
    destruct (add_tags_state words words O c) as [H1 H2]
  end.
  - done.
  - unfold init_state, maps_inverse.
    cbn [alphabets taglen alphabet_maps cache train_words].
    split; [done|]. split; [by rewrite length_replicate|]. split.
    + split; [by rewrite !length_replicate|].
      intros i m a [-> _]%lookup_replicate [-> Hi]%lookup_replicate.
      split; [done|]. intros ch c. rewrite lookup_singleton.
      case_decide as Hch.
      * subst ch. split.
        -- by intros [= <-].
        -- intros [Hc0 Hc]. f_equal.
           destruct (Z.to_nat c) eqn:E; [lia|done].
      * split; [done|]. intros [Hc0 Hc].
        destruct (Z.to_nat c) eqn:E; simpl in Hc; [congruence|done].
    + split.
      * intros id entry. by rewrite lookup_empty.
      * intros n tag'. lia.
  - split; [done|].
    pose proof (add_tags_ok words) as Hok.
    match goal with |- context [add_tags ?c _ _] =>
      destruct (Hok c O) as (_ & _ & Ha & _)
    end; [|done].
    split; simpl; [by rewrite length_replicate|]. intros id entry.
    by rewrite lookup_empty.
Qed.

End chartags_init_facts.

(** X5. After [CharTags.__init__] there is one alphabet and one alphabet
    map per tag position; each alphabet starts with ["<unk>"], which has
    code 0, holds no character twice, and its map is its inverse: a
    character has code [c] exactly when it is the entry [c] of the alphabet. *)
Theorem chartags_alphabets_inverse (words alphabet : list string)
    (strings : list (list string)) (ct : Tags.chartags) :
  Tags.init words alphabet strings = Some ct →
  length (Tags.alphabet_maps ct) = Tags.taglen ct
  ∧ length (Tags.alphabets ct) = Tags.taglen ct
  ∧ ∀ i m a, Tags.alphabet_maps ct !! i = Some m → Tags.alphabets ct !! i = Some a →
      a !! O = Some "<unk>"%string
      ∧ m !! "<unk>"%string = Some 0
      ∧ NoDup a
      ∧ ∀ ch c, m !! ch = Some c ↔ (0 ≤ c ∧ a !! Z.to_nat c = Some ch).
Proof.
  intros Hinit.
  destruct (init_state_of _ _ _ _ Hinit) as [(_ & Hla & [Hlm Hinv] & _) _].
  split; [lia|]. split; [done|].
  intros i m a Hm Ha. destruct (Hinv i m a Hm Ha) as [Hunk Hma].
  split; [done|]. split; [by apply Hma|]. split; [|done].
  apply NoDup_alt. intros j1 j2 x H1 H2.
  assert (m !! x = Some (Z.of_nat j1)) as E1
    by (apply Hma; split; [lia|by rewrite Nat2Z.id]).
  assert (m !! x = Some (Z.of_nat j2)) as E2
    by (apply Hma; split; [lia|by rewrite Nat2Z.id]).
  rewrite E1 in E2. injection E2. lia.
Qed.

Lemma chartags_alphabets_inverse_witness :
  ∃ ct, Tags.init ["<pad>"; "NS"; "VP"; "NP"]%string [] [["NS"%string]] = Some ct
        ∧ length (Tags.alphabets ct) = 2%nat.
Proof.
  destruct (Tags.init ["<pad>"; "NS"; "VP"; "NP"]%string [] [["NS"%string]])
    as [ct|] eqn:Hct; [|by vm_compute in Hct].
  exists ct. split; [done|].
  destruct (chartags_alphabets_inverse _ _ _ ct Hct) as (_ & Hl & _).
  rewrite Hl. vm_compute in Hct. by injection Hct as <-.
Defined.

(** X6. The cache of [CharTags.__init__] holds exactly the ids of the
    training tags that have [taglen] characters; the entry of such a tag
    starts with its id, and its component [k + 1] is an index of the
    alphabet of position [k] at which character [k] of the tag stands: the
    compositional encoding of a cached tag spells the tag. *)
Theorem chartags_cache_spells (words alphabet : list string)
    (strings : list (list string)) (ct : Tags.chartags) :
  Tags.init words alphabet strings = Some ct →
  (∀ tag_id, is_Some (Tags.cache ct !! tag_id)
     ↔ ∃ tag, 0 ≤ tag_id ∧ words !! Z.to_nat tag_id = Some tag
              ∧ String.length tag = Tags.taglen ct)
  ∧ ∀ tag_id entry, Tags.cache ct !! tag_id = Some entry →
      ∃ tag, words !! Z.to_nat tag_id = Some tag
        ∧ head entry = Some tag_id
        ∧ length entry = S (String.length tag)
        ∧ ∀ k ch, Tags.chars tag !! k = Some ch →
            ∃ c a, entry !! S k = Some c ∧ Tags.alphabets ct !! k = Some a
                   ∧ 0 ≤ c ∧ a !! Z.to_nat c = Some ch.
Proof.
  intros Hinit.
  destruct (init_state_of _ _ _ _ Hinit) as [(_ & _ & _ & Hcache & Hdom) _].
  split.
  - intros tag_id. split.
    + intros [entry Hentry].
      destruct (Hcache tag_id entry Hentry) as (tag & codes & Hid & Hw & Hl & _).
      exists tag. split; [lia|done].
    + intros (tag & Hid & Hw & Hl).
      pose proof (lookup_lt_Some _ _ _ Hw) as Hlt.
      rewrite <- (Z2Nat.id tag_id) by done. by apply (Hdom _ tag).
  - intros tag_id entry Hentry.
    destruct (Hcache tag_id entry Hentry)
      as (tag & codes & Hid & Hw & Hl & -> & Hlen & Hsp).
    exists tag. split; [done|]. split; [done|].
    split; [simpl; by rewrite Hlen, length_chars|].
    intros k ch Hch. destruct (Hsp k ch Hch) as (c & a & Hc & Ha & Hc0 & Hac).
    by exists c, a.
Qed.

Lemma chartags_cache_spells_witness :
  ∃ ct, Tags.init ["<pad>"; "NS"; "VP"; "NP"]%string [] [["NS"%string]] = Some ct
        ∧ is_Some (Tags.cache ct !! 3) ∧ Tags.cache ct !! 0 = None.
Proof.
  destruct (Tags.init ["<pad>"; "NS"; "VP"; "NP"]%string [] [["NS"%string]])
    as [ct|] eqn:Hct; [|by vm_compute in Hct].
  exists ct. split; [done|].
  destruct (chartags_cache_spells _ _ _ ct Hct) as (Hdom & _).
  assert (Tags.taglen ct = 2%nat) as Htl
    by (vm_compute in Hct; by injection Hct as <-).
  split.
  - apply Hdom. exists "NP"%string. by rewrite Htl.
  - destruct (Tags.cache ct !! 0) as [e|] eqn:E; [|done].
    destruct (proj1 (Hdom 0) (mk_is_Some _ _ E)) as (tag & _ & Hw & Hl).
    injection Hw as <-. by rewrite Htl in Hl.
Defined.

(** ** What CharTags.encode returns *)

Section chartags_encode_facts.
Import Py Tags TagHeads.

(** Every encoded entry is a cache entry or comes from [encode_uncached]. *)
Lemma encode_entry_cases ct tag_ids seq_ids seqs enc i j erow e :
  encode ct tag_ids seq_ids seqs = Some enc →
  enc !! i = Some erow → erow !! j = Some e →
  ∃ tag_id seq_id,
    (tag_ids !! i ≫= λ r, r !! j) = Some tag_id
    ∧ (cache ct !! tag_id = Some e
       ∨ (cache ct !! tag_id = None
          ∧ encode_uncached ct seqs tag_id seq_id = Some e)).
Proof.
  unfold encode. intros Henc%mapM_Some Herow He.
  destruct (Forall2_lookup_r _ _ _ _ _ Henc Herow) as ([i' srow] & Hi & Hrow).
  rewrite list_lookup_imap in Hi.
  destruct (seq_ids !! i) as [srow'|]; [|done]. simpl in Hi.
  injection Hi as <- <-. cbn beta iota in Hrow.
  apply mapM_Some in Hrow.
  destruct (Forall2_lookup_r _ _ _ _ _ Hrow He) as ([j' seq_id] & Hj & Hcell).
  rewrite list_lookup_imap in Hj.
  destruct (srow' !! j) as [sid|]; [|done]. simpl in Hj.
  injection Hj as <- <-. cbn beta iota in Hcell.
  apply bind_Some_iff in Hcell as (tag_id & Htag & Hcell).
  exists tag_id, sid. split; [done|].
  destruct (cache ct !! tag_id) as [entry|]; [left; congruence|by right].
Qed.

Lemma encode_uncached_entry ct seqs tag_id seq_id e :
  encode_uncached ct seqs tag_id seq_id = Some e →
  ∃ comps, e = tag_id :: comps ∧ length comps = taglen ct
    ∧ ∀ k c, comps !! k = Some c →
        c = 0 ∨ ∃ m ch, alphabet_maps ct !! k = Some m ∧ m !! ch = Some c.
Proof.
  unfold encode_uncached.
  intros (sq & Hsq & Hrest)%bind_Some_iff.
  destruct (decide (length sq = taglen ct)) as [Hlen|Hlen].
  - apply bind_Some_iff in Hrest as (comps & Hcomps & [= <-]).
    apply mapM_Some in Hcomps.
    exists comps. split; [done|].
    split; [by rewrite <- (Forall2_length _ _ _ Hcomps), length_seq|].
    intros k c Hc.
    destruct (Forall2_lookup_r _ _ _ _ _ Hcomps Hc) as (k' & Hk & Hf).
    apply lookup_seq in Hk as [-> _]. simpl in Hf.
    apply bind_Some_iff in Hf as (cc & _ & Hf).
    apply bind_Some_iff in Hf as (ch & _ & Hf).
    apply bind_Some_iff in Hf as (m & Hm & [= <-]).
    destruct (m !! ch) as [c|] eqn:Hch; simpl; [right|by left].
    by exists m, ch.
  - injection Hrest as <-. eexists. split; [done|].
    split; [by rewrite length_replicate|].
    intros k c [-> _]%lookup_replicate. by left.
Qed.

End chartags_encode_facts.

(** X7. Every entry that [CharTags.encode] returns has one component per
    head of [num_tags] (as many as [accuracy_mask] has flags), and every
    compositional component is a class of its head: component [k >= 1] is
    at least 0 and less than the class count of head [k], the size of the
    alphabet of tag position [k - 1]. *)
Theorem chartags_encode_within_heads (words alphabet : list string)
    (strings : list (list string)) (ct : Tags.chartags)
    (tag_ids seq_ids seqs : list (list Z)) (enc : list (list (list Z)))
    (w_comp w_whole : Q) (i j : nat) (erow : list (list Z)) (e : list Z) :
  Tags.init words alphabet strings = Some ct →
  Tags.encode ct tag_ids seq_ids seqs = Some enc →
  enc !! i = Some erow → erow !! j = Some e →
  length e = length (TagHeads.num_tags ct w_comp w_whole)
  ∧ length e = length (TagHeads.accuracy_mask ct)
  ∧ ∀ k c, e !! S k = Some c →
      ∃ classes w,
        TagHeads.num_tags ct w_comp w_whole !! S k = Some (classes, w)
        ∧ 0 ≤ c < Z.of_nat classes.
Proof.
  intros Hinit Henc Herow He.
  destruct (init_state_of _ _ _ _ Hinit) as [(_ & Hla & [Hlm Hinv] & Hcache & _) _].
  assert (∀ k a, Tags.alphabets ct !! k = Some a → (0 < length a)%nat) as Hpos.
  { intros k a Ha. destruct (lookup_lt_is_Some_2 (Tags.alphabet_maps ct) k) as [m Hm].
    { rewrite Hlm. by eapply lookup_lt_Some. }
    destruct (Hinv k m a Hm Ha) as [Hunk _]. by eapply lookup_lt_Some. }
  assert (∃ comps, e = hd 0 e :: comps ∧ length comps = Tags.taglen ct
            ∧ ∀ k c, comps !! k = Some c →
                ∃ a, Tags.alphabets ct !! k = Some a ∧ 0 ≤ c < Z.of_nat (length a))
    as (comps & -> & Hlen & Hrange).
  { destruct (encode_entry_cases _ _ _ _ _ _ _ _ _ Henc Herow He)
      as (tag_id & seq_id & _ & [Hhit|[_ Hmiss]]).
    - destruct (Hcache tag_id e Hhit) as (tag & codes & _ & _ & Hl & -> & Hlc & Hsp).
      exists codes. split; [done|]. split; [by rewrite Hlc, length_chars|].
      intros k c Hc.
      destruct (lookup_lt_is_Some_2 (Tags.chars tag) k) as [ch Hch].
      { rewrite <- Hlc. by eapply lookup_lt_Some. }
      destruct (Hsp k ch Hch) as (c' & a & Hc' & Ha & Hc0 & Hac).
      simpl in Ha. exists a. split; [done|].
      assert (c = c') as -> by congruence.
      apply lookup_lt_Some in Hac. lia.
    - destruct (encode_uncached_entry _ _ _ _ _ Hmiss) as (comps & -> & Hlc & Hcomps).
      exists comps. split; [done|]. split; [done|].
      intros k c Hc.
      destruct (lookup_lt_is_Some_2 (Tags.alphabets ct) k) as [a Ha].
      { rewrite Hla, <- Hlc. by eapply lookup_lt_Some. }
      exists a. split; [done|].
      destruct (Hcomps k c Hc) as [->|(m & ch & Hm & Hch)].
      + pose proof (Hpos k a Ha). lia.
      + destruct (Hinv k m a Hm Ha) as [_ Hma].
        apply Hma in Hch as [Hc0 Hac]. apply lookup_lt_Some in Hac. lia. }
  unfold TagHeads.num_tags, TagHeads.accuracy_mask. simpl.
  rewrite length_map, length_replicate, Hla, Hlen.
  split; [done|]. split; [done|].
  intros k c Hc. destruct (Hrange k c Hc) as (a & Ha & Hr).
  exists (length a), w_comp. split; [|done].
  by rewrite list_lookup_fmap, Ha.
Qed.

Lemma chartags_encode_within_heads_witness :
  ∃ ct enc,
    Tags.init ["<pad>"; "NS"; "VP"; "NP"; "X"]%string ["<pad>"; "N"]%string
      [["NS"%string]] = Some ct
    ∧ Tags.encode ct [[3; 4]] [[0; 1]] [[1; 1]; [0]] = Some enc
    ∧ enc = [[[3; 1; 2]; [4; 0; 0]]].
Proof.
  destruct (Tags.init ["<pad>"; "NS"; "VP"; "NP"; "X"]%string ["<pad>"; "N"]%string
              [["NS"%string]]) as [ct|] eqn:Hct; [|by vm_compute in Hct].
  destruct (Tags.encode ct [[3; 4]] [[0; 1]] [[1; 1]; [0]]) as [enc|] eqn:Henc.
  2:{ vm_compute in Hct. injection Hct as <-. by vm_compute in Henc. }
  exists ct, enc. split; [done|]. split; [done|].
  assert (enc = [[[3; 1; 2]; [4; 0; 0]]]) as Hval.
  { vm_compute in Hct. injection Hct as <-. vm_compute in Henc. congruence. }
  pose proof (chartags_encode_within_heads _ _ _ ct _ _ _ enc 1%Q 1%Q O O
                [[3; 1; 2]; [4; 0; 0]] [3; 1; 2] Hct Henc) as H.
  rewrite Hval in H. by destruct (H eq_refl eq_refl).
Defined.

(** X8. The cache of [CharTags] only saves work: for a cached tag id whose
    sequence in [seqs] spells the tag in the training alphabet, the branch
    for uncached ids computes the entry that the cache holds. *)
Theorem chartags_cache_agrees (words alphabet : list string)
    (strings : list (list string)) (ct : Tags.chartags)
    (seqs : list (list Z)) (tag_id seq_id : Z) (entry sq : list Z) (tag : string) :
  Tags.init words alphabet strings = Some ct →
  Tags.cache ct !! tag_id = Some entry →
  words !! Z.to_nat tag_id = Some tag →
  Py.py_index seqs seq_id = Some sq →
  Forall2 (λ c ch, 0 ≤ c < Z.of_nat (length alphabet)
                   ∧ alphabet !! Z.to_nat c = Some ch) sq (Tags.chars tag) →
  Tags.encode_uncached ct seqs tag_id seq_id = Some entry.
Proof.
  intros Hinit Hentry Htag Hsq Hspell.
  destruct (init_state_of _ _ _ _ Hinit)
    as [(_ & Hla & [Hlm Hinv] & Hcache & _) Halpha].
  destruct (Hcache tag_id entry Hentry)
    as (tag' & codes & _ & Hw & Hl & -> & Hlc & Hsp).
  assert (tag' = tag) as -> by congruence.
  pose proof (Forall2_length _ _ _ Hspell) as Hlsq. rewrite length_chars in Hlsq.
  unfold Tags.encode_uncached. rewrite Hsq. simpl.
  rewrite decide_True by lia.
  match goal with |- mapM ?f ?l ≫= _ = _ =>
    assert (mapM f l = Some codes) as ->; [|done]
  end.
  apply mapM_Some, Forall2_same_length_lookup_2.
  { by rewrite length_seq, Hlc, length_chars. }
  intros k x c Hx Hc. apply lookup_seq in Hx as [-> Hk]. cbn [Nat.add].
  destruct (lookup_lt_is_Some_2 sq k) as [cc Hcc]; [lia|].
  destruct (lookup_lt_is_Some_2 (Tags.chars tag) k) as [ch Hch];
    [rewrite length_chars; lia|].
  destruct (Forall2_lookup_lr _ _ _ _ _ _ Hspell Hcc Hch) as [Hrange Hlook].
  rewrite Hcc. simpl. rewrite Halpha.
  rewrite (proj2 (Z.ltb_lt cc (Z.of_nat (length alphabet)))) by lia.
  rewrite py_index_nonneg by lia. rewrite Hlook. simpl.
  destruct (Hsp k ch Hch) as (c' & a & Hc' & Ha & Hc0 & Hac). simpl in Ha.
  assert (c' = c) as -> by congruence.
  destruct (lookup_lt_is_Some_2 (Tags.alphabet_maps ct) k) as [m Hm].
  { rewrite Hlm. by eapply lookup_lt_Some. }
  rewrite Hm. simpl. destruct (Hinv k m a Hm Ha) as [_ Hma].
  by rewrite (proj2 (Hma ch c) (conj Hc0 Hac)).
Qed.

Lemma chartags_cache_agrees_witness :
  ∃ ct entry,
    Tags.init ["<pad>"; "NS"; "VP"; "NP"]%string ["<pad>"; "N"; "S"; "V"; "P"]%string
      [["NS"%string]] = Some ct
    ∧ Tags.cache ct !! 3 = Some entry
    ∧ Tags.encode_uncached ct [[1; 4]] 3 0 = Some entry.
Proof.
  destruct (Tags.init ["<pad>"; "NS"; "VP"; "NP"]%string
              ["<pad>"; "N"; "S"; "V"; "P"]%string [["NS"%string]])
    as [ct|] eqn:Hct; [|by vm_compute in Hct].
  destruct (Tags.cache ct !! 3) as [entry|] eqn:Hentry.
  2:{ vm_compute in Hct. injection Hct as <-. by vm_compute in Hentry. }
  exists ct, entry. split; [done|]. split; [done|].
  apply (chartags_cache_agrees _ _ _ ct [[1; 4]] 3 0 entry [1; 4] "NP"%string Hct Hentry);
    [done | done |].
  repeat constructor; simpl; lia.
Defined.

(** ** WholeTags and the errors of decode *)

Section decode_facts.
Import Py Tags TagHeads.

Lemma py_index_is_Some {A : Type} (l : list A) (i : Z) :
  is_Some (py_index l i) ↔ - Z.of_nat (length l) ≤ i < Z.of_nat (length l).
Proof.
  unfold py_index. destruct (Z.leb_spec 0 i).
  - rewrite lookup_lt_is_Some. lia.
  - destruct (Z.leb_spec (- Z.of_nat (length l)) i).
    + rewrite lookup_lt_is_Some. lia.
    + split; [by intros [? ?]|lia].
Qed.

End decode_facts.

(** X9. The [WholeTags] round trip: [encode] gives every tag id an entry of
    one component, as many as [num_tags] has heads and [accuracy_mask] has
    flags, and [decode] of the encoded matrix is the lookup, position by
    position, of the tag ids in the training tag vocabulary. *)
Theorem wholetags_round_trip (words : list string) (tag_ids : list (list Z)) :
  Forall (Forall (λ e, length e = length (TagHeads.whole_num_tags words)
                       ∧ length e = length TagHeads.whole_accuracy_mask))
    (TagHeads.whole_encode tag_ids)
  ∧ Tags.decode words (TagHeads.whole_encode tag_ids)
    = mapM (mapM (Py.py_index words)) tag_ids.
Proof.
  split.
  - unfold TagHeads.whole_encode.
    apply Forall_fmap, Forall_forall. intros row _. simpl.
    by apply Forall_fmap, Forall_forall.
  - unfold Tags.decode, TagHeads.whole_encode. apply mapM_related.
    apply Forall2_fmap_l, Forall_Forall2_diag, Forall_forall. intros row _.
    apply mapM_related.
    apply Forall2_fmap_l, Forall_Forall2_diag, Forall_forall. by intros tag_id _.
Qed.

(** X10. [decode] raises exactly when some tag has no component or its
    component 0 is outside [-n, n) for the [n] training tag words; a
    negative component in that range counts from the end of the words. *)
Theorem decode_errors (words : list string) (tags : list (list (list Z))) :
  (is_Some (Tags.decode words tags)
   ↔ Forall (Forall (λ tag, ∃ tag0, head tag = Some tag0
               ∧ - Z.of_nat (length words) ≤ tag0 < Z.of_nat (length words))) tags)
  ∧ ∀ out s i tag0 rest row,
      Tags.decode words tags = Some out →
      tags !! s = Some row → row !! i = Some (tag0 :: rest) → tag0 < 0 →
      out !! s ≫= (λ r, r !! i)
      = words !! Z.to_nat (Z.of_nat (length words) + tag0).
Proof.
  split.
  - unfold Tags.decode. rewrite mapM_is_Some.
    split; intros H; eapply Forall_impl; try exact H; simpl; intros row;
      rewrite mapM_is_Some; intros H'; eapply Forall_impl; try exact H'; simpl;
      intros tag.
    + intros [w Hw]. apply bind_Some_iff in Hw as (tag0 & Hh & Hw).
      exists tag0. split; [done|]. apply py_index_is_Some. by exists w.
    + intros (tag0 & -> & Hr). simpl. by apply py_index_is_Some.
  - intros out s i tag0 rest row Hdec Hrow Htag Hneg.
    apply mapM_Some in Hdec.
    destruct (Forall2_lookup_l _ _ _ _ _ Hdec Hrow) as (orow & Horow & Hm).
    apply mapM_Some in Hm.
    destruct (Forall2_lookup_l _ _ _ _ _ Hm Htag) as (w & Hw & Hf).
    rewrite Horow. simpl. rewrite Hw. simpl in Hf.
    pose proof (proj1 (py_index_is_Some words tag0) (mk_is_Some _ _ Hf)) as Hr.
    rewrite <- Hf. unfold Py.py_index.
    rewrite (proj2 (Z.leb_gt 0 tag0)) by lia.
    by rewrite (proj2 (Z.leb_le (- Z.of_nat (length words)) tag0)) by lia.
Qed.

Lemma decode_errors_witness :
  Tags.decode ["a"; "b"; "c"]%string [[[-1]; [0]]] = Some [["c"; "a"]]%string
  ∧ ([["c"; "a"]]%string !! O ≫= λ r, r !! O) = ["a"; "b"; "c"]%string !! 2%nat.
Proof.
  split; [done|].
  exact (proj2 (decode_errors ["a"; "b"; "c"]%string [[[-1]; [0]]])
           [["c"; "a"]]%string O O (-1) [] [[-1]; [0]] eq_refl eq_refl eq_refl
           ltac:(lia)).
Defined.

(** ** The learning rate of main *)

Section rate_facts.
Import Main.
#[local] Open Scope Q_scope.

Lemma quarter_pow_le_1 (k : Z) : (0 ≤ k)%Z → (1 # 4) ^ k <= 1.
Proof.
  intros Hk. rewrite Qinv_power_n.
  assert (1 <= inject_Z 4 ^ k) as H1 by (by apply Qpower_1_le).
  apply Qle_shift_inv_r.
  - by apply (Qlt_le_trans 0 1).
  - by rewrite Qmult_1_l.
Qed.

Lemma quarter_pow_mono (n m : Z) : (n ≤ m)%Z → (1 # 4) ^ m <= (1 # 4) ^ n.
Proof.
  intros Hnm. replace m with (n + (m - n))%Z by lia.
  rewrite Qpower_plus by done.
  rewrite <- (Qmult_1_r ((1 # 4) ^ n)) at 2.
  apply Qmult_le_l; [by apply Qpower_0_lt|].
  apply quarter_pow_le_1. lia.
Qed.

Lemma rate_before lr d ep : (Z.of_nat ep < d)%Z → rate lr d ep = lr.
Proof.
  intros H. unfold rate. rewrite (proj2 (Z.leb_gt d (Z.of_nat ep)) H).
  by rewrite andb_false_r.
Qed.

Lemma rate_after lr d ep :
  d ≠ 0%Z → (d ≤ Z.of_nat ep)%Z →
  rate lr d ep = lr * (1 # 4) ^ (1 + (Z.of_nat ep - d) / 10).
Proof.
  intros Hd H. unfold rate.
  rewrite (proj2 (Z.leb_le d (Z.of_nat ep)) H), (proj2 (Z.eqb_neq d 0) Hd). done.
Qed.

End rate_facts.

(** X11. The learning rate of [main].  Before epoch [drop_rate_after] it is
    [learning_rate]; at that epoch it is a quarter of it, and from there on
    the rate of an epoch is a quarter of the rate ten epochs earlier; it
    never grows from an epoch to a later one; and [drop_rate_after = 0]
    switches the schedule off. *)
Theorem learning_rate_schedule (learning_rate : Q) (drop_rate_after : Z) :
  (∀ ep, Z.of_nat ep < drop_rate_after →
     Main.rate learning_rate drop_rate_after ep = learning_rate)
  ∧ (drop_rate_after = 0 →
     ∀ ep, Main.rate learning_rate drop_rate_after ep = learning_rate)
  ∧ (0 < drop_rate_after →
     (Main.rate learning_rate drop_rate_after (Z.to_nat drop_rate_after)
      == learning_rate * (1 # 4))%Q)
  ∧ (drop_rate_after ≠ 0 → ∀ ep, drop_rate_after ≤ Z.of_nat ep →
     (Main.rate learning_rate drop_rate_after (ep + 10)
      == Main.rate learning_rate drop_rate_after ep * (1 # 4))%Q)
  ∧ ((0 <= learning_rate)%Q → ∀ ep1 ep2, (ep1 ≤ ep2)%nat →
     (Main.rate learning_rate drop_rate_after ep2
      <= Main.rate learning_rate drop_rate_after ep1)%Q).
Proof.
  split; [|split; [|split; [|split]]].
  - intros ep. apply rate_before.
  - intros -> ep. done.
  - intros Hd. rewrite rate_after by lia.
    replace (Z.of_nat (Z.to_nat drop_rate_after) - drop_rate_after) with 0 by lia.
    reflexivity.
  - intros Hd ep Hep. rewrite !rate_after by lia.
    replace (1 + (Z.of_nat (ep + 10) - drop_rate_after) / 10)
      with ((1 + (Z.of_nat ep - drop_rate_after) / 10) + 1).
    2:{ replace (Z.of_nat (ep + 10) - drop_rate_after)
          with (Z.of_nat ep - drop_rate_after + 1 * 10) by lia.
        rewrite Z.div_add by lia. lia. }
    rewrite Qpower_plus by done. rewrite Qmult_assoc. reflexivity.
  - intros Hlr ep1 ep2 Hle.
    destruct (decide (drop_rate_after = 0)) as [->|Hd]; [apply Qle_refl|].
    destruct (decide (drop_rate_after ≤ Z.of_nat ep2)) as [H2|H2].
    2:{ rewrite !rate_before by lia. apply Qle_refl. }
    rewrite (rate_after _ _ ep2) by done.
    assert (0 ≤ (Z.of_nat ep2 - drop_rate_after) / 10) as He2
      by (apply Z.div_pos; lia).
    destruct (decide (drop_rate_after ≤ Z.of_nat ep1)) as [H1|H1].
    + rewrite (rate_after _ _ ep1) by done.
      rewrite !(Qmult_comm learning_rate).
      apply Qmult_le_compat_r; [|done].
      apply quarter_pow_mono.
      assert ((Z.of_nat ep1 - drop_rate_after) / 10
              ≤ (Z.of_nat ep2 - drop_rate_after) / 10)
        by (apply Z.div_le_mono; lia).
      lia.
    + rewrite rate_before by lia.
      rewrite <- (Qmult_1_r learning_rate) at 2.
      rewrite !(Qmult_comm learning_rate).
      apply Qmult_le_compat_r; [|done].
      apply quarter_pow_le_1. lia.
Qed.

Lemma learning_rate_schedule_witness :
  Main.rate (1 # 1000) 20 5 = (1 # 1000)%Q
  ∧ (Main.rate (1 # 1000) 20 20 == (1 # 1000) * (1 # 4))%Q
  ∧ (Main.rate (1 # 1000) 20 35 == Main.rate (1 # 1000) 20 25 * (1 # 4))%Q
  ∧ (Main.rate (1 # 1000) 20 40 <= Main.rate (1 # 1000) 20 10)%Q.
Proof.
  destruct (learning_rate_schedule (1 # 1000) 20) as (H1 & _ & H3 & H4 & H5).
  split; [apply (H1 5%nat); lia|].
  split; [apply H3; lia|].
  split; [apply (H4 ltac:(lia) 25%nat); lia|].
  apply (H5 ltac:(unfold Qle; simpl; lia) 10%nat 40%nat); lia.
Defined.

(** ** The epochs of main whose predictions are written *)

Section epochs_facts.
Import Main.
#[local] Open Scope Q_scope.

Lemma py_max_l (b s : Q) : b <= py_max b s.
Proof.
  unfold py_max. destruct (Qlt_le_dec b s); [by apply Qlt_le_weak|apply Qle_refl].
Qed.

Lemma py_max_r (b s : Q) : s <= py_max b s.
Proof. unfold py_max. destruct (Qlt_le_dec b s); [apply Qle_refl|done]. Qed.

Lemma fold_py_max_start (scores : list Q) (b : Q) : b <= fold_left py_max scores b.
Proof.
  revert b. induction scores as [|s scores IH]; intros b; [apply Qle_refl|].
  simpl. eapply Qle_trans; [apply (py_max_l b s)|apply IH].
Qed.

Lemma fold_py_max_upper (scores : list Q) (b score : Q) :
  score ∈ scores → score <= fold_left py_max scores b.
Proof.
  revert b. induction scores as [|s scores IH]; intros b Hin.
  - by apply elem_of_nil in Hin.
  - apply elem_of_cons in Hin as [->|Hin]; simpl.
    + eapply Qle_trans; [apply (py_max_r b s)|apply fold_py_max_start].
    + by apply IH.
Qed.

Lemma fold_py_max_attained (scores : list Q) (b : Q) :
  fold_left py_max scores b = b ∨ fold_left py_max scores b ∈ scores.
Proof.
  revert b. induction scores as [|s scores IH]; intros b; [by left|].
  simpl. destruct (IH (py_max b s)) as [->|Hin].
  - unfold py_max. destruct (Qlt_le_dec b s); [right; left|by left].
  - right. by right.
Qed.

Lemma epochs_from_spec (epochs : nat) (scores : list Q) :
  ∀ (written : list nat) (dev_best : Q) (ep : nat),
    (epochs_from epochs (written, dev_best) ep scores).2
    = fold_left py_max scores dev_best
    ∧ ∀ e, e ∈ (epochs_from epochs (written, dev_best) ep scores).1 ↔
        e ∈ written
        ∨ ∃ k score, e = (ep + k)%nat ∧ scores !! k = Some score
            ∧ (fold_left py_max (take k scores) dev_best < score
               ∨ e = (epochs - 1)%nat).
Proof.
  induction scores as [|s scores IH]; intros written dev_best ep.
  - split; [done|]. intros e. simpl. split; [by left|].
    intros [H|(k & score & _ & H & _)]; [done|by rewrite lookup_nil in H].
  - cbn [epochs_from epoch_step].
    destruct (IH (if Qlt_le_dec dev_best s then written ++ [ep]
                  else if (ep =? epochs - 1)%nat then written ++ [ep]
                  else written) (py_max dev_best s) (S ep)) as [IH1 IH2].
    split; [exact IH1|]. intros e. rewrite IH2. clear IH1 IH2. split.
    + intros [Hin|(k & score & -> & Hk & Hc)].
      * destruct (Qlt_le_dec dev_best s) as [Hlt|Hle].
        { apply elem_of_app in Hin as [Hin|Hin]; [by left|].
          apply list_elem_of_singleton in Hin as ->. right.
          exists O, s. rewrite Nat.add_0_r. split; [done|]. split; [done|].
          by left. }
        destruct (Nat.eqb_spec ep (epochs - 1)) as [Heq|Hne]; [|by left].
        apply elem_of_app in Hin as [Hin|Hin]; [by left|].
        apply list_elem_of_singleton in Hin as ->. right.
        exists O, s. rewrite Nat.add_0_r. split; [done|]. split; [done|].
        by right.
      * right. exists (S k), score. split; [lia|]. split; [done|].
        destruct Hc as [Hc|Hc]; [left; exact Hc|right; lia].
    + intros [Hin|(k & score & -> & Hk & Hc)].
      * left. destruct (Qlt_le_dec dev_best s); [apply elem_of_app; by left|].
        destruct (ep =? epochs - 1)%nat; [apply elem_of_app; by left|done].
      * destruct k as [|k].
        { simpl in Hk. injection Hk as ->. left. rewrite Nat.add_0_r in *.
          simpl in Hc. destruct (Qlt_le_dec dev_best score) as [Hlt|Hle].
          - apply elem_of_app. right. by apply list_elem_of_singleton.
          - destruct Hc as [Hc|Hc]; [by apply Qlt_not_le in Hc|].
            rewrite (proj2 (Nat.eqb_eq ep (epochs - 1)) Hc).
            apply elem_of_app. right. by apply list_elem_of_singleton. }
        right. exists k, score. split; [lia|]. split; [done|].
        destruct Hc as [Hc|Hc]; [left; exact Hc|right; lia].
Qed.

End epochs_facts.

(** X12. The loop of [main] over the epochs.  The predictions of an epoch
    are written exactly when its dev score is greater than the best score of
    the epochs before it (0 to start with), or the epoch is the last one;
    the final [dev_best] is the best score of all epochs: no score is
    greater, and it is one of the scores, or 0. *)
Theorem best_epochs_written (scores : list Q) :
  (Main.train_loop scores).2 = Main.best_of scores
  ∧ (∀ ep, ep ∈ (Main.train_loop scores).1 ↔
       ∃ score, scores !! ep = Some score
         ∧ ((Main.best_of (take ep scores) < score)%Q
            ∨ ep = (length scores - 1)%nat))
  ∧ (∀ score, score ∈ scores → (score <= Main.best_of scores)%Q)
  ∧ (Main.best_of scores = 0%Q ∨ Main.best_of scores ∈ scores).
Proof.
  unfold Main.train_loop, Main.best_of.
  destruct (epochs_from_spec (length scores) scores [] 0%Q O) as [H1 H2].
  split; [exact H1|]. split; [|split].
  - intros ep. rewrite H2. split.
    + intros [Hin|(k & score & -> & Hk & Hc)]; [by apply elem_of_nil in Hin|].
      by exists score.
    + intros (score & Hk & Hc). right. by exists ep, score.
  - intros score. apply fold_py_max_upper.
  - apply fold_py_max_attained.
Qed.

Lemma best_epochs_written_witness :
  ((1 # 4) <= Main.best_of [1 # 2; 1 # 4; 3 # 4; 1 # 4])%Q
  ∧ 3%nat ∈ (Main.train_loop [1 # 2; 1 # 4; 3 # 4; 1 # 4]).1.
Proof.
  destruct (best_epochs_written [1 # 2; 1 # 4; 3 # 4; 1 # 4]) as (_ & H2 & H3 & _).
  split.
  - apply H3. apply elem_of_cons. right. apply elem_of_cons. by left.
  - apply H2. exists (1 # 4)%Q. split; [reflexivity|]. right. reflexivity.
Defined.

(** ** The predictions written by main *)

Section writer_facts.
Import Main.

Lemma mapM_seq_iff {C : Type} (f : nat → option C) (n : nat) (res : list C) :
  mapM f (seq 0 n) = Some res
  ↔ length res = n ∧ ∀ i, (i < n)%nat → f i = res !! i.
Proof.
  rewrite mapM_Some. split.
  - intros H. pose proof (Forall2_length _ _ _ H) as Hlen.
    rewrite length_seq in Hlen. split; [done|]. intros i Hi.
    destruct (Forall2_lookup_l _ _ _ i i H) as (y & Hy & Hf).
    { by apply lookup_seq_lt. }
    by rewrite Hy.
  - intros [Hlen Hf]. apply Forall2_same_length_lookup_2.
    { by rewrite length_seq. }
    intros i x y [-> Hi]%lookup_seq Hy. simpl. by rewrite Hf.
Qed.

Lemma lookup_row {A : Type} (rows : list (list A)) (s i : nat) :
  rows !! s ≫= (.!! i) = default [] (rows !! s) !! i.
Proof. by destruct (rows !! s). Qed.

Lemma write_sentence_iff (f : list string) (lemmas tags : list (list string))
    (s : nat) (lines : list string) :
  write_sentence f lemmas tags s = Some lines
  ↔ ((length f ≤ length (default [] (lemmas !! s)))%nat
     ∧ (length f ≤ length (default [] (tags !! s)))%nat)
    ∧ lines = sentence_lines f (default [] (lemmas !! s)) (default [] (tags !! s)).
Proof.
  unfold write_sentence, sentence_lines. rewrite bind_Some_iff.
  set (l := default [] (lemmas !! s)). set (t := default [] (tags !! s)).
  split.
  - intros (ls & [Hlen Hf]%mapM_seq_iff & [= <-]).
    assert (∀ i, (i < length f)%nat →
              (form ← f !! i; lemma ← l !! i; tag ← t !! i;
               Some (line form lemma tag)) = ls !! i) as Hf'.
    { intros i Hi. rewrite <- (Hf i Hi), !lookup_row. done. }
    clear Hf.
    assert ((length f ≤ length l)%nat ∧ (length f ≤ length t)%nat) as Hcov.
    { split; apply Nat.nlt_ge; intros Hlt.
      - specialize (Hf' (length l) Hlt).
        destruct (lookup_lt_is_Some_2 ls (length l)) as [y Hy]; [lia|].
        rewrite Hy in Hf'. rewrite (lookup_ge_None_2 l (length l)) in Hf' by lia.
        by destruct (f !! length l).
      - specialize (Hf' (length t) Hlt).
        destruct (lookup_lt_is_Some_2 ls (length t)) as [y Hy]; [lia|].
        rewrite Hy in Hf'. rewrite (lookup_ge_None_2 t (length t)) in Hf' by lia.
        by destruct (f !! length t), (l !! length t). }
    split; [done|]. f_equal. apply list_eq. intros i.
    rewrite !lookup_zip_with.
    destruct (decide (i < length f)%nat) as [Hi|Hi].
    + rewrite <- (Hf' i Hi).
      by destruct (f !! i), (l !! i), (t !! i).
    + rewrite (lookup_ge_None_2 ls i) by lia.
      by rewrite (lookup_ge_None_2 f i) by lia.
  - intros [[Hl Ht] ->]. eexists. split; [|done]. apply mapM_seq_iff. split.
    + rewrite length_zip_with_l; [done|]. rewrite length_zip_with. lia.
    + intros i Hi. rewrite !lookup_row, !lookup_zip_with. fold l t.
      by destruct (f !! i), (l !! i), (t !! i).
Qed.

Lemma concat_sentences (lemmas tags : list (list string)) (forms : list (list string)) :
  ∀ (a : nat) (sents : list (list string)),
    length sents = length forms →
    (∀ i f, forms !! i = Some f →
       sents !! i = Some (sentence_lines f (default [] (lemmas !! (a + i)%nat))
                            (default [] (tags !! (a + i)%nat)))) →
    concat sents = dataset_lines_from a forms lemmas tags.
Proof.
  induction forms as [|f forms IH]; intros a sents Hlen Hs.
  - by destruct sents.
  - destruct sents as [|x sents]; [done|]. simpl.
    pose proof (Hs O f eq_refl) as H0. simpl in H0. injection H0 as ->.
    rewrite Nat.add_0_r. f_equal. apply IH; [simpl in Hlen; lia|].
    intros i f' Hi. specialize (Hs (S i) f' Hi). simpl in Hs.
    by replace (S a + i)%nat with (a + S i)%nat by lia.
Qed.

Lemma write_predictions_iff (forms lemmas tags : list (list string)) lines :
  write_predictions forms lemmas tags = Some lines
  ↔ covers forms lemmas tags ∧ lines = dataset_lines forms lemmas tags.
Proof.
  unfold write_predictions, dataset_lines. rewrite bind_Some_iff. split.
  - intros (sents & [Hlen Hf]%mapM_seq_iff & [= <-]).
    assert (∀ s f, forms !! s = Some f →
              write_sentence f lemmas tags s = sents !! s) as Hf'.
    { intros s f Hs. rewrite <- (Hf s) by (by eapply lookup_lt_Some).
      by rewrite Hs. }
    assert (∀ s f, forms !! s = Some f → ∃ x, sents !! s = Some x) as Hx.
    { intros s f Hs. apply lookup_lt_is_Some_2.
      apply lookup_lt_Some in Hs. lia. }
    split.
    + intros s f Hs. destruct (Hx s f Hs) as [x Hsx].
      pose proof (Hf' s f Hs) as Hw. rewrite Hsx in Hw.
      by apply write_sentence_iff in Hw as [? _].
    + apply concat_sentences; [done|]. intros s f Hs.
      destruct (Hx s f Hs) as [x Hsx].
      pose proof (Hf' s f Hs) as Hw. rewrite Hsx in Hw.
      by apply write_sentence_iff in Hw as [_ ->].
  - intros [Hcov ->].
    exists (imap (λ s f, sentence_lines f (default [] (lemmas !! s))
                           (default [] (tags !! s))) forms).
    split.
    + apply mapM_seq_iff. split; [by rewrite length_imap|].
      intros s Hs. destruct (lookup_lt_is_Some_2 forms s) as [f Hfs]; [done|].
      rewrite list_lookup_imap, Hfs. simpl. apply write_sentence_iff.
      split; [by apply Hcov|done].
    + f_equal. apply concat_sentences; [by rewrite length_imap|].
      intros i f Hi. by rewrite list_lookup_imap, Hi.
Qed.

Lemma dataset_lines_from_app (forms : list (list string)) lemmas tags : ∀ a,
  dataset_lines_from a (forms ++ [[]]) lemmas tags
  = dataset_lines_from a forms lemmas tags ++ [EmptyString].
Proof.
  induction forms as [|f forms IH]; intros a; [done|].
  simpl. by rewrite IH, <- !app_assoc.
Qed.

Lemma length_dataset_lines_from (forms : list (list string)) lemmas tags : ∀ a,
  (∀ i f, forms !! i = Some f →
     (length f ≤ length (default [] (lemmas !! (a + i)%nat)))%nat
     ∧ (length f ≤ length (default [] (tags !! (a + i)%nat)))%nat) →
  length (dataset_lines_from a forms lemmas tags)
  = (sum_list (length <$> forms) + length forms)%nat.
Proof.
  induction forms as [|f forms IH]; intros a Hcov; [done|].
  destruct (Hcov O f eq_refl) as [Hl Ht]. rewrite Nat.add_0_r in Hl, Ht.
  rewrite fmap_cons. cbn [dataset_lines_from].
  change (sum_list (length f :: (length <$> forms)))
    with (length f + sum_list (length <$> forms))%nat.
  rewrite length_app, (IH (S a)).
  - unfold sentence_lines. rewrite length_app, length_zip_with_l.
    + simpl. lia.
    + rewrite length_zip_with. lia.
  - intros i f' Hi. specialize (Hcov (S i) f' Hi).
    by replace (S a + i)%nat with (a + S i)%nat by lia.
Qed.

Lemma length_dataset_lines (forms lemmas tags : list (list string)) :
  covers forms lemmas tags →
  length (dataset_lines forms lemmas tags)
  = (sum_list (length <$> forms) + length forms)%nat.
Proof. intros Hcov. apply length_dataset_lines_from. exact Hcov. Qed.

End writer_facts.

(** X13. The prediction files of [main].  Writing the lines
    [form TAB lemma TAB tag] of a dataset succeeds exactly when, for every
    sentence, the rows of [lemmas] and [tags] are at least as long as the
    sentence (an index out of range is an error otherwise); a sentence
    without word forms needs no row, since the rows are indexed once per
    word form.  The lines are then those of the word forms, lemmas and
    tags side by side, an empty line after every sentence: as many lines as
    word forms, plus one per sentence. *)
Theorem written_lines (forms lemmas tags : list (list string)) (lines : list string) :
  (Main.write_predictions forms lemmas tags = Some lines
   ↔ Main.covers forms lemmas tags ∧ lines = Main.dataset_lines forms lemmas tags)
  ∧ (Main.write_predictions forms lemmas tags = Some lines →
     length lines = (sum_list (length <$> forms) + length forms)%nat)
  ∧ (Main.write_predictions forms lemmas tags = Some lines →
     Main.write_predictions (forms ++ [[]]) lemmas tags
     = Some (lines ++ [EmptyString])).
Proof.
  split; [apply write_predictions_iff|]. split.
  - intros [Hcov ->]%write_predictions_iff. by apply length_dataset_lines.
  - intros [Hcov ->]%write_predictions_iff. apply write_predictions_iff. split.
    + intros s f Hs. destruct (decide (s < length forms)%nat) as [Hlt|Hge].
      * rewrite lookup_app_l in Hs by lia. by apply Hcov.
      * rewrite lookup_app_r in Hs by lia.
        destruct (s - length forms)%nat as [|n]; [|done].
        injection Hs as <-. simpl. lia.
    + unfold Main.dataset_lines. by rewrite dataset_lines_from_app.
Qed.

Lemma written_lines_witness :
  Main.write_predictions ([["a"; "b"]]%string ++ [[]]) [["x"; "y"]]%string
                         [["N"; "V"; "A"]]%string
  = Some (Main.dataset_lines [["a"; "b"]]%string [["x"; "y"]]%string
            [["N"; "V"; "A"]]%string ++ [EmptyString])
  ∧ length (Main.dataset_lines [["a"; "b"]]%string [["x"; "y"]]%string
              [["N"; "V"; "A"]]%string) = 3%nat.
Proof.
  pose proof (written_lines [["a"; "b"]]%string [["x"; "y"]]%string
                [["N"; "V"; "A"]]%string
                (Main.dataset_lines [["a"; "b"]]%string [["x"; "y"]]%string
                   [["N"; "V"; "A"]]%string))
    as (_ & Hlen & Hempty).
  split; [exact (Hempty eq_refl)|exact (Hlen eq_refl)].
Defined.

Section predicted_lines_facts.
Import Predict Main.

Lemma sentence_lines_take (f l t : list string) :
  sentence_lines f l (take (length f) t) = sentence_lines f l t.
Proof.
  unfold sentence_lines. f_equal. apply list_eq. intros i.
  rewrite !lookup_zip_with.
  destruct (decide (i < length f)%nat) as [Hi|Hi].
  - by rewrite lookup_take_lt.
  - by rewrite (lookup_ge_None_2 f i) by lia.
Qed.

Lemma dataset_lines_take (forms all_forms lemmas tags : list (list string)) : ∀ a,
  (∀ i f, forms !! i = Some f → all_forms !! (a + i)%nat = Some f) →
  dataset_lines_from a forms lemmas (zip_with take (length <$> all_forms) tags)
  = dataset_lines_from a forms lemmas tags.
Proof.
  induction forms as [|f forms IH]; intros a Hsub; [done|].
  cbn [dataset_lines_from]. rewrite (IH (S a)).
  - f_equal. pose proof (Hsub O f eq_refl) as Hf. rewrite Nat.add_0_r in Hf.
    rewrite lookup_zip_with, list_lookup_fmap, Hf. simpl.
    destruct (tags !! a) as [t|]; simpl; [|done].
    apply sentence_lines_take.
  - intros i f' Hi. specialize (Hsub (S i) f' Hi).
    by replace (S a + i)%nat with (a + S i)%nat by lia.
Qed.

Lemma predict_shapes builtin_sense tag_words alphabet sense_words
    (batches : list batch) : ∀ lemmas tags,
  predict builtin_sense tag_words alphabet sense_words batches = Some (lemmas, tags) →
  Forall2 (λ ls len, length ls = len) lemmas (concat (sentence_lens <$> batches))
  ∧ Forall2 (λ (ts : list string) (row : list (list Z)), length ts = length row)
      tags (concat (tp <$> batches)).
Proof.
  induction batches as [|b batches IH]; intros lemmas tags.
  - intros [= <- <-]. split; constructor.
  - cbn [predict]. intros H.
    apply bind_Some_iff in H as ([lb tb] & Hb & H).
    apply bind_Some_iff in H as ([lr tr] & Hr & [= <- <-]).
    apply predict_batch_iff in Hb as (_ & Hshape & _ & Htags).
    destruct (IH _ _ Hr) as [IH1 IH2].
    rewrite !fmap_cons. cbn [concat]. split.
    + by apply Forall2_app.
    + apply Forall2_app; [|done].
      eapply Forall2_impl; [exact Htags|].
      intros ts row Hrow. by apply Forall2_length in Hrow.
Qed.

Lemma wide_rows (batches : list batch) :
  Forall (λ b, Forall2 (λ (len : nat) (row : list (list Z)), (len ≤ length row)%nat)
                 (sentence_lens b) (tp b)) batches →
  Forall2 (λ (len : nat) (row : list (list Z)), (len ≤ length row)%nat)
    (concat (sentence_lens <$> batches)) (concat (tp <$> batches)).
Proof.
  induction 1 as [|b batches Hb _ IH]; [constructor|].
  rewrite !fmap_cons. cbn [concat]. by apply Forall2_app.
Qed.

End predicted_lines_facts.

(** X14. [predict] followed by the writer of [main].  When [predict]
    returns [(lemmas, tags)] for the batches of a dataset, every batch has a
    row of tag predictions per sentence that is at least as wide as the
    sentence, and [forms] has the word forms of the sentences, the lines
    are written without an error: one per word form and an empty one per
    sentence.  The tag words that a row holds beyond the word forms of its
    sentence are not written: the lines are those of the tag rows cut to
    the lengths of the sentences. *)
Theorem predictions_written (builtin_sense : bool)
    (tag_words alphabet sense_words : list string)
    (batches : list Predict.batch) (forms lemmas tags : list (list string)) :
  Predict.predict builtin_sense tag_words alphabet sense_words batches
    = Some (lemmas, tags) →
  Forall (λ b, Forall2 (λ (len : nat) (row : list (list Z)), (len ≤ length row)%nat)
                 (Predict.sentence_lens b) (Predict.tp b)) batches →
  Forall2 (λ f len, length f = len) forms
    (concat (Predict.sentence_lens <$> batches)) →
  ∃ lines,
    Main.write_predictions forms lemmas tags = Some lines
    ∧ Main.write_predictions forms lemmas (zip_with take (length <$> forms) tags)
      = Some lines
    ∧ length lines
      = (sum_list (concat (Predict.sentence_lens <$> batches))
         + length (concat (Predict.sentence_lens <$> batches)))%nat.
Proof.
  intros Hp Hwide Hforms.
  destruct (predict_shapes _ _ _ _ _ _ _ Hp) as [Hl Ht].
  apply wide_rows in Hwide.
  assert (Main.covers forms lemmas tags) as Hcov.
  { intros s f Hs.
    destruct (Forall2_lookup_l _ _ _ _ _ Hforms Hs) as (len & Hlen & Hf).
    destruct (Forall2_lookup_r _ _ _ _ _ Hl Hlen) as (l & Hls & Hll).
    destruct (Forall2_lookup_l _ _ _ _ _ Hwide Hlen) as (row & Hrow & Hw).
    destruct (Forall2_lookup_r _ _ _ _ _ Ht Hrow) as (t & Hts & Htl).
    rewrite Hls, Hts. simpl. lia. }
  assert (Main.covers forms lemmas (zip_with take (length <$> forms) tags)) as Hcov'.
  { intros s f Hs. destruct (Hcov s f Hs) as [Hfl Hft]. split; [done|].
    rewrite lookup_zip_with, list_lookup_fmap, Hs. simpl.
    destruct (tags !! s) as [t|]; simpl in *; [|done].
    rewrite length_take. lia. }
  exists (Main.dataset_lines forms lemmas tags). split; [|split].
  - by apply write_predictions_iff.
  - apply write_predictions_iff. split; [done|].
    unfold Main.dataset_lines. by rewrite dataset_lines_take.
  - rewrite (length_dataset_lines _ _ _ Hcov).
    assert (length <$> forms = concat (Predict.sentence_lens <$> batches)) as <-.
    { apply list_eq_Forall2. apply Forall2_fmap_l.
      eapply Forall2_impl; [exact Hforms|]. done. }
    by rewrite length_fmap.
Qed.

Lemma predictions_written_witness :
  ∃ lines,
    Main.write_predictions [["A"]; ["B"; "C"]]%string
      [["ab"]; [EmptyString; "c-x"]]%string [["N"; "<pad>"]; ["V"; "N"]]%string
    = Some lines
    ∧ Main.write_predictions [["A"]; ["B"; "C"]]%string
        [["ab"]; [EmptyString; "c-x"]]%string
        (zip_with take (length <$> [["A"]; ["B"; "C"]]%string)
           [["N"; "<pad>"]; ["V"; "N"]]%string)
      = Some lines
    ∧ length lines = (sum_list [1; 2] + 2)%nat.
Proof.
  apply (predictions_written false ["<pad>"; "N"; "V"]%string
           ["<pad>"; "<unk>"; "<bow>"; "<eow>"; "a"; "b"; "c"]%string
           ["<pad>"; "<pad>"; "x"]%string
           [Predict.Batch [1%nat; 2%nat] [[[1]; [0]]; [[2]; [1]]]
              [[4; 5; 3; 0]; [3; 0; 0; 0]; [6; 3; 0; 0]] [3; 1; 2] [0; 1; 2]]).
  - by vm_compute.
  - repeat first [ by simpl; lia | constructor ].
  - repeat first [ done | constructor ].
Defined.

(** ** Word dropout *)

(** X15. Word dropout of [train_epoch].  With a mask of zeros and ones of
    the shape of the word ids, the batch keeps its shape; a word id is
    replaced by the id of ["<unk>"] exactly where the mask is 1, and is
    left as it is where the mask is 0. *)
Theorem word_dropout_cells (mask word_ids : list (list Z)) (unk : Z) :
  Forall2 (λ mr wr, length mr = length wr) mask word_ids →
  Forall (Forall (λ m, m = 0 ∨ m = 1)) mask →
  Forall2 (λ r wr, length r = length wr) (Main.word_dropout mask word_ids unk) word_ids
  ∧ ∀ s i mr wr m w,
      mask !! s = Some mr → mr !! i = Some m →
      word_ids !! s = Some wr → wr !! i = Some w →
      ∃ r, Main.word_dropout mask word_ids unk !! s = Some r
           ∧ r !! i = Some (if decide (m = 1) then unk else w).
Proof.
  intros Hshape Hbits. split.
  - unfold Main.word_dropout. induction Hshape as [|mr wr mask word_ids Hr _ IH].
    + constructor.
    + simpl. constructor.
      * rewrite length_zip_with. lia.
      * apply IH. by apply Forall_cons_1 in Hbits as [_ ?].
  - intros s i mr wr m w Hmr Hm Hwr Hw. unfold Main.word_dropout.
    eexists. split.
    + rewrite lookup_zip_with, Hmr, Hwr. done.
    + rewrite lookup_zip_with, Hm, Hw. simpl. f_equal.
      pose proof (proj1 (Forall_lookup _ _) Hbits s mr Hmr) as Hrow. simpl in Hrow.
      destruct (proj1 (Forall_lookup _ _) Hrow i m Hm) as [->| ->];
        case_decide; lia.
Qed.

Lemma word_dropout_cells_witness :
  ∃ r, Main.word_dropout [[0; 1; 0]; [1; 0; 0]] [[5; 6; 7]; [8; 9; 0]] 1 !! 1%nat
       = Some r
       ∧ r !! 0%nat = Some (if decide (1 = 1) then 1 else 8).
Proof.
  apply (proj2 (word_dropout_cells [[0; 1; 0]; [1; 0; 0]] [[5; 6; 7]; [8; 9; 0]] 1
                  ltac:(repeat constructor)
                  ltac:(repeat first [ by left | by right | constructor ]))
           1%nat 0%nat [1; 0; 0] [8; 9; 0] 1 8); reflexivity.
Defined.

(** ** The weights and the accuracies *)

Section stats_facts.
Import Tensor Stats.

Lemma reduce_sum_app (l k : list Z) : reduce_sum (l ++ k) = reduce_sum l + reduce_sum k.
Proof. induction l as [|x l IH]; simpl; [done|]. rewrite IH. lia. Qed.

Lemma mask_row_S (m : nat) (len : Z) :
  mask_row (S m) len = mask_row m len ++ [bool_decide (Z.of_nat m < len)].
Proof. unfold mask_row. by rewrite seq_S, map_app. Qed.

Lemma length_mask_row (m : nat) (len : Z) : length (mask_row m len) = m.
Proof. unfold mask_row. by rewrite length_map, length_seq. Qed.

Lemma lookup_mask_row (m : nat) (len : Z) (j : nat) :
  (j < m)%nat → mask_row m len !! j = Some (bool_decide (Z.of_nat j < len)).
Proof.
  intros Hj. unfold mask_row.
  change (map ?f ?l) with (f <$> l). rewrite list_lookup_fmap.
  by rewrite lookup_seq_lt.
Qed.

Lemma sum_mask_row (m : nat) (len : Z) :
  0 ≤ len → reduce_sum (map cast (mask_row m len)) = Z.min len (Z.of_nat m).
Proof.
  intros Hlen. induction m as [|m IH]; [simpl; lia|].
  rewrite mask_row_S, map_app, reduce_sum_app, IH. simpl.
  case_bool_decide; simpl; lia.
Qed.

Lemma le_fold_max (lens : list Z) (len : Z) :
  len ∈ lens → len ≤ fold_right Z.max 0 lens.
Proof.
  induction lens as [|x lens IH]; [by intros ?%elem_of_nil|].
  intros [->|Hin]%elem_of_cons; simpl; [lia|]. specialize (IH Hin). lia.
Qed.

Lemma weights_nonneg (lens : list Z) : Forall (Forall (λ w, 0 ≤ w)) (weights lens).
Proof.
  unfold weights. apply Forall_forall. intros row Hrow.
  apply list_elem_of_In, in_map_iff in Hrow as (mrow & <- & _).
  apply Forall_forall. intros w Hw.
  apply list_elem_of_In, in_map_iff in Hw as (b & <- & _). by destruct b.
Qed.

Lemma weighted_sum_bounds (c : list (list bool)) : ∀ w : list (list Z),
  Forall (Forall (λ x, 0 ≤ x)) w →
  0 ≤ reduce_sum2 (zip_with (zip_with (λ c w, cast c * w)) c w) ≤ reduce_sum2 w.
Proof.
  unfold reduce_sum2.
  induction c as [|cr c IH]; intros w Hw.
  - simpl. clear -Hw. induction Hw as [|wr w Hwr _ IH]; simpl; [lia|].
    assert (0 ≤ reduce_sum wr); [|lia].
    clear -Hwr. induction Hwr; simpl; lia.
  - destruct w as [|wr w]; [simpl; lia|].
    apply Forall_cons_1 in Hw as [Hwr Hw]. specialize (IH w Hw). simpl.
    assert (0 ≤ reduce_sum (zip_with (λ c w, cast c * w) cr wr) ≤ reduce_sum wr);
      [|lia].
    clear -Hwr. revert cr. induction Hwr as [|x wr Hx _ IHr]; intros cr.
    + destruct cr; simpl; lia.
    + destruct cr as [|b cr]; simpl.
      * specialize (IHr []). destruct wr; simpl in *; lia.
      * specialize (IHr cr). destruct b; simpl; lia.
Qed.

Lemma weighted_sum_mono (c1 c2 : list (list bool)) :
  Forall2 (Forall2 (λ a b : bool, a = true → b = true)) c1 c2 →
  ∀ w : list (list Z), Forall (Forall (λ x, 0 ≤ x)) w →
  reduce_sum2 (zip_with (zip_with (λ c w, cast c * w)) c1 w)
  ≤ reduce_sum2 (zip_with (zip_with (λ c w, cast c * w)) c2 w).
Proof.
  unfold reduce_sum2.
  induction 1 as [|r1 r2 c1 c2 Hr _ IH]; intros w Hw; [done|].
  destruct w as [|wr w]; [done|].
  apply Forall_cons_1 in Hw as [Hwr Hw]. specialize (IH w Hw). simpl.
  assert (reduce_sum (zip_with (λ c w, cast c * w) r1 wr)
          ≤ reduce_sum (zip_with (λ c w, cast c * w) r2 wr)); [|lia].
  clear -Hr Hwr. revert wr Hwr.
  induction Hr as [|a b r1 r2 Hab _ IHr]; intros wr Hwr; [done|].
  destruct wr as [|x wr]; [done|].
  apply Forall_cons_1 in Hwr as [Hx Hwr]. specialize (IHr wr Hwr). simpl.
  destruct a, b; simpl; try lia; by specialize (Hab eq_refl).
Qed.

Lemma Forall2_zip_with_both {A B C : Type} (f g : A → B → C) (R : C → C → Prop) :
  (∀ x y, R (f x y) (g x y)) →
  ∀ l k, Forall2 R (zip_with f l k) (zip_with g l k).
Proof.
  intros HR l. induction l as [|x l IH]; intros k; [constructor|].
  destruct k as [|y k]; simpl; [constructor|]. by constructor.
Qed.

Lemma forallb_lookup (l : list bool) :
  forallb (λ b : bool, b) l = true ↔ ∀ i b, l !! i = Some b → b = true.
Proof.
  induction l as [|x l IH]; simpl.
  - split; [|done]. intros _ i b. by rewrite lookup_nil.
  - rewrite andb_true_iff, IH. split.
    + intros [-> H] [|i] b; simpl; [by intros [= <-]|apply H].
    + intros H. split; [by apply (H O)|]. intros i b. apply (H (S i)).
Qed.

Lemma tags_equal_tag_correct (mask : list bool) (tags predictions : list Z) :
  tags_equal tags predictions = true → tag_correct mask tags predictions = true.
Proof.
  unfold tags_equal, tag_correct. rewrite !forallb_lookup.
  intros H i b (e & nm & -> & He & _)%lookup_zip_with_Some.
  by rewrite (H i e He).
Qed.

End stats_facts.

(** X16. The weights of the words.  [sequence_mask] of the sentence lengths
    has a 1 for every word of every sentence and a 0 for the padding, so
    for lengths that are not negative [sum_weights] is the sum of the
    sentence lengths, which is [words_count] as long as that number fits
    [int32]. *)
Theorem sum_weights_words_count (sentence_lens : list Z) :
  Forall (λ len, 0 ≤ len) sentence_lens →
  Stats.sum_weights sentence_lens = Stats.reduce_sum sentence_lens
  ∧ (Stats.reduce_sum sentence_lens < 2 ^ 31 →
     Stats.sum_weights sentence_lens = Stats.words_count sentence_lens).
Proof.
  intros Hpos.
  assert (Stats.sum_weights sentence_lens = Stats.reduce_sum sentence_lens) as Hsum.
  { unfold Stats.sum_weights, Stats.reduce_sum2, Stats.weights, Stats.sequence_mask.
    rewrite !map_map. simpl. f_equal.
    transitivity (map (λ len : Z, len) sentence_lens); [|apply map_id].
    apply map_ext_in.
    intros len Hin. rewrite sum_mask_row.
    - apply list_elem_of_In, le_fold_max in Hin. lia.
    - apply list_elem_of_In in Hin.
      by apply (proj1 (Forall_forall _ _) Hpos). }
  split; [done|]. intros Hsmall. rewrite Hsum. unfold Stats.words_count.
  symmetry. apply wrap32_small.
  assert (0 ≤ Stats.reduce_sum sentence_lens); [|lia].
  clear -Hpos. induction Hpos; simpl; lia.
Qed.

Lemma sum_weights_words_count_witness :
  Stats.sum_weights [3; 0; 2] = Stats.reduce_sum [3; 0; 2]
  ∧ Stats.sum_weights [3; 0; 2] = Stats.words_count [3; 0; 2].
Proof.
  destruct (sum_weights_words_count [3; 0; 2]) as [H1 H2].
  - repeat first [ lia | constructor ].
  - split; [exact H1|]. apply H2. vm_compute. reflexivity.
Defined.

(** X17. The tag accuracies of [compute_tags], for a batch with at least
    one word.  A word that is right on every head is right under every
    accuracy mask, so the compositional accuracy is at most the tag
    accuracy, and both lie between 0 and 1.  Under the mask of [CharTags] a
    word is right exactly when head 0, the whole tag, is right; under the
    mask of [WholeTags], with its one head, the two accuracies count the
    same words. *)
Theorem tag_accuracies (accuracy_mask : list bool)
    (tags predictions : list (list (list Z))) (sentence_lens : list Z) :
  0 < Stats.sum_weights sentence_lens →
  (0 <= Stats.correct_tags_compositional tags predictions sentence_lens)%Q
  ∧ (Stats.correct_tags_compositional tags predictions sentence_lens
     <= Stats.correct_tag accuracy_mask tags predictions sentence_lens)%Q
  ∧ (Stats.correct_tag accuracy_mask tags predictions sentence_lens <= 1)%Q
  ∧ (∀ ct g gs p ps,
       length gs = Tags.taglen ct → length ps = Tags.taglen ct →
       Stats.tag_correct (TagHeads.accuracy_mask ct) (g :: gs) (p :: ps) = (g =? p))
  ∧ (∀ g p, Stats.tag_correct TagHeads.whole_accuracy_mask [g] [p]
            = Stats.tags_equal [g] [p]).
Proof.
  intros Hpos.
  assert (0 < inject_Z (Stats.sum_weights sentence_lens))%Q as HposQ.
  { rewrite <- (Zlt_Qlt 0). done. }
  pose proof (weights_nonneg sentence_lens) as Hw.
  unfold Stats.correct_tags_compositional, Stats.correct_tag, Stats.correct_count.
  split; [|split; [|split; [|split]]].
  - apply Qle_shift_div_l; [done|]. rewrite Qmult_0_l.
    rewrite <- (Zle_Qle 0). by apply weighted_sum_bounds.
  - unfold Qdiv. apply Qmult_le_compat_r.
    + rewrite <- Zle_Qle. apply weighted_sum_mono; [|done].
      apply Forall2_zip_with_both. intros gr pr.
      apply Forall2_zip_with_both. intros g p.
      apply tags_equal_tag_correct.
    + apply Qinv_le_0_compat. by apply Qlt_le_weak.
  - apply Qle_shift_div_r; [done|]. rewrite Qmult_1_l.
    rewrite <- Zle_Qle. by apply weighted_sum_bounds.
  - intros ct g gs p ps Hgs Hps.
    unfold Stats.tag_correct, TagHeads.accuracy_mask. simpl.
    rewrite orb_false_r.
    assert (forallb (λ b : bool, b)
              (zip_with orb (zip_with Z.eqb gs ps)
                 (map negb (replicate (Tags.taglen ct) false))) = true) as ->.
    { apply forallb_lookup.
      intros i b (e & nm & -> & _ & Hnm)%lookup_zip_with_Some.
      change (map negb ?l) with (negb <$> l) in Hnm.
      rewrite list_lookup_fmap in Hnm.
      destruct (replicate (Tags.taglen ct) false !! i) as [x|] eqn:Hx; [|done].
      apply lookup_replicate in Hx as [-> _]. injection Hnm as <-.
      apply orb_true_r. }
    apply andb_true_r.
  - intros g p. unfold Stats.tag_correct, Stats.tags_equal. simpl.
    by rewrite orb_false_r.
Qed.

Lemma tag_accuracies_witness :
  Qle (Stats.correct_tags_compositional [[[1; 2]; [3; 4]]] [[[1; 5]; [0; 4]]] [2])
      (Stats.correct_tag [true; false] [[[1; 2]; [3; 4]]] [[[1; 5]; [0; 4]]] [2]).
Proof.
  exact (proj1 (proj2 (tag_accuracies [true; false] [[[1; 2]; [3; 4]]]
                         [[[1; 5]; [0; 4]]] [2] eq_refl))).
Defined.

Section lemma_accuracy_facts.
Import Tensor Stats.

Lemma bool_decide_of_iff (b : bool) (P : Prop) `{!Decision P} :
  (b = true ↔ P) → b = bool_decide P.
Proof.
  intros H. destruct b; symmetry.
  - apply bool_decide_eq_true_2. by apply H.
  - apply bool_decide_eq_false_2. intros HP. by apply H in HP.
Qed.

Lemma correct_lem_row_iff (eow : Z) (pred lemma pad : list Z) :
  correct_lem_row pred (lemma ++ eow :: pad)
    (1 + Z.of_nat (first_occ eow pred)) (Z.of_nat (length lemma) + 1)
    (Nat.min (length pred) (length (lemma ++ eow :: pad))) = true
  ↔ take (first_occ eow pred) pred = lemma.
Proof.
  pose proof (first_occ_le eow pred) as Hle.
  set (n := first_occ eow pred) in *.
  assert (length (lemma ++ eow :: pad) = S (length lemma + length pad)) as Hlt
    by (rewrite length_app; simpl; lia).
  set (m := Nat.min _ _).
  unfold correct_lem_row. rewrite andb_true_iff, Z.eqb_eq, forallb_lookup.
  change (map negb ?l) with (negb <$> l).
  split.
  - intros [Hn Hall]. assert (n = length lemma) as Hnl by lia.
    apply list_eq. intros j. destruct (decide (j < n)%nat) as [Hj|Hj].
    + rewrite lookup_take_lt by done.
      destruct (lookup_lt_is_Some_2 pred j) as [x Hx]; [lia|].
      destruct (lookup_lt_is_Some_2 lemma j) as [y Hy]; [lia|].
      rewrite Hx, Hy. f_equal.
      assert (j < m)%nat as Hm by (subst m; lia).
      specialize (Hall j ((x =? y) || negb (bool_decide (Z.of_nat j
                                             < Z.of_nat (length lemma) + 1)))).
      rewrite !lookup_zip_with, !lookup_take_lt, Hx, lookup_app_l, Hy in Hall
        by first [done | lia].
      rewrite list_lookup_fmap, lookup_mask_row in Hall by done.
      specialize (Hall eq_refl).
      rewrite bool_decide_eq_true_2, orb_false_r in Hall by lia.
      by apply Z.eqb_eq.
    + rewrite lookup_take_ge by lia. symmetry. apply lookup_ge_None_2. lia.
  - intros Heq.
    assert (length lemma = n) as Hnl by (rewrite <- Heq, length_take; lia).
    split; [lia|]. intros i b (e & nm & -> & He & Hnm)%lookup_zip_with_Some.
    apply lookup_zip_with_Some in He as (x & y & -> & Hx & Hy).
    apply lookup_take_Some in Hx as [Hx Him].
    apply lookup_take_Some in Hy as [Hy _].
    rewrite list_lookup_fmap, lookup_mask_row in Hnm by done.
    injection Hnm as <-.
    destruct (decide (i < n)%nat) as [Hi|Hi].
    + rewrite lookup_app_l in Hy by lia.
      rewrite <- Heq, lookup_take_lt in Hy by done.
      assert (x = y) as -> by congruence. by rewrite Z.eqb_refl.
    + destruct (decide (i = n)) as [->|Hne].
      * apply lookup_lt_Some in Hx as Hlt'.
        assert (pred !! n = Some eow) as Hhit by (by apply first_occ_hit).
        rewrite Hhit in Hx.
        rewrite (list_lookup_middle lemma pad eow n) in Hy by done.
        assert (x = y) as -> by congruence. by rewrite Z.eqb_refl.
      * rewrite bool_decide_eq_false_2 by lia. apply orb_true_r.
Qed.

End lemma_accuracy_facts.

(** X18. The lemma accuracy of [compute_lemma_stats] with beam search.
    The target row of a word holds its lemma, then [eow], then padding, and
    its target length counts the lemma and [eow].  The word is counted as
    correct exactly when the predicted ids before the first [eow] (all of
    them when there is none) are the ids of the lemma; what the beam holds
    after its first [eow] does not matter. *)
Theorem correct_lem_beam (lemma_predictions target_seqs : Tensor.tensor2) (eow : Z)
    (target_lens : list Z) (k : nat) (pred lemma pad : list Z) :
  Tensor.shaped lemma_predictions → (0 < Tensor.dim1 lemma_predictions)%nat →
  Z.of_nat (Tensor.dim1 lemma_predictions) < 2 ^ 31 - 1 →
  Tensor.shaped target_seqs →
  Tensor.cells lemma_predictions !! k = Some pred →
  Tensor.cells target_seqs !! k = Some (lemma ++ eow :: pad) →
  target_lens !! k = Some (Z.of_nat (length lemma) + 1) →
  ∃ lpl,
    FindFirst.beam_prediction_lengths lemma_predictions eow = Some lpl
    ∧ Stats.correct_lem lemma_predictions target_seqs lpl target_lens !! k
      = Some (bool_decide (take (Tensor.first_occ eow pred) pred = lemma)).
Proof.
  intros Ht Hpos Hsmall Hs Hpred Htarget Hlen.
  pose proof (proj1 (Forall_lookup _ _) (proj2 Ht) k pred Hpred) as Hp.
  pose proof (proj1 (Forall_lookup _ _) (proj2 Hs) k _ Htarget) as Hq.
  simpl in Hp, Hq.
  pose proof (first_occ_le eow pred) as Hle.
  unfold FindFirst.beam_prediction_lengths.
  rewrite find_first_value by first [done | lia]. simpl.
  eexists. split; [done|]. unfold Stats.correct_lem.
  rewrite !lookup_zip_with, Hpred, Htarget, Hlen. simpl.
  change (map ?f ?l) with (f <$> l). rewrite !list_lookup_fmap, Hpred. simpl.
  f_equal. rewrite wrap32_small by lia. rewrite <- Hp, <- Hq.
  apply bool_decide_of_iff, correct_lem_row_iff.
Qed.

Lemma correct_lem_beam_witness :
  ∃ lpl,
    FindFirst.beam_prediction_lengths
      (Tensor.Tensor2 2 4 [[4; 5; 3; 0]; [6; 3; 9; 9]]) 3 = Some lpl
    ∧ Stats.correct_lem (Tensor.Tensor2 2 4 [[4; 5; 3; 0]; [6; 3; 9; 9]])
        (Tensor.Tensor2 2 3 [[4; 5; 3]; [7; 3; 0]]) lpl [3; 2] !! 0%nat
      = Some (bool_decide (take (Tensor.first_occ 3 [4; 5; 3; 0]) [4; 5; 3; 0]
                           = [4; 5])).
Proof.
  apply (correct_lem_beam (Tensor.Tensor2 2 4 [[4; 5; 3; 0]; [6; 3; 9; 9]])
           (Tensor.Tensor2 2 3 [[4; 5; 3]; [7; 3; 0]]) 3 [3; 2] 0%nat
           [4; 5; 3; 0] [4; 5] []).
  - split; [reflexivity|]. repeat constructor.
  - simpl. lia.
  - simpl. lia.
  - split; [reflexivity|]. repeat constructor.
  - reflexivity.
  - reflexivity.
  - reflexivity.
Defined.

Section target_length_facts.
Import Tensor FindFirst TF Lemmas.

Lemma first_occ_app (v : Z) (l1 l2 : list Z) :
  v ∉ l1 → first_occ v (l1 ++ v :: l2) = length l1.
Proof.
  induction l1 as [|x l1 IH]; simpl.
  - intros _. by rewrite Z.eqb_refl.
  - intros [Hne Hnin]%not_elem_of_cons.
    destruct (Z.eqb_spec v x) as [->|_]; [done|]. by rewrite IH.
Qed.

End target_length_facts.

(** X19. The lengths of the targets and of the predictions follow one
    convention.  For lemmas that fit their rows and do not hold [eow], the
    target lengths after [eow] is added are what the beam-search branch
    computes as prediction lengths on the targets themselves: one more
    than the position of the first [eow]. *)
Theorem target_lengths_found (eow : Z) (width : nat)
    (target_lens : list Z) (target_seqs : list (list Z)) :
  Forall2 Lemmas.lemma_fits target_seqs target_lens →
  Forall (λ row, length row = width) target_seqs →
  Z.of_nat width + 1 < 2 ^ 31 - 1 →
  Forall2 (λ row len, eow ∉ take (Z.to_nat len) row) target_seqs target_lens →
  ∃ lens seqs,
    Lemmas.add_eow eow target_lens target_seqs = Some (lens, seqs)
    ∧ Tensor.shaped (Tensor.Tensor2 (length target_seqs) (S width) seqs)
    ∧ FindFirst.beam_prediction_lengths
        (Tensor.Tensor2 (length target_seqs) (S width) seqs) eow = Some lens.
Proof.
  intros Hfit Hwidth Hsmall Hclean.
  rewrite (add_eow_closed eow target_lens target_seqs Hfit).
  eexists _, _. split; [done|].
  assert (Tensor.shaped
            (Tensor.Tensor2 (length target_seqs) (S width)
               (zip_with (λ row l, take (Z.to_nat l) row ++ eow :: drop (Z.to_nat l) row)
                  target_seqs target_lens))) as Hshaped.
  { split; simpl.
    - rewrite length_zip_with_l; [done|]. apply Forall2_length in Hfit. lia.
    - apply Forall_lookup. intros i r (row & l & -> & Hrow & Hl)%lookup_zip_with_Some.
      pose proof (proj1 (Forall_lookup _ _) Hwidth i row Hrow) as Hw. simpl in Hw.
      rewrite length_app. simpl. rewrite length_take, length_drop. lia. }
  split; [done|].
  unfold FindFirst.beam_prediction_lengths.
  rewrite find_first_value by first [done | simpl; lia]. simpl. f_equal.
  clear Hshaped.
  induction Hfit as [|row l seqs lens [Hl Hl'] _ IH]; [done|].
  apply Forall_cons_1 in Hwidth as [Hw Hwidth].
  apply Forall2_cons_1 in Hclean as [Hc Hclean].
  simpl. rewrite IH by done. f_equal.
  rewrite first_occ_app by done. rewrite length_take.
  rewrite wrap32_small by lia. lia.
Qed.

Lemma target_lengths_found_witness :
  ∃ lens seqs,
    Lemmas.add_eow 3 [2; 1] [[4; 5; 0]; [6; 0; 0]] = Some (lens, seqs)
    ∧ Tensor.shaped (Tensor.Tensor2 (length [[4; 5; 0]; [6; 0; 0]]) (S 3) seqs)
    ∧ FindFirst.beam_prediction_lengths
        (Tensor.Tensor2 (length [[4; 5; 0]; [6; 0; 0]]) (S 3) seqs) 3 = Some lens.
Proof.
  apply (target_lengths_found 3 3%nat [2; 1] [[4; 5; 0]; [6; 0; 0]]).
  - repeat first [ by (unfold Lemmas.lemma_fits; simpl; lia) | constructor ].
  - repeat constructor.
  - simpl. lia.
  - repeat first
      [ by (simpl; rewrite !not_elem_of_cons; repeat split;
            first [ lia | apply not_elem_of_nil ])
      | constructor ].
Defined.

(** ** The variables the losses train *)

(** X20. [tf.stop_gradient] cuts no variable off from training: for every
    setting of the flags, a variable the loss is computed from gets a
    gradient from the loss.  The dense layer of the tag encoder is among
    these variables exactly with [tags_to_lemmas], and the sense layer
    exactly without [builtin_sense]. *)
Theorem trained_variables (a : Graph.args) :
  (∀ p, Graph.is_variable p = true →
     (Graph.gradient_flows a Graph.Loss p ↔ Graph.computed_from a Graph.Loss p))
  ∧ (Graph.computed_from a Graph.Loss Graph.TagFeaturesDense
     ↔ Graph.tags_to_lemmas a = true)
  ∧ (Graph.computed_from a Graph.Loss Graph.SenseLayer
     ↔ Graph.builtin_sense a = false).
Proof.
  split; [|split].
  - intros p Hv. rewrite <- gradient_reaches_path, <- depends_on_path.
    each_args a; each_node p; try discriminate Hv; vm_compute; split; congruence.
  - rewrite <- depends_on_path. each_args a; vm_compute; split; congruence.
  - rewrite <- depends_on_path. each_args a; vm_compute; split; congruence.
Qed.

Lemma trained_variables_witness :
  Graph.gradient_flows Graph.default_args Graph.Loss Graph.DecoderCell
  ↔ Graph.computed_from Graph.default_args Graph.Loss Graph.DecoderCell.
Proof.
  exact (proj1 (trained_variables Graph.default_args) Graph.DecoderCell eq_refl).
Defined.

(** X21. The parameters of the lemma decoder (the target character
    embeddings, the cell, the attention and the output layer) are trained
    by the lemma loss alone: for every setting of the flags they get a
    gradient from it, and neither the tag loss nor the sense loss is
    computed from them. *)
Theorem decoder_parameters (a : Graph.args) (p : Graph.node) :
  p ∈ [Graph.TcharEmb; Graph.DecoderLayer; Graph.DecoderCell; Graph.Attention] →
  Graph.gradient_flows a Graph.LossLem p
  ∧ ¬ Graph.computed_from a Graph.LossTag p
  ∧ ¬ Graph.computed_from a Graph.LossSense p.
Proof.
  intros Hp.
  repeat (apply elem_of_cons in Hp as [->|Hp]); [..|by apply elem_of_nil in Hp];
    (split; [apply gradient_reaches_path|split; apply not_computed_from]);
    each_args a; vm_compute; reflexivity.
Qed.

Lemma decoder_parameters_witness :
  Graph.gradient_flows Graph.default_args Graph.LossLem Graph.Attention
  ∧ ¬ Graph.computed_from Graph.default_args Graph.LossTag Graph.Attention
  ∧ ¬ Graph.computed_from Graph.default_args Graph.LossSense Graph.Attention.
Proof.
  apply (decoder_parameters Graph.default_args Graph.Attention).
  do 3 (apply elem_of_cons; right). apply elem_of_cons. by left.
Defined.

(** X22. The variables that the tag loss and the lemma loss both train,
    with the flags as [main] sets them.  With [separate_embed] there is
    none.  Without it they are the common word embeddings, the common
    character-level encoder and, unless [separate_rnn] is set or there is no
    RNN layer, the common sentence-level RNN.  [main] sets [separate_rnn]
    with [separate_embed]; with the flags as given, the lemma loss would
    train the embeddings of the tagger through the common RNN. *)
Theorem shared_variables (a : Graph.args) (p : Graph.node) :
  Graph.is_variable p = true →
  (Graph.gradient_flows (Graph.parse_args a) Graph.LossTag p
   ∧ Graph.gradient_flows (Graph.parse_args a) Graph.LossLem p
   ↔ Graph.separate_embed a = false
     ∧ (p = Graph.WordEmbeddings Graph.Common
        ∨ p = Graph.CharEmbedVars Graph.Common
        ∨ (p = Graph.WordRnnVars Graph.Common
           ∧ Graph.separate_rnn a = false ∧ Graph.rnn_layers a ≠ O)))
  ∧ (Graph.separate_embed a = true → Graph.separate_rnn a = false →
     Graph.gradient_flows a Graph.LossLem (Graph.WordEmbeddings Graph.TagsScope)).
Proof.
  intros Hv. split.
  - rewrite <- !gradient_reaches_path.
    each_args a; each_node p; try discriminate Hv;
      cbn [Graph.parse_args Graph.separate_embed Graph.separate_rnn
           Graph.tags_to_lemmas Graph.builtin_sense Graph.rnn_layers];
      match goal with
      | |- ?x = true ∧ ?y = true ↔ _ =>
          let bx := eval vm_compute in x in
          let by' := eval vm_compute in y in
          change x with bx; change y with by'
      end;
      (split; [intros [H1 H2]; try discriminate H1; try discriminate H2
              |intros [H1 H2]; try discriminate H1]);
      intuition (try discriminate; try congruence).
  - intros He Hr. apply gradient_reaches_path.
    each_args a; try discriminate; vm_compute; reflexivity.
Qed.

Lemma shared_variables_witness :
  Graph.gradient_flows (Graph.parse_args Graph.default_args) Graph.LossTag
    (Graph.WordRnnVars Graph.Common)
  ∧ Graph.gradient_flows (Graph.parse_args Graph.default_args) Graph.LossLem
      (Graph.WordRnnVars Graph.Common).
Proof.
  apply (proj1 (shared_variables Graph.default_args
                  (Graph.WordRnnVars Graph.Common) eq_refl)).
  split; [reflexivity|]. right. right.
  split; [reflexivity|]. split; [reflexivity|discriminate].
Defined.

(** ** The signal dropout of the tag features *)

Lemma Forall2_Qeq_map (f g : Q → Q) (row : list Q) :
  (∀ v, f v == g v)%Q → Forall2 Qeq (map f (map g row)) (map (λ v, f (g v)) row)
  ∧ Forall2 Qeq (map f row) (map g row).
Proof.
  intros Hfg. split.
  - rewrite map_map. induction row as [|v row IH]; simpl; constructor.
    + reflexivity.
    + exact IH.
  - induction row as [|v row IH]; simpl; constructor.
    + apply Hfg.
    + exact IH.
Qed.

(** X23. The word-level signal dropout of the tag features, for a rate
    strictly between 0 and 1 and one draw per word.  In training the
    features of a word are either left as they are (the scaling of the
    dropout is undone by the factor [1 - rate]) or all set to zero; outside
    training they are left as they are.  With rate 0 nothing is done. *)
Theorem tag_signal_dropout_rows (rate : Q) (training : bool) (keep : list bool)
    (tag_features : list (list Q)) :
  (0 < rate)%Q → (rate < 1)%Q → length keep = length tag_features →
  Forall2 (λ row' krow,
      Forall2 Qeq row'
        (if training && negb krow.1 then map (λ _, 0%Q) krow.2 else krow.2))
    (Bridge.tag_signal_dropout rate training keep tag_features)
    (zip keep tag_features)
  ∧ Bridge.tag_signal_dropout 0 training keep tag_features = tag_features.
Proof.
  intros Hpos Hlt Hlen. split; [|done].
  unfold Bridge.tag_signal_dropout.
  assert (Qeq_bool rate 0 = false) as ->.
  { apply not_true_is_false. intros H%Qeq_bool_iff. rewrite H in Hpos.
    by apply Qlt_irrefl in Hpos. }
  assert (0 < 1 - rate)%Q as Hp1 by (by apply (proj1 (Qlt_minus_iff rate 1))).
  assert (¬ (1 - rate == 0)%Q) as Hne.
  { intros H. rewrite H in Hp1. by apply Qlt_irrefl in Hp1. }
  unfold Bridge.dropout. destruct training; simpl.
  - revert tag_features Hlen.
    induction keep as [|k keep IH]; intros [|row x] Hlen; try discriminate Hlen.
    + constructor.
    + simpl. constructor; [|apply IH; simpl in Hlen; lia].
      simpl. rewrite map_map. destruct k; simpl.
      * rewrite <- (map_id row) at 2.
        apply Forall2_Qeq_map. intros v. by field.
      * apply Forall2_Qeq_map. intros v. ring.
  - revert tag_features Hlen.
    induction keep as [|k keep IH]; intros [|row x] Hlen; try discriminate Hlen.
    + constructor.
    + simpl. constructor; [|apply IH; simpl in Hlen; lia].
      simpl. rewrite <- (map_id row) at 2.
      apply Forall2_Qeq_map. intros v. ring.
Qed.

Lemma tag_signal_dropout_rows_witness :
  Forall2 (λ row' krow,
      Forall2 Qeq row'
        (if true && negb krow.1 then map (λ _, 0%Q) krow.2 else krow.2))
    (Bridge.tag_signal_dropout (1 # 4) true [true; false]
       [[1 # 2; 3 # 1]; [5 # 1; 7 # 2]]%Q)
    (zip [true; false] [[1 # 2; 3 # 1]; [5 # 1; 7 # 2]]%Q).
Proof.
  apply (proj1 (tag_signal_dropout_rows (1 # 4) true [true; false]
                  [[1 # 2; 3 # 1]; [5 # 1; 7 # 2]]%Q
                  eq_refl eq_refl eq_refl)).
Defined.
